(** * AreoNet: terrain synthesis and traversability cost maps

    A shallow embedding of the numerical core of the AreoNet backend
    ([backend/dataset.py], [backend/costmap.py], the terrain endpoint of
    [backend/main.py], the class remapping and statistics of
    [backend/segmentation.py] and the metric of [backend/train.py])
    together with the properties checked against it.

    Modelling conventions.
    - A two-dimensional NumPy array is a record holding its shape and its
      rows (C order).  Elementwise operators act row by row.
    - Python and NumPy floating-point values are modelled by rationals
      extended with NaN (the only special value the code can create, through
      [0 / 0] on a one-cell grid).  Where a result depends on how a product
      is rounded (the byte of a jittered pixel, an exported occupancy
      value, the size of the validation split) the rounding of the binary32
      and binary64 formats is an interface, [IEEE754], whose reference
      instance rounds to nearest, ties to even; the noise fields and the
      height map are followed in exact arithmetic, and what is proved of
      them does not depend on which side of a threshold a value within
      rounding distance of it falls.
    - A NumPy array of 64-bit integers wraps around silently, but a Python
      integer that does not fit its element type is refused with
      [OverflowError] (NumPy 2).
    - Transcendental functions ([np.sin], [np.cos], [np.hypot]), the NumPy
      random generator, OpenCV's blur and Pillow's resampling filters are
      interfaces (type classes); every theorem holds for all their
      implementations.
    - Python exceptions are values of an error monad. *)

From Stdlib Require Import String ZArith QArith Qabs Qround Qpower.
From Stdlib Require Import Bool List Lia.
From Stdlib Require Import Lqa Permutation Sorted.
Import ListNotations.
Open Scope Z_scope.

(* ------------------------------------------------------------------ *)
(** ** Python exceptions *)

Inductive exn : Type :=
| ValueError
| AttributeError
| IndexError
| OverflowError
| LibraryError.

Inductive result (A : Type) : Type :=
| Ok (a : A)
| Raise (e : exn).
Arguments Ok {A} a.
Arguments Raise {A} e.

Definition bind {A B} (m : result A) (k : A -> result B) : result B :=
  match m with
  | Ok a => k a
  | Raise e => Raise e
  end.

Notation "x <- m ;; k" := (bind m (fun x => k))
  (at level 61, m at next level, right associativity).

(* ------------------------------------------------------------------ *)
(** ** Floating-point values *)

Inductive npfloat : Type :=
| NaN
| Fin (q : Q).

Definition fl_lift1 (f : Q -> Q) (a : npfloat) : npfloat :=
  match a with
  | Fin x => Fin (f x)
  | NaN => NaN
  end.

Definition fl_lift2 (f : Q -> Q -> Q) (a b : npfloat) : npfloat :=
  match a, b with
  | Fin x, Fin y => Fin (f x y)
  | _, _ => NaN
  end.

Definition fl_add := fl_lift2 Qplus.
Definition fl_sub := fl_lift2 Qminus.
Definition fl_mul := fl_lift2 Qmult.
Definition fl_abs := fl_lift1 Qabs.
Definition fl_floor := fl_lift1 (fun x => inject_Z (Qfloor x)).

(** True division.  The generators divide by [size - 1]; a zero divisor
    therefore only ever meets the numerator [0] (grid size one), where
    IEEE-754 yields NaN. *)
Definition fl_div (a b : npfloat) : npfloat :=
  match a, b with
  | Fin x, Fin y => if Qeq_bool y 0 then NaN else Fin (x / y)
  | _, _ => NaN
  end.

Definition fl_of_Z (z : Z) : npfloat := Fin (inject_Z z).

Definition Qlt_bool (x y : Q) : bool := negb (Qle_bool y x).

(** Comparisons: every comparison with NaN is false. *)
Definition fl_ltb (a b : npfloat) : bool :=
  match a, b with
  | Fin x, Fin y => Qlt_bool x y
  | _, _ => false
  end.

Definition fl_gtb (a b : npfloat) : bool := fl_ltb b a.

Definition fl_geb (a b : npfloat) : bool :=
  match a, b with
  | Fin x, Fin y => Qle_bool y x
  | _, _ => false
  end.

(** [np.pi], the binary64 value nearest to pi: 884279719003555 / 2^48. *)
Definition np_pi : Q := 884279719003555 # 281474976710656.

(** The C library functions NumPy calls. *)
Class Libm : Type := {
  np_sin : npfloat -> npfloat;
  np_cos : npfloat -> npfloat;
  np_hypot : npfloat -> npfloat -> npfloat
}.

(** Rounding of a real number to the nearest value of the binary32 and of
    the binary64 format, as every floating-point operation of NumPy and of
    Python does with its exact result, and as reading a decimal literal
    does.  Rounding to nearest is monotone, and it leaves a representable
    number unchanged, in particular [n / 2^k] for an integer [n] of at
    most 24 bits (binary32, [k <= 149]) or 53 bits (binary64,
    [k <= 1074]). *)
Class IEEE754 : Type := {
  f32 : Q -> Q;
  f64 : Q -> Q;
  f32_monotone : forall x y : Q, (x <= y)%Q -> (f32 x <= f32 y)%Q;
  f64_monotone : forall x y : Q, (x <= y)%Q -> (f64 x <= f64 y)%Q;
  f32_dyadic : forall n k : Z,
    Z.abs n <= 2 ^ 24 -> 0 <= k <= 149 ->
    (f32 (inject_Z n / inject_Z (2 ^ k))
     == inject_Z n / inject_Z (2 ^ k))%Q;
  f64_dyadic : forall n k : Z,
    Z.abs n <= 2 ^ 53 -> 0 <= k <= 1074 ->
    (f64 (inject_Z n / inject_Z (2 ^ k))
     == inject_Z n / inject_Z (2 ^ k))%Q
}.

(** The element types of a floating-point array. *)
Inductive float_dtype : Type :=
| float32
| float64.

(** The rounding an array of the given element type applies. *)
Definition np_round `{IEEE754} (dtype : float_dtype) (x : Q) : Q :=
  match dtype with
  | float32 => f32 x
  | float64 => f64 x
  end.

(** The least magnitude that rounds to infinity in binary64:
    [2^1024 - 2^970], half way between the largest finite value and
    [2^1024]. *)
Definition f64_overflow : Q := inject_Z (2 ^ 1024 - 2 ^ 970).

(** A binary64 result that Python goes on to use as a finite number:
    [float(n)] of an integer raises [OverflowError] when it is too large,
    and so does [int(x)] of an infinite product. *)
Definition f64_finite `{IEEE754} (x : Q) : result Q :=
  if Qle_bool f64_overflow (Qabs x) then Raise OverflowError
  else Ok (f64 x).

(* ------------------------------------------------------------------ *)
(** ** Fixed-width integers *)

Definition uint8 (z : Z) : Z := z mod 256.

Definition int8 (z : Z) : Z := (z + 128) mod 256 - 128.

Definition int64 (z : Z) : Z := (z + 2 ^ 63) mod 2 ^ 64 - 2 ^ 63.

(** Truncation toward zero, as [astype] does on floating-point data. *)
Definition Qtrunc (x : Q) : Z := Z.quot (Qnum x) (Zpos (Qden x)).

(* ------------------------------------------------------------------ *)
(** ** Two-dimensional arrays *)

Record ndarray (A : Type) : Type := mk_ndarray {
  nrows : nat;
  ncols : nat;
  rows : list (list A)
}.
Arguments mk_ndarray {A} nrows ncols rows.
Arguments nrows {A} n.
Arguments ncols {A} n.
Arguments rows {A} n.

Definition shape {A} (a : ndarray A) : nat * nat := (nrows a, ncols a).

(** The shape announced by the record is the shape of the data. *)
Definition well_shaped {A} (a : ndarray A) : Prop :=
  length (rows a) = nrows a /\
  Forall (fun row => length row = ncols a) (rows a).

Definition has_shape {A} (h w : nat) (a : ndarray A) : Prop :=
  nrows a = h /\ ncols a = w /\ well_shaped a.

Definition nd_get {A} (a : ndarray A) (r c : nat) : option A :=
  match nth_error (rows a) r with
  | Some row => nth_error row c
  | None => None
  end.

Fixpoint zip_with {A B C} (f : A -> B -> C) (xs : list A) (ys : list B)
  : list C :=
  match xs, ys with
  | x :: xs', y :: ys' => f x y :: zip_with f xs' ys'
  | _, _ => []
  end.

Definition nd_map {A B} (f : A -> B) (a : ndarray A) : ndarray B :=
  mk_ndarray (nrows a) (ncols a) (map (map f) (rows a)).

(** Elementwise binary operator on two arrays of one shape. *)
Definition nd_map2 {A B C} (f : A -> B -> C) (a : ndarray A) (b : ndarray B)
  : ndarray C :=
  mk_ndarray (nrows a) (ncols a) (zip_with (zip_with f) (rows a) (rows b)).

(** [a.flatten().tolist()] *)
Definition flatten {A} (a : ndarray A) : list A := concat (rows a).

(** [mask.any()] and [mask.sum()] *)
Definition nd_any (m : ndarray bool) : bool :=
  existsb (fun b => b) (flatten m).

(** [np.arange(n)] *)
Definition np_arange (n : Z) : list Z :=
  map Z.of_nat (seq 0 (Z.to_nat n)).

(** [np.meshgrid(xs, ys)] with the default ['xy'] indexing: both results
    have one row per element of [ys] and one column per element of [xs]. *)
Definition np_meshgrid {A} (xs ys : list A) : ndarray A * ndarray A :=
  let h := length ys in
  let w := length xs in
  (mk_ndarray h w (map (fun _ => xs) ys),
   mk_ndarray h w (map (fun y => map (fun _ => y) xs) ys)).

(** [np.full((h, w), v)]; a negative dimension is a [ValueError]. *)
Definition np_full {A} (h w : Z) (v : A) : result (ndarray A) :=
  if (h <? 0) || (w <? 0) then Raise ValueError
  else Ok (mk_ndarray (Z.to_nat h) (Z.to_nat w)
             (repeat (repeat v (Z.to_nat w)) (Z.to_nat h))).

(** [np.zeros((h, w))] for a shape read off an existing array. *)
Definition np_zeros {A} (h w : nat) (zero : A) : ndarray A :=
  mk_ndarray h w (repeat (repeat zero w) h).

(** [a[mask] = v] for a scalar [v]. *)
Definition set_where {A} (mask : ndarray bool) (v : A) (a : ndarray A)
  : ndarray A :=
  nd_map2 (fun (m : bool) x => if m then v else x) mask a.

Definition nd_and := nd_map2 andb.
Definition nd_or := nd_map2 orb.

Definition nd_gt (a : ndarray npfloat) (c : Q) : ndarray bool :=
  nd_map (fun x => fl_gtb x (Fin c)) a.
Definition nd_lt (a : ndarray npfloat) (c : Q) : ndarray bool :=
  nd_map (fun x => fl_ltb x (Fin c)) a.
Definition nd_ge (a : ndarray npfloat) (c : Q) : ndarray bool :=
  nd_map (fun x => fl_geb x (Fin c)) a.
Definition nd_eqZ (a : ndarray Z) (c : Z) : ndarray bool :=
  nd_map (fun x => x =? c) a.

Definition nd_sub_scalar (a : ndarray npfloat) (c : Q) : ndarray npfloat :=
  nd_map (fun x => fl_sub x (Fin c)) a.
Definition nd_abs (a : ndarray npfloat) : ndarray npfloat := nd_map fl_abs a.

(* ------------------------------------------------------------------ *)
(** ** The NumPy random generator *)

(** One generator state and the scalar draws the code performs.  An array
    draw of [n] values is [n] scalar draws, in C order. *)
Class Generator : Type := {
  rng_state : Type;
  rng_seed : Z -> rng_state;
  rng_random : rng_state -> Q * rng_state;
  rng_uniform : Q -> Q -> rng_state -> Q * rng_state;
  rng_integers : Z -> Z -> rng_state -> Z * rng_state;
  rng_normal : Q -> Q -> rng_state -> Q * rng_state
}.

(** [np.random.default_rng(seed)] rejects a negative seed. *)
Definition default_rng `{Generator} (seed : Z) : result rng_state :=
  if seed <? 0 then Raise ValueError else Ok (rng_seed seed).

(* ------------------------------------------------------------------ *)
(** ** Terrain class schema ([dataset.py]) *)

Record terrain_class : Type := mk_class {
  id : Z;
  name : string;
  rgb : Z * Z * Z;
  cost : Q;
  traversable : bool
}.
Arguments mk_class id%_Z name%_string rgb%_Z cost%_Q traversable%_bool.

Definition TERRAIN_CLASSES : list terrain_class := [
  mk_class 0 "Rock"       (139, 115,  85) 0.9  false;
  mk_class 1 "Bush"       ( 74, 112,  35) 0.75 false;
  mk_class 2 "Log"        (139,  69,  19) 0.85 false;
  mk_class 3 "Sand"       (222, 184, 135) 0.2  true;
  mk_class 4 "Landscape"  (196, 168,  98) 0.15 true;
  mk_class 5 "Clear"      (200, 210, 220) 0.1  true;
  mk_class 6 "Gravel"     (169, 169, 169) 0.35 true;
  mk_class 7 "Water"      ( 30,  80, 200) 0.95 false;
  mk_class 8 "Vegetation" ( 34, 139,  34) 0.5  true;
  mk_class 9 "Obstacle"   (220,  20,  60) 1.0  false
].

Definition NUM_CLASSES : Z := Z.of_nat (length TERRAIN_CLASSES).

(** The schema of [segmentation.py], the registry the service passes to
    [generate_cost_map].  Its colours are hexadecimal strings, given here
    as [hex_to_rgb] reads them; class 5 is "Sky" with cost 0. *)
Definition SEGMENTATION_TERRAIN_CLASSES : list terrain_class := [
  mk_class 0 "Rock"       (0x8B, 0x73, 0x55) 0.9  false;
  mk_class 1 "Bush"       (0x4A, 0x70, 0x23) 0.75 false;
  mk_class 2 "Log"        (0x8B, 0x45, 0x13) 0.85 false;
  mk_class 3 "Sand"       (0xDE, 0xB8, 0x87) 0.2  true;
  mk_class 4 "Landscape"  (0xC4, 0xA8, 0x62) 0.15 true;
  mk_class 5 "Sky"        (0x87, 0xCE, 0xEB) 0.0  false;
  mk_class 6 "Gravel"     (0xA9, 0xA9, 0xA9) 0.35 true;
  mk_class 7 "Water"      (0x41, 0x69, 0xE1) 0.95 false;
  mk_class 8 "Vegetation" (0x22, 0x8B, 0x22) 0.5  true;
  mk_class 9 "Obstacle"   (0xDC, 0x14, 0x3C) 1.0  false
].

(* ------------------------------------------------------------------ *)
(** ** Noise helpers ([dataset.py]) *)

(** [_pseudo_rand(grid_x, grid_y, seed)]:
    [r = sin(grid_x * (127.1 + seed * 0.07) + grid_y * (311.7 + seed * 0.13))
         * 43758.5453], then [r - floor(r)].  The coordinate grids are
    integer arrays. *)
Definition _pseudo_rand `{Libm} (grid_x grid_y : ndarray Z) (seed : Z)
  : ndarray npfloat :=
  let kx := (127.1 + inject_Z seed * 0.07)%Q in
  let ky := (311.7 + inject_Z seed * 0.13)%Q in
  let r :=
    nd_map2 (fun gx gy =>
               fl_mul (np_sin (fl_add (fl_mul (fl_of_Z gx) (Fin kx))
                                      (fl_mul (fl_of_Z gy) (Fin ky))))
                      (Fin 43758.5453%Q))
            grid_x grid_y in
  nd_map (fun x => fl_sub x (fl_floor x)) r.

(** One frequency band [(fx, fz, amp)]. *)
Definition band : Type := Q * Q * Q.

(** The body of the loop of [_sine_noise]: draw the two phases, then
    [acc += amp * sin(nx * pi * fx + px) * cos(nz * pi * fz + pz)]. *)
Definition sine_band `{Libm} `{Generator} (nx nz : ndarray npfloat)
    (st : ndarray npfloat * rng_state) (b : band)
  : ndarray npfloat * rng_state :=
  let '(acc, rng) := st in
  let '(fx, fz, amp) := b in
  let '(px, rng1) := rng_uniform 0%Q (2 * np_pi)%Q rng in
  let '(pz, rng2) := rng_uniform 0%Q (2 * np_pi)%Q rng1 in
  let term :=
    nd_map2 (fun x z =>
               fl_mul
                 (fl_mul (Fin amp)
                    (np_sin (fl_add (fl_mul (fl_mul x (Fin np_pi)) (Fin fx))
                                    (Fin px))))
                 (np_cos (fl_add (fl_mul (fl_mul z (Fin np_pi)) (Fin fz))
                                 (Fin pz))))
            nx nz in
  (nd_map2 fl_add acc term, rng2).

(** [_sine_noise(nx, nz, freqs, seed)] *)
Definition _sine_noise `{Libm} `{Generator} (nx nz : ndarray npfloat)
    (freqs : list band) (seed : Z) : result (ndarray npfloat) :=
  rng <- default_rng seed ;;
  let acc := nd_map (fun _ => Fin 0%Q) nx in
  Ok (fst (fold_left (sine_band nx nz) freqs (acc, rng))).

(* ------------------------------------------------------------------ *)
(** ** Terrain generators ([dataset.py]) *)

(** The four coordinate grids every generator starts from:
    [X, Z = np.meshgrid(ix / (size - 1), iz / (size - 1))] and
    [I, J = np.meshgrid(ix, iz)]. *)
Definition unit_coords (size : Z) : list npfloat :=
  map (fun i => fl_div (fl_of_Z i) (fl_of_Z (size - 1))) (np_arange size).

(** A Python integer that fits the 64-bit element type of an index
    array. *)
Definition fits_int64 (k : Z) : bool := (- 2 ^ 63 <=? k) && (k <? 2 ^ 63).

(** [a + k] for a 64-bit integer array [a] and a Python integer [k].
    NumPy (version 2) converts [k] to the element type of the array and
    raises [OverflowError] when it does not fit, also on an empty array;
    the sum itself wraps around silently. *)
Definition nd_addZ (a : ndarray Z) (k : Z) : result (ndarray Z) :=
  if fits_int64 k then Ok (nd_map (fun x => int64 (x + k)) a)
  else Raise OverflowError.

(** [a * k] for a literal [k] (2 or 3 in the generators), wrapping. *)
Definition nd_mulZ (a : ndarray Z) (k : Z) : ndarray Z :=
  nd_map (fun x => int64 (x * k)) a.

(** [gen_desert]: mostly sand and rock clusters. *)
Definition gen_desert `{Libm} `{Generator} (size seed : Z)
  : result (ndarray Z) :=
  let ix := np_arange size in
  let iz := np_arange size in
  let '(X, Zc) := np_meshgrid (unit_coords size) (unit_coords size) in
  let '(I_, J_) := np_meshgrid ix iz in
  wave <- _sine_noise X Zc
            [(3, 2.5, 0.4); (9, 7, 0.2); (16, 12, 0.08)]%Q seed ;;
  gx <- nd_addZ I_ seed ;;
  gy <- nd_addZ J_ (seed * 2) ;;
  let r := _pseudo_rand gx gy seed in
  labels <- np_full size size (uint8 3) ;;
  let labels := set_where (nd_gt wave 0.45) (uint8 0) labels in
  let labels :=
    set_where (nd_and (nd_gt wave 0.30) (nd_gt r 0.78)) (uint8 1) labels in
  let labels :=
    set_where (nd_and (nd_gt wave 0.22) (nd_gt r 0.90)) (uint8 2) labels in
  let labels := set_where (nd_lt wave 0.0) (uint8 4) labels in
  let labels := set_where (nd_gt r 0.96) (uint8 9) labels in
  Ok labels.

(** [gen_rocky]: dense rock with a gravel and sand corridor. *)
Definition gen_rocky `{Libm} `{Generator} (size seed : Z)
  : result (ndarray Z) :=
  let ix := np_arange size in
  let iz := np_arange size in
  let '(X, Zc) := np_meshgrid (unit_coords size) (unit_coords size) in
  let '(I_, J_) := np_meshgrid ix iz in
  wave <- _sine_noise X Zc
            [(5, 4, 0.55); (10, 8, 0.25); (20, 15, 0.1)]%Q seed ;;
  gx <- nd_addZ (nd_mulZ I_ 2) seed ;;
  gy <- nd_addZ (nd_mulZ J_ 3) seed ;;
  let r := _pseudo_rand gx gy seed in
  let dist := nd_abs (nd_sub_scalar X 0.5) in
  labels <- np_full size size (uint8 0) ;;
  let labels := set_where (nd_gt wave 0.38) (uint8 9) labels in
  let labels := set_where (nd_lt wave (-0.2)) (uint8 8) labels in
  let labels := set_where (nd_lt dist 0.12) (uint8 6) labels in
  let labels :=
    set_where (nd_and (nd_lt dist 0.07) (nd_lt r 0.55)) (uint8 3) labels in
  let labels :=
    set_where (nd_and (nd_lt dist 0.12) (nd_gt r 0.86)) (uint8 2) labels in
  let labels :=
    set_where (nd_and (nd_gt dist 0.35) (nd_gt r 0.88)) (uint8 1) labels in
  Ok labels.

(** The noise fields of [gen_mixed]. *)
Record mixed_fields : Type := mk_mixed_fields {
  mX : ndarray npfloat;
  mZ : ndarray npfloat;
  mwave : ndarray npfloat;
  mr : ndarray npfloat
}.

Definition gen_mixed_fields `{Libm} `{Generator} (size seed : Z)
  : result mixed_fields :=
  let ix := np_arange size in
  let iz := np_arange size in
  let '(X, Zc) := np_meshgrid (unit_coords size) (unit_coords size) in
  let '(I_, J_) := np_meshgrid ix iz in
  wave <- _sine_noise X Zc
            [(4, 3, 0.35); (10, 8, 0.15); (18, 14, 0.06)]%Q seed ;;
  gx <- nd_addZ I_ (seed * 3) ;;
  gy <- nd_addZ J_ seed ;;
  let r := _pseudo_rand gx gy seed in
  Ok (mk_mixed_fields X Zc wave r).

(** [gen_mixed] from the default fill to the edge obstacles.  The masks
    compare exact values: a coordinate within rounding distance of a
    threshold can fall on the other side of it in binary64, so which cells
    a rule selects may differ from a run of the code there; the class each
    rule writes, the order of the rules and the cells they may touch do
    not. *)
Definition gen_mixed_zones `{Libm} (f : mixed_fields) (size : Z)
  : result (ndarray Z) :=
  let X := mX f in
  let Zc := mZ f in
  let wave := mwave f in
  let r := mr f in
  labels <- np_full size size (uint8 4) ;;
  let dist_water :=
    nd_map2 np_hypot (nd_sub_scalar X 0.82) (nd_sub_scalar Zc 0.82) in
  let labels := set_where (nd_lt dist_water 0.18) (uint8 7) labels in
  let labels :=
    set_where (nd_and (nd_ge dist_water 0.18) (nd_lt dist_water 0.27))
              (uint8 6) labels in
  let labels :=
    set_where (nd_and (nd_and (nd_gt X 0.65) (nd_lt Zc 0.35))
                      (nd_gt wave 0.20)) (uint8 0) labels in
  let labels :=
    set_where (nd_and (nd_and (nd_gt X 0.65) (nd_lt Zc 0.35))
                      (nd_gt wave 0.35)) (uint8 9) labels in
  let labels :=
    set_where (nd_and (nd_lt X 0.35) (nd_lt Zc 0.35)) (uint8 8) labels in
  let labels :=
    set_where (nd_and (nd_and (nd_lt X 0.35) (nd_lt Zc 0.35))
                      (nd_gt r 0.70)) (uint8 1) labels in
  let log_diag := nd_lt (nd_abs (nd_map2 fl_sub X Zc)) 0.04 in
  let labels := set_where (nd_and log_diag (nd_gt r 0.80)) (uint8 2) labels in
  let labels :=
    set_where (nd_and (nd_and (nd_lt (nd_abs (nd_sub_scalar X 0.5)) 0.1)
                              (nd_lt (nd_abs (nd_sub_scalar Zc 0.5)) 0.1))
                      (nd_gt r 0.65)) (uint8 5) labels in
  let labels := set_where (nd_gt r 0.97) (uint8 9) labels in
  Ok labels.

(** The gravel-path rule: [labels[gravel_path & (labels == 4)] = 6]. *)
Definition gravel_path_rule (f : mixed_fields) (labels : ndarray Z)
  : ndarray Z :=
  let gravel_path :=
    nd_or (nd_lt (nd_abs (nd_sub_scalar (mX f) 0.5)) 0.06)
          (nd_lt (nd_abs (nd_sub_scalar (mZ f) 0.5)) 0.06) in
  set_where (nd_and gravel_path (nd_eqZ labels 4)) (uint8 6) labels.

(** The sand-strip rule:
    [labels[(wave > 0.15) & (labels == 4) & (r > 0.6)] = 3]. *)
Definition sand_strip_rule (f : mixed_fields) (labels : ndarray Z)
  : ndarray Z :=
  set_where (nd_and (nd_and (nd_gt (mwave f) 0.15) (nd_eqZ labels 4))
                    (nd_gt (mr f) 0.6)) (uint8 3) labels.

(** [gen_mixed]: zoned terrain using all ten classes. *)
Definition gen_mixed `{Libm} `{Generator} (size seed : Z)
  : result (ndarray Z) :=
  f <- gen_mixed_fields size seed ;;
  labels <- gen_mixed_zones f size ;;
  let labels := gravel_path_rule f labels in
  let labels := sand_strip_rule f labels in
  Ok labels.

(** [gen_random]: the style is [seed % 3]. *)
Definition gen_random `{Libm} `{Generator} (size seed : Z)
  : result (ndarray Z) :=
  let style := seed mod 3 in
  if style =? 0 then gen_desert size seed
  else if style =? 1 then gen_rocky size seed
  else gen_mixed size seed.

(* ------------------------------------------------------------------ *)
(** ** Geometry of arrays and images *)

(** Transposition of [w]-wide rows: the first row is consed onto the
    columns of the remaining ones. *)
Fixpoint transpose_rows {A} (w : nat) (rs : list (list A)) : list (list A) :=
  match rs with
  | [] => repeat [] w
  | r :: rs' => zip_with cons r (transpose_rows w rs')
  end.

Definition nd_transpose {A} (m : ndarray A) : ndarray A :=
  mk_ndarray (ncols m) (nrows m) (transpose_rows (ncols m) (rows m)).

(** [np.flip(m, 0)] and [np.flip(m, 1)] *)
Definition np_flip0 {A} (m : ndarray A) : ndarray A :=
  mk_ndarray (nrows m) (ncols m) (rev (rows m)).
Definition np_flip1 {A} (m : ndarray A) : ndarray A :=
  mk_ndarray (nrows m) (ncols m) (map (@rev A) (rows m)).

(** [np.fliplr(m)] is [m[:, ::-1]], [np.flipud(m)] is [m[::-1, ...]]. *)
Definition np_fliplr {A} (m : ndarray A) : ndarray A := np_flip1 m.
Definition np_flipud {A} (m : ndarray A) : ndarray A := np_flip0 m.

(** [np.rot90(m, k)], following NumPy's implementation: [k] is reduced
    modulo four; one turn is [transpose(flip(m, 1))], two turns are
    [flip(flip(m, 0), 1)], three turns are [flip(transpose(m), 1)]. *)
Definition np_rot90 {A} (m : ndarray A) (k : Z) : ndarray A :=
  let k := k mod 4 in
  if k =? 0 then m
  else if k =? 2 then np_flip1 (np_flip0 m)
  else if k =? 1 then nd_transpose (np_flip1 m)
  else np_flip1 (nd_transpose m).

(** A Pillow RGB image: one byte triple per pixel. *)
Definition pixel : Type := Z * Z * Z.
Definition image : Type := ndarray pixel.

(** Pillow's lossless transpositions.  [ROTATE_90] turns the picture
    counter-clockwise: the rows of the result are the columns of the
    source, last column first.  [ROTATE_270] turns it clockwise: the rows
    of the result are the columns of the source, each read bottom-up. *)
Definition FLIP_LEFT_RIGHT (im : image) : image :=
  mk_ndarray (nrows im) (ncols im) (map (@rev pixel) (rows im)).
Definition FLIP_TOP_BOTTOM (im : image) : image :=
  mk_ndarray (nrows im) (ncols im) (rev (rows im)).
Definition ROTATE_180 (im : image) : image :=
  mk_ndarray (nrows im) (ncols im) (rev (map (@rev pixel) (rows im))).
Definition ROTATE_90 (im : image) : image :=
  mk_ndarray (ncols im) (nrows im)
             (rev (transpose_rows (ncols im) (rows im))).
Definition ROTATE_270 (im : image) : image :=
  mk_ndarray (ncols im) (nrows im)
             (map (@rev pixel) (transpose_rows (ncols im) (rows im))).

(** The parts of Pillow and OpenCV that resample pixel values. *)
Class Imaging : Type := {
  (** [Image.rotate] on its general path: an affine resampling onto a
      canvas of the size of the source ([expand] is false). *)
  pil_affine_rotate : Z -> image -> image;
  (** [Image.fromarray(rgb, "RGB")] *)
  pil_fromarray : ndarray pixel -> result image;
  (** [img.filter(ImageFilter.GaussianBlur(radius))] *)
  pil_gaussian_blur : Q -> image -> result image;
  (** [img.resize((w, h), Image.BILINEAR)] *)
  pil_resize_bilinear : Z -> Z -> image -> result image;
  (** [cv2.GaussianBlur(grid, (k, k), 0)] *)
  cv2_GaussianBlur : ndarray Q -> Z -> result (ndarray Q);
  (** [cv2.applyColorMap(grid, cv2.COLORMAP_JET)] *)
  cv2_applyColorMap_JET : ndarray Z -> result (ndarray pixel);
  (** [cv2.cvtColor(img, cv2.COLOR_BGR2RGB)] *)
  cv2_cvtColor_BGR2RGB : ndarray pixel -> result (ndarray pixel)
}.

(** [img.rotate(angle)]: Pillow reduces the angle modulo 360 and serves a
    multiple of 90 degrees by a lossless transposition when that keeps the
    canvas (a half turn always, a quarter turn on a square image);
    otherwise it resamples. *)
Definition pil_rotate `{Imaging} (im : image) (angle : Z) : image :=
  let angle := angle mod 360 in
  if angle =? 0 then im
  else if angle =? 180 then ROTATE_180 im
  else if ((angle =? 90) || (angle =? 270)) && (ncols im =? nrows im)%nat
       then (if angle =? 90 then ROTATE_90 im else ROTATE_270 im)
  else pil_affine_rotate angle im.

(* ------------------------------------------------------------------ *)
(** ** Augmentation ([dataset.py]) *)

Definition Qclip (x lo hi : Q) : Q :=
  if Qlt_bool x lo then lo else if Qlt_bool hi x then hi else x.

(** [np.clip(arr * factor, 0, 255).astype(np.uint8)] on one channel of
    the binary32 array [arr]: the Python float [factor], a binary64 value,
    is converted to binary32, the product is rounded to binary32, clipped
    and truncated. *)
Definition jitter_channel `{IEEE754} (factor : Q) (v : Z) : Z :=
  uint8 (Qtrunc (Qclip (f32 (inject_Z v * f32 (f64 factor))) 0 255)).

Definition jitter_rgb `{IEEE754} (factor : Q) (p : pixel) : pixel :=
  let '(r, g, b) := p in
  (jitter_channel factor r, jitter_channel factor g,
   jitter_channel factor b).

Definition color_jitter `{IEEE754} (factor : Q) (im : image) : image :=
  nd_map (jitter_rgb factor) im.

(** [augment_image(img, label, rng)]: random flips, a rotation by a
    multiple of 90 degrees and a colour jitter on the image alone.  The
    function has no [raise] and calls nothing that raises on a
    two-dimensional input; the final generator state is returned with the
    pair. *)
Definition augment_image `{IEEE754} `{Imaging} `{Generator}
    (img : image) (label : ndarray Z) (rng : rng_state)
  : result (image * ndarray Z * rng_state) :=
  let '(u1, rng) := rng_random rng in
  let '(img, label) :=
    if Qlt_bool 0.5 u1
    then (FLIP_LEFT_RIGHT img, np_fliplr label)
    else (img, label) in
  let '(u2, rng) := rng_random rng in
  let '(img, label) :=
    if Qlt_bool 0.5 u2
    then (FLIP_TOP_BOTTOM img, np_flipud label)
    else (img, label) in
  let '(k, rng) := rng_integers 0 4 rng in
  let '(img, label) :=
    if k >? 0
    then (pil_rotate img (k * 90), np_rot90 label k)
    else (img, label) in
  let '(factor, rng) := rng_uniform 0.85 1.15 rng in
  let img := color_jitter factor img in
  Ok (img, label, rng).

(* ------------------------------------------------------------------ *)
(** ** Renderer ([dataset.py]) *)

(** One row of [rng.normal(0, noise_std, (n, 3))] added to the class
    colour: [np.clip(base + jitter, 0, 255).astype(np.uint8)]. *)
Definition jitter_pixel `{Generator} (base : Z * Z * Z) (noise_std : Q)
    (rng : rng_state) : pixel * rng_state :=
  let '(br, bg, bb) := base in
  let '(jr, rng) := rng_normal 0 noise_std rng in
  let '(jg, rng) := rng_normal 0 noise_std rng in
  let '(jb, rng) := rng_normal 0 noise_std rng in
  let ch (b : Z) (j : Q) := uint8 (Qtrunc (Qclip (inject_Z b + j) 0 255)) in
  ((ch br jr, ch bg jg, ch bb jb), rng).

(** [rgb[mask] = pix] along one row: the selected pixels receive their
    jittered colours in order. *)
Fixpoint paint_row `{Generator} (base : Z * Z * Z) (noise_std : Q)
    (mask : list bool) (row : list pixel) (rng : rng_state)
  : list pixel * rng_state :=
  match mask, row with
  | m :: ms, p :: ps =>
      if m then
        let '(p', rng) := jitter_pixel base noise_std rng in
        let '(ps', rng) := paint_row base noise_std ms ps rng in
        (p' :: ps', rng)
      else
        let '(ps', rng) := paint_row base noise_std ms ps rng in
        (p :: ps', rng)
  | _, _ => ([], rng)
  end.

Fixpoint paint_rows `{Generator} (base : Z * Z * Z) (noise_std : Q)
    (mask : list (list bool)) (rs : list (list pixel)) (rng : rng_state)
  : list (list pixel) * rng_state :=
  match mask, rs with
  | m :: ms, r :: rs' =>
      let '(r', rng) := paint_row base noise_std m r rng in
      let '(rs'', rng) := paint_rows base noise_std ms rs' rng in
      (r' :: rs'', rng)
  | _, _ => ([], rng)
  end.

(** The body of the loop [for cid, tc in enumerate(TERRAIN_CLASSES)]. *)
Definition paint_class `{Generator} (labels : ndarray Z) (noise_std : Q)
    (st : ndarray pixel * rng_state) (entry : nat * terrain_class)
  : ndarray pixel * rng_state :=
  let '(canvas, rng) := st in
  let '(cid, tc) := entry in
  let mask := nd_eqZ labels (Z.of_nat cid) in
  if negb (nd_any mask) then (canvas, rng)
  else
    let '(rs, rng) :=
      paint_rows (rgb tc) noise_std (rows mask) (rows canvas) rng in
    (mk_ndarray (nrows canvas) (ncols canvas) rs, rng).

Definition enumerate {A} (l : list A) : list (nat * A) :=
  combine (seq 0 (length l)) l.

(** [render_terrain] up to the colour array handed to Pillow. *)
Definition render_rgb `{Generator} (labels : ndarray Z) (noise_std : Q)
    (rng : rng_state) : ndarray pixel * rng_state :=
  let canvas := np_zeros (nrows labels) (ncols labels) (0, 0, 0) in
  fold_left (paint_class labels noise_std) (enumerate TERRAIN_CLASSES)
            (canvas, rng).

(** [render_terrain(labels, size, rng, noise_std)] *)
Definition render_terrain `{Imaging} `{Generator} (labels : ndarray Z)
    (size : Z) (rng : rng_state) (noise_std : Q)
  : result (image * rng_state) :=
  let '(canvas, rng) := render_rgb labels noise_std rng in
  img <- pil_fromarray canvas ;;
  img <- pil_gaussian_blur 0.8 img ;;
  if negb (size =? Z.of_nat (nrows labels))
  then img <- pil_resize_bilinear size size img ;; Ok (img, rng)
  else Ok (img, rng).

(* ------------------------------------------------------------------ *)
(** ** Cost maps ([costmap.py]) *)

(** The objects on which the colour map calls [.astype]: a NumPy array of
    floating-point values, or a plain Python integer. *)
Inductive pyobj : Type :=
| PyInt (z : Z)
| PyFloatArray (xs : list Q).

(** [obj.astype(np.uint8)].  Only arrays have the method; looking it up on
    a Python [int] raises [AttributeError]. *)
Definition astype_uint8 (obj : pyobj) : result (list Z) :=
  match obj with
  | PyFloatArray xs => Ok (map (fun x => uint8 (Qtrunc x)) xs)
  | PyInt _ => Raise AttributeError
  end.

(** [a[mask]]: the selected cells, in C order. *)
Definition select {A} (mask : ndarray bool) (a : ndarray A) : list A :=
  map snd (filter fst (combine (flatten mask) (flatten a))).

(** [mask.sum()] *)
Definition nd_count (mask : ndarray bool) : nat :=
  length (filter (fun b : bool => b) (flatten mask)).

Definition set_channel (ch : nat) (v : Z) (p : pixel) : pixel :=
  let '(r, g, b) := p in
  match ch with
  | O => (v, g, b)
  | S O => (r, v, b)
  | _ => (r, g, v)
  end.

Fixpoint scatter_row (ch : nat) (mask : list bool) (row : list pixel)
    (vals : list Z) : list pixel * list Z :=
  match mask, row with
  | m :: ms, p :: ps =>
      match m, vals with
      | true, v :: vs =>
          let '(ps', rest) := scatter_row ch ms ps vs in
          (set_channel ch v p :: ps', rest)
      | _, _ =>
          let '(ps', rest) := scatter_row ch ms ps vals in
          (p :: ps', rest)
      end
  | _, _ => (row, vals)
  end.

Fixpoint scatter_rows (ch : nat) (mask : list (list bool))
    (rs : list (list pixel)) (vals : list Z) : list (list pixel) :=
  match mask, rs with
  | m :: ms, r :: rs' =>
      let '(r', rest) := scatter_row ch m r vals in
      r' :: scatter_rows ch ms rs' rest
  | _, _ => rs
  end.

(** [canvas[mask, ch] = vals] for a one-dimensional [vals].  NumPy raises
    [ValueError] unless there is exactly one value per selected cell. *)
Definition scatter (ch : nat) (mask : ndarray bool) (vals : list Z)
    (canvas : ndarray pixel) : result (ndarray pixel) :=
  if (length vals =? nd_count mask)%nat
  then Ok (mk_ndarray (nrows canvas) (ncols canvas)
             (scatter_rows ch (rows mask) (rows canvas) vals))
  else Raise ValueError.

(** [canvas[mask, ch] = v] for a scalar [v]. *)
Definition set_channel_where (ch : nat) (mask : ndarray bool) (v : Z)
    (canvas : ndarray pixel) : ndarray pixel :=
  nd_map2 (fun (m : bool) p => if m then set_channel ch v p else p)
          mask canvas.

(** [apply_terrain_colormap(cost_grid)], statement by statement. *)
Definition apply_terrain_colormap (cost_grid : ndarray Q)
  : result (ndarray pixel) :=
  let canvas := np_zeros (nrows cost_grid) (ncols cost_grid) (0, 0, 0) in
  (* Safe zone (green) *)
  let safe := nd_map (fun c => Qlt_bool c 0.3) cost_grid in
  g <- astype_uint8
         (PyFloatArray
            (map (fun c => 255 * (1 - c / 0.3))%Q (select safe cost_grid))) ;;
  canvas <- scatter 1 safe g canvas ;;
  r <- astype_uint8
         (PyFloatArray
            (map (fun c => 100 * (c / 0.3))%Q (select safe cost_grid))) ;;
  canvas <- scatter 0 safe r canvas ;;
  (* Caution zone (yellow) *)
  let caution :=
    nd_and (nd_map (fun c => Qle_bool 0.3 c) cost_grid)
           (nd_map (fun c => Qlt_bool c 0.6) cost_grid) in
  let t := map (fun c => (c - 0.3) / 0.3)%Q (select caution cost_grid) in
  red <- astype_uint8 (PyInt 255) ;;
  canvas <- scatter 0 caution red canvas ;;
  green <- astype_uint8 (PyFloatArray (map (fun x => 255 * (1 - x))%Q t)) ;;
  canvas <- scatter 1 caution green canvas ;;
  (* Danger zone (red) *)
  let danger := nd_map (fun c => Qle_bool 0.6 c) cost_grid in
  let canvas := set_channel_where 0 danger 255 canvas in
  let canvas := set_channel_where 1 danger 0 canvas in
  let canvas := set_channel_where 2 danger 0 canvas in
  Ok canvas.

(** The colour ramp as the specification words it, cell by cell. *)
Definition zoned_color_ramp (c : Q) : pixel :=
  if Qlt_bool c 0.3
  then (uint8 (Qtrunc (100 * (c / 0.3))),
        uint8 (Qtrunc (255 * (1 - c / 0.3))), 0)
  else if Qlt_bool c 0.6
  then (255, uint8 (Qtrunc (255 * (1 - (c - 0.3) / 0.3))), 0)
  else (255, 0, 0).

(** [create_cost_heatmap(cost_grid)] *)
Definition create_cost_heatmap `{Imaging} (cost_grid : ndarray Q)
  : result image :=
  let cost_normalized :=
    nd_map (fun c => uint8 (Qtrunc (c * 255))) cost_grid in
  heatmap <- cv2_applyColorMap_JET cost_normalized ;;
  heatmap_rgb <- cv2_cvtColor_BGR2RGB heatmap ;;
  let heatmap_rgb :=
    nd_map (fun p : pixel =>
              let '(r, g, b) := p in
              (uint8 (255 - r), uint8 (255 - g), uint8 (255 - b)))
           heatmap_rgb in
  heatmap_custom <- apply_terrain_colormap cost_grid ;;
  pil_fromarray heatmap_custom.

(** Lines 27-34 of [generate_cost_map]: a grid of zeros in which every
    class of the registry, in order, writes its cost over its cells. *)
Definition cost_lookup (seg_mask : ndarray Z)
    (terrain_classes : list terrain_class) : ndarray Q :=
  fold_left
    (fun cost_grid cls =>
       set_where (nd_eqZ seg_mask (id cls)) (cost cls) cost_grid)
    terrain_classes
    (np_zeros (nrows seg_mask) (ncols seg_mask) 0%Q).

(** [generate_cost_map(seg_mask, terrain_classes, blur_kernel)] *)
Definition generate_cost_map `{Imaging} (seg_mask : ndarray Z)
    (terrain_classes : list terrain_class) (blur_kernel : Z)
  : result (image * ndarray Q) :=
  let cost_grid := cost_lookup seg_mask terrain_classes in
  cost_grid <- cv2_GaussianBlur cost_grid blur_kernel ;;
  let cost_grid := nd_map (fun c => Qclip c 0 1) cost_grid in
  cost_map_img <- create_cost_heatmap cost_grid ;;
  Ok (cost_map_img, cost_grid).

(** The dictionary returned by [export_cost_grid_ros]. *)
Record occupancy_grid : Type := mk_occupancy_grid {
  frame_id : string;
  resolution : Q;
  width : nat;
  height : nat;
  origin_position : Q * Q * Q;
  origin_orientation : Q * Q * Q * Q;
  data : list Z
}.

(** [export_cost_grid_ros(cost_grid, resolution)] for a cost grid of
    element type [dtype]: a cell holds the value of that type nearest to
    the given number, [cost_grid * 100] is the product rounded to that
    type, and [astype(np.int8)] truncates it. *)
Definition export_cost_grid_ros `{IEEE754} (dtype : float_dtype)
    (cost_grid : ndarray Q) (resolution : Q) : occupancy_grid :=
  let h := nrows cost_grid in
  let w := ncols cost_grid in
  let occupancy :=
    flatten
      (nd_map (fun c =>
                 int8 (Qtrunc (np_round dtype (np_round dtype c * 100))))
              cost_grid) in
  mk_occupancy_grid "map" resolution w h (0, 0, 0)%Q (0, 0, 0, 1)%Q
                    occupancy.

(* ------------------------------------------------------------------ *)
(** ** Height map ([main.py], [get_terrain]) *)

Definition H_BASE : list Q :=
  [0.55; 0.35; 0.22; 0.08; 0.18; 0.02; 0.12; -0.25; 0.28; 0.80]%Q.
Definition H_VAR : list Q :=
  [0.50; 0.20; 0.12; 0.08; 0.15; 0.04; 0.06; 0.05; 0.12; 0.40]%Q.

(** Python list indexing: negative indices count from the end. *)
Definition py_index {A} (l : list A) (i : Z) : result A :=
  let n := Z.of_nat (length l) in
  let j := if i <? 0 then i + n else i in
  if (j <? 0) || (n <=? j) then Raise IndexError
  else match nth_error l (Z.to_nat j) with
       | Some x => Ok x
       | None => Raise IndexError
       end.

Fixpoint mapM {A B} (f : A -> result B) (l : list A) : result (list B) :=
  match l with
  | [] => Ok []
  | x :: xs => y <- f x ;; ys <- mapM f xs ;; Ok (y :: ys)
  end.

(** [np.vectorize(f)(a)]: refuses an array without elements, otherwise
    applies [f] to every cell. *)
Definition np_vectorize {A B} (f : A -> result B) (a : ndarray A)
  : result (ndarray B) :=
  match flatten a with
  | [] => Raise ValueError
  | _ :: _ =>
      rs <- mapM (mapM f) (rows a) ;;
      Ok (mk_ndarray (nrows a) (ncols a) rs)
  end.

(** [rng.random((h, w))]: [h * w] draws in C order. *)
Fixpoint rng_random_row `{Generator} (w : nat) (rng : rng_state)
  : list Q * rng_state :=
  match w with
  | O => ([], rng)
  | S w' =>
      let '(u, rng) := rng_random rng in
      let '(us, rng) := rng_random_row w' rng in
      (u :: us, rng)
  end.

Fixpoint rng_random_rows `{Generator} (h w : nat) (rng : rng_state)
  : list (list Q) * rng_state :=
  match h with
  | O => ([], rng)
  | S h' =>
      let '(r, rng) := rng_random_row w rng in
      let '(rs, rng) := rng_random_rows h' w rng in
      (r :: rs, rng)
  end.

Definition rng_random_array `{Generator} (h w : Z) (rng : rng_state)
  : result (ndarray Q * rng_state) :=
  if (h <? 0) || (w <? 0) then Raise ValueError
  else
    let '(rs, rng) := rng_random_rows (Z.to_nat h) (Z.to_nat w) rng in
    Ok (mk_ndarray (Z.to_nat h) (Z.to_nat w) rs, rng).

(** [np.vectorize(lambda cid: H_BASE[cid])(labels)
     + np.vectorize(lambda cid: H_VAR[cid])(labels) * noise] *)
Definition height_map (labels : ndarray Z) (noise : ndarray Q)
  : result (ndarray Q) :=
  base <- np_vectorize (py_index H_BASE) labels ;;
  var <- np_vectorize (py_index H_VAR) labels ;;
  Ok (nd_map2 Qplus base (nd_map2 Qmult var noise)).

(** [get_terrain(preset, grid, seed)] up to the height map. *)
Definition get_terrain `{Libm} `{Generator} (preset : string)
    (grid seed : Z) : result (ndarray Z * ndarray Q) :=
  let gen_fn :=
    if String.eqb preset "desert" then gen_desert
    else if String.eqb preset "rocky" then gen_rocky
    else gen_mixed in
  labels <- gen_fn grid seed ;;
  rng <- default_rng seed ;;
  noise <- rng_random_array grid grid rng ;;
  hm <- height_map labels (fst noise) ;;
  Ok (labels, hm).

(* ------------------------------------------------------------------ *)
(** ** The recorded draws of one augmentation *)

(** What [augment_image] draws, in order: the two flip decisions, the
    number of quarter turns and the photometric factor. *)
Record draws : Type := mk_draws {
  hflip : bool;
  vflip : bool;
  quarter_turns : Z;
  factor : Q
}.

Definition recorded_draws `{Generator} (rng : rng_state)
  : draws * rng_state :=
  let '(u1, rng) := rng_random rng in
  let '(u2, rng) := rng_random rng in
  let '(k, rng) := rng_integers 0 4 rng in
  let '(f, rng) := rng_uniform 0.85 1.15 rng in
  (mk_draws (Qlt_bool 0.5 u1) (Qlt_bool 0.5 u2) k f, rng).

(** The recorded flips and rotation applied directly to an array. *)
Definition apply_geometry {A} (d : draws) (m : ndarray A) : ndarray A :=
  let m := if hflip d then np_fliplr m else m in
  let m := if vflip d then np_flipud m else m in
  if quarter_turns d >? 0 then np_rot90 m (quarter_turns d) else m.

(** The same choices applied to an image through Pillow. *)
Definition apply_geometry_image `{Imaging} (d : draws) (im : image)
  : image :=
  let im := if hflip d then FLIP_LEFT_RIGHT im else im in
  let im := if vflip d then FLIP_TOP_BOTTOM im else im in
  if quarter_turns d >? 0 then pil_rotate im (quarter_turns d * 90) else im.


(* ------------------------------------------------------------------ *)
(** ** Reference implementations of the library interfaces

    Small computable instances, used to run the model on concrete inputs. *)

(** Rounding to the nearest integer, ties to the even one. *)
Definition Qrne (x : Q) : Z :=
  let f := Qfloor x in
  match (x - inject_Z f ?= 1 # 2)%Q with
  | Lt => f
  | Gt => f + 1
  | Eq => if Z.even f then f else f + 1
  end.

(** The binary exponent of a positive number: [2^e <= x < 2^(e+1)]. *)
Definition ilog2 (x : Q) : Z :=
  let e := Z.log2 (Qnum x) - Z.log2 (Zpos (Qden x)) in
  if Qle_bool (2 ^ e) x then e else e - 1.

(** The exponent of the last place of a positive number in a format of
    [prec] significant bits whose least normal exponent is [emin]; below
    [2^emin] the spacing stays that of the subnormal numbers. *)
Definition scale_exp (prec emin : Z) (x : Q) : Z :=
  Z.max (ilog2 x - prec + 1) (emin - prec + 1).

Definition round_mag (prec emin : Z) (x : Q) : Q :=
  inject_Z (Qrne (x / 2 ^ scale_exp prec emin x))
  * 2 ^ scale_exp prec emin x.

(** Rounding to nearest, ties to even, in the binary format of [prec]
    significant bits and least normal exponent [emin] (24 and -126 for
    binary32, 53 and -1022 for binary64), overflow apart. *)
Definition round_binary (prec emin : Z) (x : Q) : Q :=
  if Qeq_bool x 0 then 0%Q
  else if Qle_bool 0 x then round_mag prec emin (Qabs x)
  else (- round_mag prec emin (Qabs x))%Q.

(** Sine and cosine collapse to piecewise-constant waves; [hypot] to the
    sum of the absolute values. *)
Definition ref_libm : Libm := {|
  np_sin := fun x =>
    match x with
    | Fin q => Fin (inject_Z (Qfloor q mod 3 - 1))
    | NaN => NaN
    end;
  np_cos := fun x =>
    match x with
    | Fin q => Fin (inject_Z (1 - Qfloor q mod 3))
    | NaN => NaN
    end;
  np_hypot := fun x y => fl_add (fl_abs x) (fl_abs y)
|}.

(** A linear congruential generator on 31 bits. *)
Definition lcg_next (s : Z) : Z := (s * 1103515245 + 12345) mod 2 ^ 31.

Definition lcg_unit (s : Z) : Q := (s mod 1000) # 1000.

Definition ref_generator : Generator := {|
  rng_state := Z;
  rng_seed := fun seed => lcg_next seed;
  rng_random := fun s => (lcg_unit s, lcg_next s);
  rng_uniform := fun lo hi s =>
    ((lo + (hi - lo) * lcg_unit s)%Q, lcg_next s);
  rng_integers := fun lo hi s => (lo + s mod (hi - lo), lcg_next s);
  rng_normal := fun mu sigma s =>
    ((mu + sigma * (lcg_unit s - 0.5))%Q, lcg_next s)
|}.

(** Resampling filters that leave the pixels alone. *)
Definition ref_imaging : Imaging := {|
  pil_affine_rotate := fun _ im => im;
  pil_fromarray := fun a => Ok a;
  pil_gaussian_blur := fun _ im => Ok im;
  pil_resize_bilinear := fun _ _ im => Ok im;
  cv2_GaussianBlur := fun g k =>
    if (k <=? 0) || Z.even k then Raise LibraryError else Ok g;
  cv2_applyColorMap_JET := fun g => Ok (nd_map (fun v => (v, v, v)) g);
  cv2_cvtColor_BGR2RGB := fun a =>
    Ok (nd_map (fun p : pixel => let '(b, g, r) := p in (r, g, b)) a)
|}.

(** Every cell of an array satisfies a predicate. *)
Definition all_cells {A} (P : A -> Prop) (a : ndarray A) : Prop :=
  Forall (Forall P) (rows a).

(** The registry ids, [0 .. 9]. *)
Definition valid_id (v : Z) : Prop := 0 <= v <= 9.

(** The empty array of shape [(0, 0)]. *)
Definition empty_grid {A} : ndarray A := mk_ndarray 0 0 [].

(** The value of a computation that did not raise. *)
Definition result_get {A} (default : A) (m : result A) : A :=
  match m with
  | Ok a => a
  | Raise _ => default
  end.

(** [base[classId]] and [variance[classId]] for a registry id. *)
Definition class_base (cid : Z) : Q := nth (Z.to_nat cid) H_BASE 0%Q.
Definition class_variance (cid : Z) : Q := nth (Z.to_nat cid) H_VAR 0%Q.


(** A second stand-in for the C library: sawtooth waves with a thousand
    steps, fine enough for the pseudo-random field to spread over [0, 1). *)
Definition saw_wave (x : npfloat) : npfloat :=
  match x with
  | Fin q => Fin (inject_Z (Qfloor (q * 1000) mod 2001 - 1000) / 1000)
  | NaN => NaN
  end.

Definition saw_libm : Libm := {|
  np_sin := saw_wave;
  np_cos := fun x => saw_wave (fl_add x (Fin 0.5));
  np_hypot := fun x y => fl_add (fl_abs x) (fl_abs y)
|}.

(* ------------------------------------------------------------------ *)
(** ** Segmentation post-processing ([segmentation.py]) *)

(** [np.isin(a, values)] *)
Definition np_isin (a : ndarray Z) (values : list Z) : ndarray bool :=
  nd_map (fun x => existsb (Z.eqb x) values) a.

(** [SegmentationModel._remap_classes(mask)]: the heuristic mapping from
    ADE20K class ids to the ten terrain classes. *)
Definition _remap_classes (mask : ndarray Z) : ndarray Z :=
  let remapped := nd_map (fun _ => 0) mask in
  let remapped := set_where (np_isin mask [13; 14; 17]) 0 remapped in
  let remapped := set_where (np_isin mask [4; 9; 17]) 1 remapped in
  let remapped := set_where (np_isin mask [5; 18]) 2 remapped in
  let remapped := set_where (np_isin mask [29; 46; 62]) 3 remapped in
  let remapped := set_where (np_isin mask [3; 13; 45]) 4 remapped in
  let remapped := set_where (np_isin mask [2]) 5 remapped in
  let remapped := set_where (np_isin mask [15; 53]) 6 remapped in
  let remapped := set_where (np_isin mask [21; 26]) 7 remapped in
  let remapped := set_where (np_isin mask [4; 17; 67]) 8 remapped in
  let remapped := set_where (np_isin mask [19; 20; 33]) 9 remapped in
  remapped.

(** Every ADE20K id some rule of [_remap_classes] lists. *)
Definition ade_listed : list Z :=
  [13; 14; 17; 4; 9; 5; 18; 29; 46; 62; 3; 45; 2; 15; 53; 21; 26; 67;
   19; 20; 33].

(** [self.color_map]: the registry colours, one per class, in order. *)
Definition color_map : list pixel := map rgb SEGMENTATION_TERRAIN_CLASSES.

(** [SegmentationModel._colorize_mask(mask)], up to the colour array
    handed to Pillow. *)
Definition _colorize_mask (mask : ndarray Z) : ndarray pixel :=
  fold_left
    (fun colored class_id =>
       set_where (nd_eqZ mask (Z.of_nat class_id))
                 (nth class_id color_map (0, 0, 0)) colored)
    (seq 0 (length SEGMENTATION_TERRAIN_CLASSES))
    (np_zeros (nrows mask) (ncols mask) (0, 0, 0)).

(** Python's [round(x, ndigits)] on a float. *)
Class PyRound : Type := {
  py_round : Q -> Z -> Q
}.

(** One entry of the class distribution: name, rounded share, colour. *)
Record class_share : Type := mk_class_share {
  share_name : string;
  share_conf : Q;
  share_color : Z * Z * Z
}.

(** [list.sort(key=conf, reverse=True)]: the stable sort by decreasing
    share; an entry is placed behind every entry that is not smaller. *)
Fixpoint insert_desc (x : class_share) (l : list class_share)
  : list class_share :=
  match l with
  | [] => [x]
  | y :: l' =>
      if Qle_bool (share_conf x) (share_conf y)
      then y :: insert_desc x l'
      else x :: l
  end.

Definition sort_desc (l : list class_share) : list class_share :=
  fold_left (fun sorted x => insert_desc x sorted) l [].

(** The share of a class: [float(np.sum(mask == id) / mask.size)]. *)
Definition class_coverage (mask : ndarray Z) (cls : terrain_class)
  : npfloat :=
  fl_div (fl_of_Z (Z.of_nat (nd_count (nd_eqZ mask (id cls)))))
         (fl_of_Z (Z.of_nat (nrows mask * ncols mask))).

(** The body of the loop of [_compute_class_distribution]. *)
Definition add_class_share `{PyRound} (mask : ndarray Z)
    (distribution : list class_share) (cls : terrain_class)
  : list class_share :=
  match class_coverage mask cls with
  | Fin conf =>
      if Qlt_bool 0.01 conf
      then distribution
             ++ [mk_class_share (name cls) (py_round conf 3) (rgb cls)]
      else distribution
  | NaN => distribution
  end.

(** [SegmentationModel._compute_class_distribution(mask)] *)
Definition _compute_class_distribution `{PyRound} (mask : ndarray Z)
  : list class_share :=
  sort_desc (fold_left (add_class_share mask) SEGMENTATION_TERRAIN_CLASSES []).

(** Rounding to a given number of decimals, ties to even, in exact
    arithmetic. *)
Definition round_half_even (x : Q) (ndigits : Z) : Q :=
  let scale := inject_Z (10 ^ ndigits) in
  let y := (x * scale)%Q in
  let lo := Qfloor y in
  let frac := (y - inject_Z lo)%Q in
  let n :=
    if Qlt_bool frac 0.5 then lo
    else if Qlt_bool 0.5 frac then lo + 1
    else if Z.even lo then lo else lo + 1 in
  (inject_Z n / scale)%Q.

Definition ref_round : PyRound := {| py_round := round_half_even |}.

(** The order of the class distribution: no later entry has a larger
    share. *)
Definition by_decreasing_share (a b : class_share) : Prop :=
  (share_conf b <= share_conf a)%Q.

(** The entry [_compute_class_distribution] writes for a class of share
    [conf]. *)
Definition share_entry `{PyRound} (cls : terrain_class) (conf : Q)
  : class_share :=
  mk_class_share (name cls) (py_round conf 3) (rgb cls).

(* ------------------------------------------------------------------ *)
(** ** Metrics ([train.py]) *)

(** A binary operator on two one-dimensional arrays under NumPy's
    broadcasting: equal lengths, or one operand of length one. *)
Definition np_broadcast2 {A B C} (f : A -> B -> C) (xs : list A)
    (ys : list B) : result (list C) :=
  if (length xs =? length ys)%nat then Ok (zip_with f xs ys)
  else match xs, ys with
       | [x], _ => Ok (map (f x) ys)
       | _, [y] => Ok (map (fun x => f x y) xs)
       | _, _ => Raise ValueError
       end.

(** [mask.sum()] on a one-dimensional mask. *)
Definition count_true (mask : list bool) : Z :=
  Z.of_nat (length (filter (fun b : bool => b) mask)).

(** The body of the loop of [compute_miou]. *)
Definition miou_class (preds labels : list Z) (ious : list Q) (cls : Z)
  : result (list Q) :=
  let pred_c := map (fun p => p =? cls) preds in
  let label_c := map (fun l => l =? cls) labels in
  inter_mask <- np_broadcast2 andb pred_c label_c ;;
  union_mask <- np_broadcast2 orb pred_c label_c ;;
  let inter := count_true inter_mask in
  let union := count_true union_mask in
  if union =? 0 then Ok ious
  else Ok (ious ++ [(inject_Z inter / inject_Z union)%Q]).

Fixpoint foldM {A B} (f : B -> A -> result B) (l : list A) (acc : B)
  : result B :=
  match l with
  | [] => Ok acc
  | x :: xs => acc' <- f acc x ;; foldM f xs acc'
  end.

Definition Qsum (l : list Q) : Q := fold_right Qplus 0%Q l.

(** [np.mean(ious)] *)
Definition np_mean (l : list Q) : Q :=
  (Qsum l / inject_Z (Z.of_nat (length l)))%Q.

(** [compute_miou(preds, labels, num_classes)] *)
Definition compute_miou (preds labels : list Z) (num_classes : Z)
  : result Q :=
  ious <- foldM (miou_class preds labels) (np_arange num_classes) [] ;;
  match ious with
  | [] => Ok 0%Q
  | _ :: _ => Ok (np_mean ious)
  end.

(* ------------------------------------------------------------------ *)
(** ** Dataset generation ([dataset.py], [generate_dataset]) *)

(** [Image.fromarray(labels, "L").resize((w, h), Image.NEAREST)] read back
    as an array. *)
Class LabelImaging : Type := {
  pil_resize_nearest : Z -> Z -> ndarray Z -> result (ndarray Z)
}.

(** One image file and its annotation file, as [generate_dataset] writes
    them: the split directory, the running index that names both files,
    and their contents. *)
Record written_sample : Type := mk_written_sample {
  ws_split : string;
  ws_index : nat;
  ws_image : image;
  ws_labels : ndarray Z
}.

(** [n_val = max(1, int(n * val_split))] and the two split sizes.  The
    product is taken in binary64: [val_split] is a float, [n] is converted
    to one, the product is rounded, and [int] truncates it. *)
Definition split_counts `{IEEE754} (n : Z) (val_split : Q) : result (Z * Z) :=
  n_float <- f64_finite (inject_Z n) ;;
  product <- f64_finite (n_float * f64 val_split) ;;
  let n_val := Z.max 1 (Qtrunc product) in
  Ok (n - n_val, n_val).

(** The body of the inner loop of [generate_dataset]. *)
Definition generate_sample
    `{IEEE754} `{Libm} `{Generator} `{Imaging} `{LabelImaging}
    (grid img_size : Z) (augment : bool) (split : string) (idx : nat)
    (rng : rng_state) : result (written_sample * rng_state) :=
  let '(s, rng) := rng_integers 0 (2 ^ 31) rng in
  labels <- gen_random grid s ;;
  rendered <- render_terrain labels img_size rng 8 ;;
  let '(img, rng) := rendered in
  labels <- (if negb (img_size =? grid)
             then pil_resize_nearest img_size img_size labels
             else Ok labels) ;;
  out <- (if augment && String.eqb split "train"
          then augment_image img labels rng
          else Ok (img, labels, rng)) ;;
  let '(img, labels, rng) := out in
  Ok (mk_written_sample split idx img labels, rng).

(** [for k in range(count)] over one split; [idx] runs on across splits. *)
Fixpoint generate_split
    `{IEEE754} `{Libm} `{Generator} `{Imaging} `{LabelImaging}
    (grid img_size : Z) (augment : bool) (split : string) (count : nat)
    (idx : nat) (rng : rng_state)
  : result (list written_sample * nat * rng_state) :=
  match count with
  | O => Ok ([], idx, rng)
  | S count' =>
      first <- generate_sample grid img_size augment split idx rng ;;
      let '(sample, rng) := first in
      rest <- generate_split grid img_size augment split count'
                (S idx) rng ;;
      let '(samples, idx', rng) := rest in
      Ok (sample :: samples, idx', rng)
  end.

(** [generate_dataset(out_dir, n, grid, img_size, val_split, seed,
    augment)]: the files written, in order. *)
Definition generate_dataset
    `{IEEE754} `{Libm} `{Generator} `{Imaging} `{LabelImaging}
    (n grid img_size : Z) (val_split : Q) (seed : Z) (augment : bool)
  : result (list written_sample) :=
  rng <- default_rng seed ;;
  counts <- split_counts n val_split ;;
  let '(n_train, n_val) := counts in
  train <- generate_split grid img_size augment "train" (Z.to_nat n_train)
             0 rng ;;
  let '(train_samples, idx, rng) := train in
  val <- generate_split grid img_size augment "val" (Z.to_nat n_val)
           idx rng ;;
  let '(val_samples, _, _) := val in
  Ok (train_samples ++ val_samples).

(** A nearest-neighbour resize as Pillow samples it: output cell
    [(r, c)] copies the source cell under its centre,
    [((r + 1/2) * h / out_h, (c + 1/2) * w / out_w)] rounded down, and is 0
    where the source has no such cell (an empty source); a size that is not
    positive is an error. *)
Definition nearest_resize (out_w out_h : Z) (a : ndarray Z)
  : result (ndarray Z) :=
  if (out_w <=? 0) || (out_h <=? 0) then Raise ValueError
  else
    let pick (r c : nat) : Z :=
      match nd_get a ((2 * r + 1) * nrows a / (2 * Z.to_nat out_h))
                     ((2 * c + 1) * ncols a / (2 * Z.to_nat out_w)) with
      | Some v => v
      | None => 0
      end in
    Ok (mk_ndarray (Z.to_nat out_h) (Z.to_nat out_w)
          (map (fun r => map (pick r) (seq 0 (Z.to_nat out_w)))
               (seq 0 (Z.to_nat out_h)))).

Definition ref_label_imaging : LabelImaging :=
  {| pil_resize_nearest := nearest_resize |}.

(** What [generate_dataset] relies on from the nearest-neighbour resize
    of a source that has cells, to a positive size: the requested shape,
    and no cell that the source does not hold. *)
Definition nearest_copies_cells `{LabelImaging} : Prop :=
  forall w h src_h src_w a b,
    0 < w -> 0 < h ->
    has_shape src_h src_w a -> (0 < src_h)%nat -> (0 < src_w)%nat ->
    pil_resize_nearest w h a = Ok b ->
    has_shape (Z.to_nat h) (Z.to_nat w) b /\
    forall x, In x (flatten b) -> In x (flatten a).

(* ------------------------------------------------------------------ *)
(** ** Terrain cells ([main.py], [get_terrain]) *)

(** One entry of the ["cells"] array of the [/terrain] response. *)
Record terrain_cell : Type := mk_terrain_cell {
  cell_classId : Z;
  cell_className : string;
  cell_cost : Q;
  cell_traversable : bool;
  cell_height : Q;
  cell_color : Z * Z * Z
}.

(** [cls_map = {c["id"]: c for c in classes}] followed by
    [cls_map.get(cid)]: of two entries with one id the later one stays. *)
Definition cls_map_get (classes : list terrain_class) (cid : Z)
  : option terrain_class :=
  find (fun c => id c =? cid) (rev classes).

(** [cls_map[3]], the fallback entry; the service registry has it. *)
Definition cls_map_3 : terrain_class :=
  match cls_map_get SEGMENTATION_TERRAIN_CLASSES 3 with
  | Some tc => tc
  | None => mk_class 3 "" (0, 0, 0) 0 false
  end.

(** The body of the inner loop: the record built for cell [(j, i)]. *)
Definition terrain_cell_at `{PyRound} (labels : ndarray Z)
    (heights : ndarray Q) (j i : nat) : result terrain_cell :=
  match nd_get labels j i with
  | None => Raise IndexError
  | Some cid =>
      let tc := match cls_map_get SEGMENTATION_TERRAIN_CLASSES cid with
                | Some tc => tc
                | None => cls_map_3
                end in
      match nd_get heights j i with
      | None => Raise IndexError
      | Some h =>
          Ok (mk_terrain_cell cid (name tc) (cost tc) (traversable tc)
                (py_round h 3) (rgb tc))
      end
  end.

(** [get_terrain(preset, grid, seed)]: the ["cells"] array, rows [j],
    columns [i]. *)
Definition get_terrain_cells `{Libm} `{Generator} `{PyRound}
    (preset : string) (grid seed : Z) : result (list (list terrain_cell)) :=
  maps <- get_terrain preset grid seed ;;
  let '(labels, heights) := maps in
  mapM (fun j => mapM (terrain_cell_at labels heights j)
                      (seq 0 (Z.to_nat grid)))
       (seq 0 (Z.to_nat grid)).

(** A cell record carries the name, cost, flag and colour of a class. *)
Definition served_class (cell : terrain_cell) (cls : terrain_class) : Prop :=
  id cls = cell_classId cell /\
  cell_className cell = name cls /\
  cell_cost cell = cost cls /\
  cell_traversable cell = traversable cls /\
  cell_color cell = rgb cls.

(* ================================================================== *)
(** * Properties *)

(* ------------------------------------------------------------------ *)
(** ** The reference rounding

    Rounding to nearest, ties to even, is monotone and exact on the
    integers of the format; it is the instance of [IEEE754] on which the
    model is run. *)

Lemma Qrne_bounds x : Qfloor x <= Qrne x <= Qfloor x + 1.
Proof.
  unfold Qrne. destruct (_ ?= _)%Q; [destruct (Z.even _)| |]; lia.
Qed.

Lemma Qrne_Z n : Qrne (inject_Z n) = n.
Proof.
  unfold Qrne. rewrite Qfloor_Z.
  assert (E : (inject_Z n - inject_Z n ?= 1 # 2)%Q = Lt).
  { apply -> Qlt_alt. lra. }
  now rewrite E.
Qed.

Lemma Qrne_monotone x y : (x <= y)%Q -> Qrne x <= Qrne y.
Proof.
  intros Hxy. pose proof (Qfloor_resp_le _ _ Hxy) as Hf.
  pose proof (Qrne_bounds x) as Hx. pose proof (Qrne_bounds y) as Hy.
  destruct (Z.eq_dec (Qfloor x) (Qfloor y)) as [E|Hne]; [|lia].
  unfold Qrne in *. rewrite <- E in *.
  destruct (Qcompare_spec (x - inject_Z (Qfloor x)) (1 # 2)) as [Ex|Ex|Ex];
  destruct (Qcompare_spec (y - inject_Z (Qfloor x)) (1 # 2)) as [Ey|Ey|Ey];
    try destruct (Z.even (Qfloor x)); try lia; lra.
Qed.

Lemma Qrne_comp x y : (x == y)%Q -> Qrne x = Qrne y.
Proof.
  intros E. apply Z.le_antisymm; apply Qrne_monotone; rewrite E; apply Qle_refl.
Qed.

Lemma pow2_pos k : (0 < 2 ^ k)%Q.
Proof. apply Qpower_0_lt. reflexivity. Qed.

Lemma pow2_Z k : 0 <= k -> (inject_Z (2 ^ k) == 2 ^ k)%Q.
Proof. intros Hk. now rewrite Zpower_Qpower. Qed.

Lemma pow2_succ k : (2 ^ (k + 1) == 2 * 2 ^ k)%Q.
Proof.
  rewrite Qpower_plus by discriminate. rewrite Qpower_1_r. ring.
Qed.

Lemma ilog2_spec x :
  (0 < x)%Q -> (2 ^ ilog2 x <= x)%Q /\ (x < 2 ^ (ilog2 x + 1))%Q.
Proof.
  intros Hx. destruct x as [a b].
  assert (Ha : 0 < a) by (unfold Qlt in Hx; simpl in Hx; lia).
  unfold ilog2. cbn [Qnum Qden].
  set (la := Z.log2 a). set (lb := Z.log2 (Zpos b)).
  destruct (Z.log2_spec a Ha) as [Ha1 Ha2]. fold la in Ha1, Ha2.
  destruct (Z.log2_spec (Zpos b) ltac:(lia)) as [Hb1 Hb2].
  fold lb in Hb1, Hb2.
  assert (Hla : 0 <= la) by apply Z.log2_nonneg.
  assert (Hlb : 0 <= lb) by apply Z.log2_nonneg.
  assert (Ea : (inject_Z (2 ^ la) == 2 ^ la)%Q) by now apply pow2_Z.
  assert (Eb : (inject_Z (2 ^ lb) == 2 ^ lb)%Q) by now apply pow2_Z.
  assert (Qa1 : (2 ^ la <= inject_Z a)%Q)
    by (rewrite <- Ea; now rewrite <- Zle_Qle).
  assert (Qa2 : (inject_Z a < 2 * 2 ^ la)%Q).
  { rewrite <- Ea. change 2%Q with (inject_Z 2).
    rewrite <- inject_Z_mult, <- Zlt_Qlt.
    replace (Z.succ la) with (la + 1) in Ha2 by lia.
    rewrite Z.pow_add_r in Ha2 by lia. lia. }
  assert (Qb1 : (2 ^ lb <= inject_Z (Zpos b))%Q)
    by (rewrite <- Eb; now rewrite <- Zle_Qle).
  assert (Qb2 : (inject_Z (Zpos b) < 2 * 2 ^ lb)%Q).
  { rewrite <- Eb. change 2%Q with (inject_Z 2).
    rewrite <- inject_Z_mult, <- Zlt_Qlt.
    replace (Z.succ lb) with (lb + 1) in Hb2 by lia.
    rewrite Z.pow_add_r in Hb2 by lia. lia. }
  assert (Ex : ((a # b) * inject_Z (Zpos b) == inject_Z a)%Q).
  { rewrite (Qmake_Qdiv a b). field. discriminate. }
  pose proof (pow2_pos la) as Pa. pose proof (pow2_pos lb) as Pb.
  assert (Ee : (2 ^ (la - lb) * 2 ^ lb == 2 ^ la)%Q).
  { rewrite <- Qpower_plus by discriminate.
    now replace (la - lb + lb) with la by lia. }
  pose proof (pow2_pos (la - lb)) as Pe.
  set (x := (a # b)%Q) in *.
  set (A := inject_Z a) in *. set (B := inject_Z (Zpos b)) in *.
  set (PA := (2 ^ la)%Q) in *. set (PB := (2 ^ lb)%Q) in *.
  set (PE := (2 ^ (la - lb))%Q) in *.
  assert (Hlo : (PE < 2 * x)%Q) by nra.
  assert (Hhi : (x < 2 * PE)%Q) by nra.
  destruct (Qle_bool PE x) eqn:Ecmp.
  - apply Qle_bool_iff in Ecmp. split; [exact Ecmp|].
    rewrite pow2_succ. exact Hhi.
  - assert (Hlt : (x < PE)%Q).
    { apply Qnot_le_lt. intros Hle. apply Qle_bool_iff in Hle. congruence. }
    replace (la - lb - 1 + 1) with (la - lb) by lia.
    split; [|exact Hlt].
    assert (E2 : (2 * 2 ^ (la - lb - 1) == PE)%Q).
    { rewrite <- pow2_succ.
      now replace (la - lb - 1 + 1) with (la - lb) by lia. }
    pose proof (pow2_pos (la - lb - 1)).
    set (PE' := (2 ^ (la - lb - 1))%Q) in *. nra.
Qed.

Lemma ilog2_monotone x y : (0 < x)%Q -> (x <= y)%Q -> ilog2 x <= ilog2 y.
Proof.
  intros Hx Hxy.
  destruct (ilog2_spec x Hx) as [Hx1 _].
  destruct (ilog2_spec y ltac:(lra)) as [_ Hy2].
  assert (Hlt : (2 ^ ilog2 x < 2 ^ (ilog2 y + 1))%Q) by lra.
  apply Qpower_lt_compat_l_inv in Hlt; [lia|reflexivity].
Qed.

Lemma pow2_split j i : i <= j -> (inject_Z (2 ^ (j - i)) * 2 ^ i == 2 ^ j)%Q.
Proof.
  intros Hij. rewrite pow2_Z by lia.
  rewrite <- Qpower_plus by discriminate.
  now replace (j - i + i) with j by lia.
Qed.

Section RoundBinary.
Variables prec emin : Z.
Hypothesis Hprec : 1 <= prec.
Hypothesis Hemin : emin - prec + 1 <= 0.

Let k := scale_exp prec emin.
Let R := round_mag prec emin.

Lemma round_mag_upper x j :
  k x <= j -> (x <= 2 ^ j)%Q -> (R x <= 2 ^ j)%Q.
Proof.
  intros Hk Hx. unfold R, round_mag. fold (k x).
  pose proof (pow2_pos (k x)) as Hp.
  pose proof (pow2_split j (k x) Hk) as Es.
  assert (Hq : (x / 2 ^ k x <= inject_Z (2 ^ (j - k x)))%Q).
  { apply Qle_shift_div_r; [exact Hp|]. now rewrite Es. }
  apply Qrne_monotone in Hq. rewrite Qrne_Z in Hq.
  rewrite <- Es. apply Qmult_le_compat_r; [|lra].
  now rewrite <- Zle_Qle.
Qed.

Lemma round_mag_lower x j :
  k x <= j -> (2 ^ j <= x)%Q -> (2 ^ j <= R x)%Q.
Proof.
  intros Hk Hx. unfold R, round_mag. fold (k x).
  pose proof (pow2_pos (k x)) as Hp.
  pose proof (pow2_split j (k x) Hk) as Es.
  assert (Hq : (inject_Z (2 ^ (j - k x)) <= x / 2 ^ k x)%Q).
  { apply Qle_shift_div_l; [exact Hp|]. now rewrite Es. }
  apply Qrne_monotone in Hq. rewrite Qrne_Z in Hq.
  rewrite <- Es. apply Qmult_le_compat_r; [|lra].
  now rewrite <- Zle_Qle.
Qed.

Lemma round_mag_nonneg x : (0 <= x)%Q -> (0 <= R x)%Q.
Proof.
  intros Hx. unfold R, round_mag. fold (k x).
  pose proof (pow2_pos (k x)) as Hp.
  apply Qmult_le_0_compat; [|lra].
  change 0%Q with (inject_Z 0). rewrite <- Zle_Qle.
  rewrite <- (Qrne_Z 0). apply Qrne_monotone.
  apply Qle_shift_div_l; [exact Hp|].
  change (inject_Z 0) with 0%Q. rewrite Qmult_0_l. exact Hx.
Qed.

Lemma scale_exp_monotone x y : (0 < x)%Q -> (x <= y)%Q -> k x <= k y.
Proof.
  intros Hx Hxy. unfold k, scale_exp.
  pose proof (ilog2_monotone x y Hx Hxy). lia.
Qed.

Lemma round_mag_monotone x y : (0 < x)%Q -> (x <= y)%Q -> (R x <= R y)%Q.
Proof.
  intros Hx Hxy.
  pose proof (scale_exp_monotone x y Hx Hxy) as Hk.
  destruct (Z.eq_dec (k x) (k y)) as [E|Hne].
  - unfold R, round_mag. fold (k x) (k y). rewrite <- E.
    pose proof (pow2_pos (k x)) as Hp.
    apply Qmult_le_compat_r; [|lra].
    rewrite <- Zle_Qle. apply Qrne_monotone.
    apply Qle_shift_div_l; [exact Hp|].
    unfold Qdiv. rewrite <- Qmult_assoc, (Qmult_comm (/ _)), Qmult_inv_r; lra.
  - assert (Hy : (0 < y)%Q) by lra.
    destruct (ilog2_spec x Hx) as [_ Hx2].
    destruct (ilog2_spec y Hy) as [Hy1 _].
    assert (Hky : k y = ilog2 y - prec + 1)
      by (unfold k, scale_exp in *; lia).
    assert (Hex : ilog2 x + 1 <= ilog2 y)
      by (unfold k, scale_exp in *; lia).
    apply Qle_trans with (2 ^ ilog2 y)%Q.
    + apply round_mag_upper; [lia|].
      apply Qle_trans with (2 ^ (ilog2 x + 1))%Q; [lra|].
      apply Qpower_le_compat_l; [exact Hex|discriminate].
    + apply round_mag_lower; [lia|exact Hy1].
Qed.

Lemma round_binary_monotone x y :
  (x <= y)%Q -> (round_binary prec emin x <= round_binary prec emin y)%Q.
Proof.
  intros Hxy. unfold round_binary. fold R.
  destruct (Qeq_bool x 0) eqn:Ex0;
    [apply Qeq_bool_iff in Ex0|apply Qeq_bool_neq in Ex0];
    (destruct (Qeq_bool y 0) eqn:Ey0;
     [apply Qeq_bool_iff in Ey0|apply Qeq_bool_neq in Ey0]).
  - apply Qle_refl.
  - destruct (Qle_bool 0 y) eqn:Ey; [apply round_mag_nonneg, Qabs_nonneg|].
    exfalso. assert (Hy : (0 <= y)%Q) by lra.
    apply Qle_bool_iff in Hy. congruence.
  - destruct (Qle_bool 0 x) eqn:Ex.
    + apply Qle_bool_iff in Ex. exfalso. apply Ex0. lra.
    + pose proof (round_mag_nonneg (Qabs x) (Qabs_nonneg x)). lra.
  - destruct (Qle_bool 0 x) eqn:Ex; destruct (Qle_bool 0 y) eqn:Ey.
    + apply Qle_bool_iff in Ex. apply Qle_bool_iff in Ey.
      apply round_mag_monotone; rewrite !Qabs_pos by assumption;
        [|exact Hxy].
      apply Qle_lteq in Ex as [Ex|Ex]; [exact Ex|]. exfalso. apply Ex0.
      now symmetry.
    + apply Qle_bool_iff in Ex.
      exfalso. assert (Hy : (0 <= y)%Q) by lra.
      apply Qle_bool_iff in Hy. congruence.
    + pose proof (round_mag_nonneg (Qabs x) (Qabs_nonneg x)).
      pose proof (round_mag_nonneg (Qabs y) (Qabs_nonneg y)). lra.
    + assert (Hx : (x < 0)%Q).
      { apply Qnot_le_lt. intros H0. apply Qle_bool_iff in H0. congruence. }
      assert (Hy : (y < 0)%Q).
      { apply Qnot_le_lt. intros H0. apply Qle_bool_iff in H0. congruence. }
      assert (Hm : (R (Qabs y) <= R (Qabs x))%Q)
        by (apply round_mag_monotone; rewrite !Qabs_neg by lra; lra).
      lra.
Qed.

Lemma round_mag_dyadic n j :
  0 < n <= 2 ^ prec -> 0 <= j <= prec - 1 - emin ->
  (R (inject_Z n / inject_Z (2 ^ j)) == inject_Z n / inject_Z (2 ^ j))%Q.
Proof.
  intros [Hn0 Hn1] Hj.
  pose proof (pow2_pos j) as Hpj.
  assert (Ej : (inject_Z (2 ^ j) == 2 ^ j)%Q) by (apply pow2_Z; lia).
  set (x := (inject_Z n / inject_Z (2 ^ j))%Q).
  assert (Ex : (x * 2 ^ j == inject_Z n)%Q).
  { unfold x. rewrite Ej. field. lra. }
  assert (Hn : (0 < inject_Z n)%Q)
    by (change 0%Q with (inject_Z 0); now rewrite <- Zlt_Qlt).
  assert (Hx : (0 < x)%Q) by nra.
  destruct (ilog2_spec _ Hx) as [He1 He2].
  set (e := ilog2 x) in *.
  assert (Hn1' : (inject_Z n <= 2 ^ prec)%Q).
  { rewrite <- pow2_Z by lia. now rewrite <- Zle_Qle. }
  assert (Esplit : (2 ^ (prec - j) * 2 ^ j == 2 ^ prec)%Q).
  { rewrite <- Qpower_plus by discriminate.
    now replace (prec - j + j) with prec by lia. }
  pose proof (pow2_pos (prec - j)) as Hppj.
  assert (Hxp : (x <= 2 ^ (prec - j))%Q) by nra.
  assert (Hep : e <= prec - j).
  { apply (Qpower_le_compat_l_inv 2); [lra|reflexivity]. }
  unfold R, round_mag. fold (k x).
  assert (Hk : k x = Z.max (e - prec + 1) (emin - prec + 1))
    by reflexivity.
  set (kk := k x) in *.
  pose proof (pow2_pos kk) as Hp.
  assert (Hint : exists m, (x == inject_Z m * 2 ^ kk)%Q).
  { destruct (Z_le_gt_dec kk (- j)) as [Hle|Hgt].
    - exists (n * 2 ^ (- j - kk)).
      rewrite inject_Z_mult, pow2_Z by lia.
      rewrite <- Qmult_assoc, <- Qpower_plus by discriminate.
      replace (- j - kk + kk) with (- j) by lia.
      rewrite Qpower_opp. unfold x. rewrite Ej. field. lra.
    - assert (Ee : e = prec - j) by lia.
      assert (Ekk : kk = 1 - j) by lia.
      exists (2 ^ (prec - 1)).
      rewrite Ekk, pow2_Z by lia.
      rewrite <- Qpower_plus by discriminate.
      replace (prec - 1 + (1 - j)) with (prec - j) by lia.
      rewrite Ee in He1. lra. }
  destruct Hint as [m Em].
  assert (Eq : (x / 2 ^ kk == inject_Z m)%Q).
  { rewrite Em. field. lra. }
  rewrite (Qrne_comp _ _ Eq), Qrne_Z. now symmetry.
Qed.

Lemma round_mag_comp x y : (0 < x)%Q -> (x == y)%Q -> (R x == R y)%Q.
Proof.
  intros Hx E.
  assert (Hy : (0 < y)%Q) by now rewrite <- E.
  apply Qle_antisym; apply round_mag_monotone; try assumption;
    rewrite E; apply Qle_refl.
Qed.

Lemma round_binary_dyadic n j :
  Z.abs n <= 2 ^ prec -> 0 <= j <= prec - 1 - emin ->
  (round_binary prec emin (inject_Z n / inject_Z (2 ^ j))
   == inject_Z n / inject_Z (2 ^ j))%Q.
Proof.
  intros Hn Hj.
  assert (Hpj : (0 < inject_Z (2 ^ j))%Q).
  { rewrite pow2_Z by lia. apply pow2_pos. }
  set (d := inject_Z (2 ^ j)) in *.
  unfold round_binary. fold R.
  destruct (Qeq_bool (inject_Z n / d) 0) eqn:E0.
  - apply Qeq_bool_iff in E0. now symmetry.
  - apply Qeq_bool_neq in E0.
    assert (Hn0 : n <> 0).
    { intros ->. apply E0. unfold Qdiv. apply Qmult_0_l. }
    assert (Habs : (Qabs (inject_Z n / d) == inject_Z (Z.abs n) / d)%Q).
    { unfold Qdiv. rewrite Qabs_Qmult.
      rewrite (Qabs_pos (/ d)) by (apply Qinv_le_0_compat; lra).
      apply Qmult_comp; [|reflexivity].
      destruct (Z_lt_ge_dec n 0) as [Hlt|Hge].
      - rewrite Qabs_neg
          by (change 0%Q with (inject_Z 0); rewrite <- Zle_Qle; lia).
        rewrite <- inject_Z_opp. now rewrite Z.abs_neq by lia.
      - rewrite Qabs_pos
          by (change 0%Q with (inject_Z 0); rewrite <- Zle_Qle; lia).
        now rewrite Z.abs_eq by lia. }
    assert (Hna : (0 < inject_Z (Z.abs n))%Q)
      by (change 0%Q with (inject_Z 0); rewrite <- Zlt_Qlt; lia).
    assert (Hpos : (0 < Qabs (inject_Z n / d))%Q).
    { rewrite Habs. apply Qlt_shift_div_l; [exact Hpj|]. lra. }
    assert (Er : (R (Qabs (inject_Z n / d)) == inject_Z (Z.abs n) / d)%Q).
    { rewrite (round_mag_comp _ _ Hpos Habs).
      apply round_mag_dyadic; lia. }
    destruct (Qle_bool 0 (inject_Z n / d)) eqn:E; rewrite Er.
    + apply Qle_bool_iff in E.
      assert (Hnn : 0 <= n).
      { destruct (Z_lt_ge_dec n 0) as [Hlt|Hge]; [|lia]. exfalso.
        assert (Hq : (inject_Z n < 0)%Q)
          by (change 0%Q with (inject_Z 0); now rewrite <- Zlt_Qlt).
        assert (Hd : (inject_Z n / d < 0)%Q).
        { apply Qlt_shift_div_r; [exact Hpj|]. lra. }
        lra. }
      now rewrite Z.abs_eq by lia.
    + assert (Hneg : n < 0).
      { destruct (Z_lt_ge_dec n 0) as [Hlt|Hge]; [exact Hlt|].
        assert (H0 : (0 <= inject_Z n / d)%Q).
        { apply Qle_shift_div_l; [exact Hpj|].
          rewrite Qmult_0_l. change 0%Q with (inject_Z 0).
          rewrite <- Zle_Qle. lia. }
        apply Qle_bool_iff in H0. congruence. }
      rewrite Z.abs_neq by lia. rewrite inject_Z_opp.
      unfold Qdiv. ring.
Qed.

End RoundBinary.

Lemma binary32_monotone (x y : Q) :
  (x <= y)%Q -> (round_binary 24 (-126) x <= round_binary 24 (-126) y)%Q.
Proof. apply round_binary_monotone; lia. Qed.

Lemma binary64_monotone (x y : Q) :
  (x <= y)%Q -> (round_binary 53 (-1022) x <= round_binary 53 (-1022) y)%Q.
Proof. apply round_binary_monotone; lia. Qed.

Lemma binary32_dyadic (n k : Z) :
  Z.abs n <= 2 ^ 24 -> 0 <= k <= 149 ->
  (round_binary 24 (-126) (inject_Z n / inject_Z (2 ^ k))
   == inject_Z n / inject_Z (2 ^ k))%Q.
Proof. intros Hn Hk. apply round_binary_dyadic; lia. Qed.

Lemma binary64_dyadic (n k : Z) :
  Z.abs n <= 2 ^ 53 -> 0 <= k <= 1074 ->
  (round_binary 53 (-1022) (inject_Z n / inject_Z (2 ^ k))
   == inject_Z n / inject_Z (2 ^ k))%Q.
Proof. intros Hn Hk. apply round_binary_dyadic; lia. Qed.

Definition ref_ieee754 : IEEE754 := {|
  f32 := round_binary 24 (-126);
  f64 := round_binary 53 (-1022);
  f32_monotone := binary32_monotone;
  f64_monotone := binary64_monotone;
  f32_dyadic := binary32_dyadic;
  f64_dyadic := binary64_dyadic
|}.

(** Consequences of the laws of [IEEE754]. *)
Lemma f32_comp `{IEEE754} (x y : Q) : (x == y)%Q -> (f32 x == f32 y)%Q.
Proof.
  intros E. apply Qle_antisym; apply f32_monotone; rewrite E; apply Qle_refl.
Qed.

Lemma f64_comp `{IEEE754} (x y : Q) : (x == y)%Q -> (f64 x == f64 y)%Q.
Proof.
  intros E. apply Qle_antisym; apply f64_monotone; rewrite E; apply Qle_refl.
Qed.

Lemma dyadic_integer (n : Z) :
  (inject_Z n / inject_Z (2 ^ 0) == inject_Z n)%Q.
Proof. change (inject_Z (2 ^ 0)) with 1%Q. field. Qed.

Lemma f32_integer `{IEEE754} (n : Z) :
  Z.abs n <= 2 ^ 24 -> (f32 (inject_Z n) == inject_Z n)%Q.
Proof.
  intros Hn. rewrite <- (dyadic_integer n) at 2.
  rewrite <- (f32_dyadic n 0 Hn) by lia.
  apply f32_comp. symmetry. apply dyadic_integer.
Qed.

Lemma f64_integer `{IEEE754} (n : Z) :
  Z.abs n <= 2 ^ 53 -> (f64 (inject_Z n) == inject_Z n)%Q.
Proof.
  intros Hn. rewrite <- (dyadic_integer n) at 2.
  rewrite <- (f64_dyadic n 0 Hn) by lia.
  apply f64_comp. symmetry. apply dyadic_integer.
Qed.

(** Rounding keeps a number between two representable bounds. *)
Lemma f64_unit_interval `{IEEE754} (x : Q) :
  (0 <= x)%Q -> (x <= 1)%Q -> (0 <= f64 x)%Q /\ (f64 x <= 1)%Q.
Proof.
  intros H0 H1. split.
  - apply Qle_trans with (f64 (inject_Z 0));
      [apply Qle_lteq; right; symmetry; apply f64_integer; simpl; lia|].
    now apply f64_monotone.
  - apply Qle_trans with (f64 (inject_Z 1));
      [now apply f64_monotone|].
    apply Qle_lteq; right. apply f64_integer. simpl. lia.
Qed.

(* ------------------------------------------------------------------ *)
(** ** Lists and arrays *)

Lemma nth_error_zip_with {A B C} (f : A -> B -> C) xs ys n :
  nth_error (zip_with f xs ys) n =
  match nth_error xs n, nth_error ys n with
  | Some x, Some y => Some (f x y)
  | _, _ => None
  end.
Proof.
  revert ys n.
  induction xs as [|x xs IH]; intros [|y ys] [|n]; simpl; auto.
  - destruct (nth_error xs n); reflexivity.
Qed.

Lemma length_zip_with {A B C} (f : A -> B -> C) xs ys :
  length xs = length ys -> length (zip_with f xs ys) = length xs.
Proof.
  revert ys.
  induction xs as [|x xs IH]; intros [|y ys] E; simpl in *;
    try discriminate; auto.
Qed.

Lemma nd_get_map {A B} (f : A -> B) (a : ndarray A) r c :
  nd_get (nd_map f a) r c = option_map f (nd_get a r c).
Proof.
  unfold nd_get, nd_map; simpl.
  rewrite nth_error_map.
  destruct (nth_error (rows a) r) as [row|]; simpl; auto.
  apply nth_error_map.
Qed.

Lemma nd_get_map2 {A B C} (f : A -> B -> C) a b r c :
  nd_get (nd_map2 f a b) r c =
  match nd_get a r c, nd_get b r c with
  | Some x, Some y => Some (f x y)
  | _, _ => None
  end.
Proof.
  unfold nd_get, nd_map2; simpl.
  rewrite nth_error_zip_with.
  destruct (nth_error (rows a) r) as [ra|], (nth_error (rows b) r) as [rb|];
    auto.
  - apply nth_error_zip_with.
  - destruct (nth_error ra c); reflexivity.
Qed.

Lemma nd_get_bounds {A} h w (a : ndarray A) r c x :
  has_shape h w a -> nd_get a r c = Some x -> (r < h)%nat /\ (c < w)%nat.
Proof.
  intros (Hh & Hw & Hlen & Hrows). unfold nd_get.
  destruct (nth_error (rows a) r) as [row|] eqn:E; [|discriminate].
  intros Hc. split.
  - rewrite <- Hh, <- Hlen. apply nth_error_Some. congruence.
  - apply nth_error_In in E.
    rewrite Forall_forall in Hrows. rewrite <- Hw, <- (Hrows _ E).
    apply nth_error_Some. congruence.
Qed.

Lemma nd_get_defined {A} h w (a : ndarray A) r c :
  has_shape h w a -> (r < h)%nat -> (c < w)%nat ->
  exists x, nd_get a r c = Some x.
Proof.
  intros (Hh & Hw & Hlen & Hrows) Hr Hc. unfold nd_get.
  destruct (nth_error (rows a) r) as [row|] eqn:E.
  - assert (Hl : length row = ncols a).
    { rewrite Forall_forall in Hrows. apply Hrows.
      eapply nth_error_In; eauto. }
    destruct (nth_error row c) as [x|] eqn:E2; eauto.
    apply nth_error_None in E2. lia.
  - apply nth_error_None in E. lia.
Qed.

Lemma has_shape_map {A B} (f : A -> B) h w (a : ndarray A) :
  has_shape h w a -> has_shape h w (nd_map f a).
Proof.
  intros (Hh & Hw & Hlen & Hrows).
  repeat split; simpl; auto.
  - now rewrite length_map.
  - rewrite Forall_map. eapply Forall_impl; [|exact Hrows].
    intros row E. now rewrite length_map.
Qed.

Lemma Forall_length_zip_with {A B C} (f : A -> B -> C) w xs ys :
  length xs = length ys ->
  Forall (fun row => length row = w) xs ->
  Forall (fun row => length row = w) ys ->
  Forall (fun row => length row = w) (zip_with (zip_with f) xs ys).
Proof.
  revert ys.
  induction xs as [|x xs IH]; intros [|y ys] E Hx Hy; simpl in *;
    try discriminate; auto.
  inversion Hx; inversion Hy; subst.
  constructor.
  - rewrite length_zip_with; congruence.
  - apply IH; auto.
Qed.

Lemma has_shape_map2 {A B C} (f : A -> B -> C) h w a b :
  has_shape h w a -> has_shape h w b -> has_shape h w (nd_map2 f a b).
Proof.
  intros (Hh & Hw & Hlen & Hrows) (Hh' & Hw' & Hlen' & Hrows').
  subst h w. rewrite Hw' in Hrows'.
  repeat split; simpl; auto.
  - rewrite length_zip_with; congruence.
  - apply Forall_length_zip_with; auto; congruence.
Qed.

Lemma has_shape_full {A} (h w : Z) (v : A) a :
  np_full h w v = Ok a -> has_shape (Z.to_nat h) (Z.to_nat w) a.
Proof.
  unfold np_full. destruct ((h <? 0) || (w <? 0)); [discriminate|].
  intros E; inversion E; subst; clear E.
  repeat split; simpl; auto.
  - apply repeat_length.
  - apply Forall_forall. intros row Hin.
    apply repeat_spec in Hin. subst. apply repeat_length.
Qed.

Lemma has_shape_zeros {A} h w (z : A) : has_shape h w (np_zeros h w z).
Proof.
  repeat split; simpl; auto.
  - apply repeat_length.
  - apply Forall_forall. intros row Hin.
    apply repeat_spec in Hin. subst. apply repeat_length.
Qed.

Lemma has_shape_meshgrid {A} (xs ys : list A) :
  has_shape (length ys) (length xs) (fst (np_meshgrid xs ys)) /\
  has_shape (length ys) (length xs) (snd (np_meshgrid xs ys)).
Proof.
  unfold np_meshgrid; simpl.
  split; repeat split; simpl; auto; try apply length_map;
    rewrite Forall_map; apply Forall_forall; intros; auto.
  apply length_map.
Qed.

Lemma all_cells_full {A} (P : A -> Prop) h w v a :
  P v -> np_full h w v = Ok a -> all_cells P a.
Proof.
  unfold np_full. destruct ((h <? 0) || (w <? 0)); [discriminate|].
  intros Hv E; inversion E; subst; clear E.
  unfold all_cells; simpl.
  apply Forall_forall. intros row Hin. apply repeat_spec in Hin. subst.
  apply Forall_forall. intros x Hin. apply repeat_spec in Hin. now subst.
Qed.

Lemma all_cells_set_where {A} (P : A -> Prop) mask v (a : ndarray A) :
  P v -> all_cells P a -> all_cells P (set_where mask v a).
Proof.
  unfold all_cells, set_where, nd_map2; simpl.
  intros Hv. generalize (rows mask) as ms.
  induction (rows a) as [|row rs IH]; intros [|m ms] Ha; simpl; auto.
  inversion Ha as [|? ? Hrow Hrs]; subst.
  constructor; [|now apply IH].
  clear - Hv Hrow. revert m.
  induction row as [|x xs IHx]; intros [|b bs]; simpl; auto.
  inversion Hrow; subst.
  constructor; [destruct b; auto|now apply IHx].
Qed.

Lemma all_cells_get {A} (P : A -> Prop) (a : ndarray A) r c x :
  all_cells P a -> nd_get a r c = Some x -> P x.
Proof.
  unfold all_cells, nd_get. intros Ha.
  destruct (nth_error (rows a) r) as [row|] eqn:E; [|discriminate].
  intros Hc. apply nth_error_In in E, Hc.
  rewrite Forall_forall in Ha. specialize (Ha _ E).
  rewrite Forall_forall in Ha. auto.
Qed.

(* ------------------------------------------------------------------ *)
(** ** Shapes of the noise fields *)

Lemma length_np_arange n : length (np_arange n) = Z.to_nat n.
Proof. unfold np_arange. now rewrite length_map, length_seq. Qed.

Lemma length_unit_coords size : length (unit_coords size) = Z.to_nat size.
Proof. unfold unit_coords. rewrite length_map. apply length_np_arange. Qed.

Lemma has_shape_pseudo_rand `{Libm} h w gx gy seed :
  has_shape h w gx -> has_shape h w gy ->
  has_shape h w (_pseudo_rand gx gy seed).
Proof.
  intros Hx Hy. unfold _pseudo_rand.
  apply has_shape_map. now apply has_shape_map2.
Qed.

Lemma has_shape_sine_bands `{Libm} `{Generator} h w nx nz freqs acc rng :
  has_shape h w nx -> has_shape h w nz -> has_shape h w acc ->
  has_shape h w (fst (fold_left (sine_band nx nz) freqs (acc, rng))).
Proof.
  intros Hx Hz. revert acc rng.
  induction freqs as [|[[fx fz] amp] freqs IH]; intros acc rng Hacc;
    simpl; auto.
  destruct (rng_uniform 0%Q (2 * np_pi)%Q rng) as [px rng1].
  destruct (rng_uniform 0%Q (2 * np_pi)%Q rng1) as [pz rng2].
  apply IH. apply has_shape_map2; auto. now apply has_shape_map2.
Qed.

Lemma sine_noise_inv `{Libm} `{Generator} h w nx nz freqs seed wave :
  has_shape h w nx -> has_shape h w nz ->
  _sine_noise nx nz freqs seed = Ok wave ->
  0 <= seed /\ has_shape h w wave.
Proof.
  intros Hx Hz. unfold _sine_noise, default_rng.
  destruct (seed <? 0) eqn:E; simpl; [discriminate|].
  intros Hw; inversion Hw; subst; clear Hw.
  split; [apply Z.ltb_ge in E; lia|].
  apply has_shape_sine_bands; auto. now apply has_shape_map.
Qed.

Lemma sine_noise_defined `{Libm} `{Generator} nx nz freqs seed :
  0 <= seed -> exists wave, _sine_noise nx nz freqs seed = Ok wave.
Proof.
  intros Hs. unfold _sine_noise, default_rng.
  destruct (seed <? 0) eqn:E; [apply Z.ltb_lt in E; lia|].
  simpl. eauto.
Qed.

Lemma np_full_defined {A} (h w : Z) (v : A) :
  0 <= h -> 0 <= w -> exists a, np_full h w v = Ok a.
Proof.
  intros Hh Hw. unfold np_full.
  destruct (h <? 0) eqn:E1; [apply Z.ltb_lt in E1; lia|].
  destruct (w <? 0) eqn:E2; [apply Z.ltb_lt in E2; lia|].
  simpl. eauto.
Qed.

Lemma nd_addZ_inv h w a k b :
  has_shape h w a -> nd_addZ a k = Ok b -> has_shape h w b.
Proof.
  unfold nd_addZ. intros Hs.
  destruct (fits_int64 k); [|discriminate].
  intros E; inversion E; subst. now apply has_shape_map.
Qed.

Lemma nd_addZ_defined a k :
  - 2 ^ 63 <= k < 2 ^ 63 -> exists b, nd_addZ a k = Ok b.
Proof.
  intros [Hlo Hhi]. unfold nd_addZ, fits_int64.
  apply Z.leb_le in Hlo. apply Z.ltb_lt in Hhi.
  rewrite Hlo, Hhi. simpl. eauto.
Qed.

(** Shapes propagate through every elementwise operator. *)
Ltac shape :=
  repeat first
    [ assumption
    | apply has_shape_pseudo_rand
    | apply has_shape_map2
    | apply has_shape_map ].

(** A byte constant of the cascades is a registry id. *)
Ltac registry_id := unfold valid_id; vm_compute; split; discriminate.

(** Class ids propagate through every masked assignment. *)
Ltac cells :=
  repeat first
    [ assumption
    | apply all_cells_set_where; [registry_id|] ].

(** The coordinate grids of a generator, with their shapes. *)
Ltac coordinate_grids size X Zc I_ J_ HX HZ HI HJ :=
  pose proof (has_shape_meshgrid (unit_coords size) (unit_coords size))
    as [HX HZ];
  pose proof (has_shape_meshgrid (np_arange size) (np_arange size))
    as [HI HJ];
  rewrite length_unit_coords in HX, HZ;
  rewrite length_np_arange in HI, HJ;
  destruct (np_meshgrid (unit_coords size) (unit_coords size)) as [X Zc];
  destruct (np_meshgrid (np_arange size) (np_arange size)) as [I_ J_];
  simpl in HX, HZ, HI, HJ.

Lemma gen_desert_inv `{Libm} `{Generator} size seed g :
  gen_desert size seed = Ok g ->
  has_shape (Z.to_nat size) (Z.to_nat size) g /\ all_cells valid_id g.
Proof.
  unfold gen_desert.
  coordinate_grids size X Zc I_ J_ HX HZ HI HJ.
  destruct (_sine_noise X Zc _ seed) as [wave|e] eqn:Ew; [|discriminate].
  apply (sine_noise_inv _ _ _ _ _ _ _ HX HZ) in Ew as [_ Hwave].
  simpl.
  destruct (nd_addZ I_ seed) as [gx|e] eqn:Egx; [|discriminate].
  apply (nd_addZ_inv _ _ _ _ _ HI) in Egx. simpl.
  destruct (nd_addZ J_ (seed * 2)) as [gy|e] eqn:Egy; [|discriminate].
  apply (nd_addZ_inv _ _ _ _ _ HJ) in Egy. simpl.
  destruct (np_full size size (uint8 3)) as [l0|e] eqn:Ef; [|discriminate].
  pose proof (has_shape_full _ _ _ _ Ef) as Hl0.
  apply all_cells_full with (P := valid_id) in Ef;
    [|registry_id].
  simpl. intros E; inversion E; subst; clear E.
  split; [unfold set_where, nd_and, nd_gt, nd_lt; shape|cells].
Qed.

Lemma gen_rocky_inv `{Libm} `{Generator} size seed g :
  gen_rocky size seed = Ok g ->
  has_shape (Z.to_nat size) (Z.to_nat size) g /\ all_cells valid_id g.
Proof.
  unfold gen_rocky.
  coordinate_grids size X Zc I_ J_ HX HZ HI HJ.
  destruct (_sine_noise X Zc _ seed) as [wave|e] eqn:Ew; [|discriminate].
  apply (sine_noise_inv _ _ _ _ _ _ _ HX HZ) in Ew as [_ Hwave].
  simpl.
  destruct (nd_addZ (nd_mulZ I_ 2) seed) as [gx|e] eqn:Egx; [|discriminate].
  apply (nd_addZ_inv (Z.to_nat size) (Z.to_nat size)) in Egx;
    [|unfold nd_mulZ; now apply has_shape_map].
  simpl.
  destruct (nd_addZ (nd_mulZ J_ 3) seed) as [gy|e] eqn:Egy; [|discriminate].
  apply (nd_addZ_inv (Z.to_nat size) (Z.to_nat size)) in Egy;
    [|unfold nd_mulZ; now apply has_shape_map].
  simpl.
  destruct (np_full size size (uint8 0)) as [l0|e] eqn:Ef; [|discriminate].
  pose proof (has_shape_full _ _ _ _ Ef) as Hl0.
  apply all_cells_full with (P := valid_id) in Ef;
    [|registry_id].
  simpl. intros E; inversion E; subst; clear E.
  split; [|cells].
  unfold set_where, nd_and, nd_gt, nd_lt, nd_abs, nd_sub_scalar; shape.
Qed.

Lemma gen_mixed_fields_inv `{Libm} `{Generator} size seed f :
  gen_mixed_fields size seed = Ok f ->
  let n := Z.to_nat size in
  has_shape n n (mX f) /\ has_shape n n (mZ f) /\
  has_shape n n (mwave f) /\ has_shape n n (mr f).
Proof.
  unfold gen_mixed_fields.
  coordinate_grids size X Zc I_ J_ HX HZ HI HJ.
  destruct (_sine_noise X Zc _ seed) as [wave|e] eqn:Ew; [|discriminate].
  apply (sine_noise_inv _ _ _ _ _ _ _ HX HZ) in Ew as [_ Hwave].
  simpl.
  destruct (nd_addZ I_ (seed * 3)) as [gx|e] eqn:Egx; [|discriminate].
  apply (nd_addZ_inv _ _ _ _ _ HI) in Egx. simpl.
  destruct (nd_addZ J_ seed) as [gy|e] eqn:Egy; [|discriminate].
  apply (nd_addZ_inv _ _ _ _ _ HJ) in Egy. simpl.
  intros E; inversion E; subst; clear E. simpl.
  split; [|split; [|split]]; try assumption. shape.
Qed.

Lemma gen_mixed_zones_inv `{Libm} size f l0 :
  let n := Z.to_nat size in
  has_shape n n (mX f) -> has_shape n n (mZ f) ->
  has_shape n n (mwave f) -> has_shape n n (mr f) ->
  gen_mixed_zones f size = Ok l0 ->
  has_shape n n l0 /\ all_cells valid_id l0.
Proof.
  intros n HX HZ Hwave Hr. unfold gen_mixed_zones.
  destruct (np_full size size (uint8 4)) as [l|e] eqn:Ef; [|discriminate].
  pose proof (has_shape_full _ _ _ _ Ef) as Hl.
  apply all_cells_full with (P := valid_id) in Ef; [|registry_id].
  simpl. intros E; inversion E; subst; clear E.
  split; [|cells].
  unfold set_where, nd_and, nd_gt, nd_lt, nd_ge, nd_abs, nd_sub_scalar;
    shape.
Qed.

Lemma gravel_path_rule_inv h w f labels :
  has_shape h w (mX f) -> has_shape h w (mZ f) ->
  has_shape h w labels -> all_cells valid_id labels ->
  has_shape h w (gravel_path_rule f labels) /\
  all_cells valid_id (gravel_path_rule f labels).
Proof.
  intros HX HZ Hl Hc. unfold gravel_path_rule. split; [|cells].
  unfold set_where, nd_and, nd_or, nd_lt, nd_abs, nd_sub_scalar, nd_eqZ;
    shape.
Qed.

Lemma sand_strip_rule_inv h w f labels :
  has_shape h w (mwave f) -> has_shape h w (mr f) ->
  has_shape h w labels -> all_cells valid_id labels ->
  has_shape h w (sand_strip_rule f labels) /\
  all_cells valid_id (sand_strip_rule f labels).
Proof.
  intros HX HZ Hl Hc. unfold sand_strip_rule. split; [|cells].
  unfold set_where, nd_and, nd_gt, nd_eqZ; shape.
Qed.

Lemma gen_mixed_inv `{Libm} `{Generator} size seed g :
  gen_mixed size seed = Ok g ->
  has_shape (Z.to_nat size) (Z.to_nat size) g /\ all_cells valid_id g.
Proof.
  unfold gen_mixed.
  destruct (gen_mixed_fields size seed) as [f|e] eqn:Ef; [|discriminate].
  apply gen_mixed_fields_inv in Ef as (HX & HZ & Hwave & Hr).
  simpl.
  destruct (gen_mixed_zones f size) as [l0|e] eqn:Ez; [|discriminate].
  apply gen_mixed_zones_inv in Ez as [Hs Hc]; auto.
  simpl. intros E; inversion E; subst; clear E.
  destruct (gravel_path_rule_inv _ _ f l0 HX HZ Hs Hc) as [Hs1 Hc1].
  now apply sand_strip_rule_inv.
Qed.

Lemma gen_desert_defined `{Libm} `{Generator} size seed :
  0 <= size -> 0 <= seed -> seed * 2 < 2 ^ 63 ->
  exists g, gen_desert size seed = Ok g.
Proof.
  intros Hn Hs Hfit. unfold gen_desert.
  destruct (np_meshgrid (unit_coords size) (unit_coords size)) as [X Zc].
  destruct (np_meshgrid (np_arange size) (np_arange size)) as [I_ J_].
  destruct (sine_noise_defined X Zc
              [(3, 2.5, 0.4); (9, 7, 0.2); (16, 12, 0.08)]%Q seed Hs)
    as [wave ->].
  destruct (nd_addZ_defined I_ seed) as [gx ->]; [lia|].
  destruct (nd_addZ_defined J_ (seed * 2)) as [gy ->]; [lia|].
  destruct (np_full_defined size size (uint8 3) Hn Hn) as [l0 ->].
  simpl. eauto.
Qed.

Lemma gen_rocky_defined `{Libm} `{Generator} size seed :
  0 <= size -> 0 <= seed -> seed < 2 ^ 63 ->
  exists g, gen_rocky size seed = Ok g.
Proof.
  intros Hn Hs Hfit. unfold gen_rocky.
  destruct (np_meshgrid (unit_coords size) (unit_coords size)) as [X Zc].
  destruct (np_meshgrid (np_arange size) (np_arange size)) as [I_ J_].
  destruct (sine_noise_defined X Zc
              [(5, 4, 0.55); (10, 8, 0.25); (20, 15, 0.1)]%Q seed Hs)
    as [wave ->].
  destruct (nd_addZ_defined (nd_mulZ I_ 2) seed) as [gx ->]; [lia|].
  destruct (nd_addZ_defined (nd_mulZ J_ 3) seed) as [gy ->]; [lia|].
  destruct (np_full_defined size size (uint8 0) Hn Hn) as [l0 ->].
  simpl. eauto.
Qed.

Lemma gen_mixed_fields_defined `{Libm} `{Generator} size seed :
  0 <= seed -> seed * 3 < 2 ^ 63 ->
  exists f, gen_mixed_fields size seed = Ok f.
Proof.
  intros Hs Hfit. unfold gen_mixed_fields.
  destruct (np_meshgrid (unit_coords size) (unit_coords size)) as [X Zc].
  destruct (np_meshgrid (np_arange size) (np_arange size)) as [I_ J_].
  destruct (sine_noise_defined X Zc
              [(4, 3, 0.35); (10, 8, 0.15); (18, 14, 0.06)]%Q seed Hs)
    as [wave ->].
  destruct (nd_addZ_defined I_ (seed * 3)) as [gx ->]; [lia|].
  destruct (nd_addZ_defined J_ seed) as [gy ->]; [lia|].
  simpl. eauto.
Qed.

Lemma gen_mixed_zones_defined `{Libm} f size :
  0 <= size -> exists l0, gen_mixed_zones f size = Ok l0.
Proof.
  intros Hn. unfold gen_mixed_zones.
  destruct (np_full_defined size size (uint8 4) Hn Hn) as [l0 ->].
  simpl. eauto.
Qed.

Lemma gen_mixed_defined `{Libm} `{Generator} size seed :
  0 <= size -> 0 <= seed -> seed * 3 < 2 ^ 63 ->
  exists g, gen_mixed size seed = Ok g.
Proof.
  intros Hn Hs Hfit. unfold gen_mixed.
  destruct (gen_mixed_fields_defined size seed Hs Hfit) as [f ->]. simpl.
  destruct (gen_mixed_zones_defined f size Hn) as [l0 ->].
  simpl. eauto.
Qed.

(** A negative seed is refused by the random generator before any grid is
    built. *)
Lemma negative_seed_raises `{Libm} `{Generator} size seed :
  seed < 0 ->
  gen_desert size seed = Raise ValueError /\
  gen_rocky size seed = Raise ValueError /\
  gen_mixed size seed = Raise ValueError.
Proof.
  intros Hs.
  assert (E : forall nx nz freqs,
             _sine_noise nx nz freqs seed = Raise ValueError).
  { intros. unfold _sine_noise, default_rng.
    destruct (seed <? 0) eqn:E; [reflexivity|apply Z.ltb_ge in E; lia]. }
  unfold gen_desert, gen_rocky, gen_mixed, gen_mixed_fields.
  destruct (np_meshgrid (unit_coords size) (unit_coords size)) as [X Zc].
  destruct (np_meshgrid (np_arange size) (np_arange size)) as [I_ J_].
  rewrite !E. auto.
Qed.

(* ------------------------------------------------------------------ *)
(** ** Class-id closure of the generators *)

(** C7.  For a positive grid size, every one of [gen_desert], [gen_rocky]
    and [gen_mixed] that returns a grid returns a [size] x [size] grid all of
    whose cells hold a registry id in [0 .. 9]; and each of them does return
    a grid for every non-negative seed whose triple fits the 64-bit index
    arrays it is added to ([seed * 3 < 2^63]). *)
Theorem class_id_closure `{Libm} `{Generator} (size seed : Z) :
  0 < size ->
  forall gen, In gen [gen_desert; gen_rocky; gen_mixed] ->
    (forall g, gen size seed = Ok g ->
       has_shape (Z.to_nat size) (Z.to_nat size) g /\
       forall r c, (r < Z.to_nat size)%nat -> (c < Z.to_nat size)%nat ->
         exists v, nd_get g r c = Some v /\ valid_id v) /\
    (0 <= seed -> seed * 3 < 2 ^ 63 -> exists g, gen size seed = Ok g).
Proof.
  intros Hsize gen Hgen.
  assert (Hcells : forall g,
             has_shape (Z.to_nat size) (Z.to_nat size) g /\
             all_cells valid_id g ->
             has_shape (Z.to_nat size) (Z.to_nat size) g /\
             forall r c, (r < Z.to_nat size)%nat -> (c < Z.to_nat size)%nat ->
               exists v, nd_get g r c = Some v /\ valid_id v).
  { intros g [Hs Hc]. split; [exact Hs|]. intros r c Hr Hcol.
    destruct (nd_get_defined _ _ g r c Hs Hr Hcol) as [v Hv].
    exists v. split; [exact Hv|]. eapply all_cells_get; eauto. }
  simpl in Hgen.
  destruct Hgen as [<-|[<-|[<-|[]]]]; split.
  - intros g Hg. apply Hcells. now apply gen_desert_inv with (seed := seed).
  - intros Hseed Hfit. apply gen_desert_defined; lia.
  - intros g Hg. apply Hcells. now apply gen_rocky_inv with (seed := seed).
  - intros Hseed Hfit. apply gen_rocky_defined; lia.
  - intros g Hg. apply Hcells. now apply gen_mixed_inv with (seed := seed).
  - intros Hseed Hfit. apply gen_mixed_defined; lia.
Qed.

Lemma class_id_closure_witness :
  0 < 5 /\
  exists g, @gen_mixed ref_libm ref_generator 5 7 = Ok g /\
            exists v, nd_get g 2 3 = Some v /\ valid_id v.
Proof.
  split; [lia|].
  destruct (@class_id_closure ref_libm ref_generator 5 7 ltac:(lia)
              (@gen_mixed ref_libm ref_generator)
              (or_intror (or_intror (or_introl eq_refl)))) as [Hinv Hdef].
  destruct Hdef as [g Hg]; [lia|reflexivity|].
  exists g. split; [exact Hg|].
  destruct (Hinv g Hg) as [_ Hcell].
  apply Hcell; apply Nat.ltb_lt; reflexivity.
Defined.

(* ------------------------------------------------------------------ *)
(** ** Style selection *)

(** C8.  For every non-negative [k] and every grid size, [gen_random] with
    seed [3k] is [gen_desert] on that seed, with seed [3k+1] it is
    [gen_rocky], with seed [3k+2] it is [gen_mixed]: the style depends on
    [seed mod 3] alone. *)
Theorem style_selection `{Libm} `{Generator} (size k : Z) :
  0 <= k ->
  gen_random size (3 * k) = gen_desert size (3 * k) /\
  gen_random size (3 * k + 1) = gen_rocky size (3 * k + 1) /\
  gen_random size (3 * k + 2) = gen_mixed size (3 * k + 2).
Proof.
  intros _. unfold gen_random.
  assert (E0 : (3 * k) mod 3 = 0)
    by (rewrite Z.mul_comm; apply Z_mod_mult).
  assert (E1 : (3 * k + 1) mod 3 = 1)
    by (rewrite Z.add_comm, Z.mul_comm, Z_mod_plus_full; reflexivity).
  assert (E2 : (3 * k + 2) mod 3 = 2)
    by (rewrite Z.add_comm, Z.mul_comm, Z_mod_plus_full; reflexivity).
  rewrite E0, E1, E2. simpl. auto.
Qed.

Lemma style_selection_witness :
  0 <= 2 /\
  @gen_random ref_libm ref_generator 4 (3 * 2) =
    @gen_desert ref_libm ref_generator 4 (3 * 2) /\
  @gen_random ref_libm ref_generator 4 (3 * 2 + 1) =
    @gen_rocky ref_libm ref_generator 4 (3 * 2 + 1) /\
  @gen_random ref_libm ref_generator 4 (3 * 2 + 2) =
    @gen_mixed ref_libm ref_generator 4 (3 * 2 + 2).
Proof.
  split; [lia|].
  apply (@style_selection ref_libm ref_generator 4 2). lia.
Defined.

(** The three styles do differ on one seed, so the selection matters. *)
Example styles_differ :
  @gen_desert ref_libm ref_generator 5 7 <>
  @gen_rocky ref_libm ref_generator 5 7.
Proof. vm_compute. discriminate. Qed.

(* ------------------------------------------------------------------ *)
(** ** The rules of the mixed style that spare explicit assignments *)

Lemma set_where_frame {A} mask (v : A) a r c :
  nd_get mask r c = Some false ->
  nd_get (set_where mask v a) r c = nd_get a r c.
Proof.
  intros Hm. unfold set_where. rewrite nd_get_map2, Hm.
  destruct (nd_get a r c); reflexivity.
Qed.

Lemma set_where_hit {A} mask (v : A) a r c x :
  nd_get mask r c = Some true -> nd_get a r c = Some x ->
  nd_get (set_where mask v a) r c = Some v.
Proof.
  intros Hm Ha. unfold set_where. now rewrite nd_get_map2, Hm, Ha.
Qed.

(** A mask of the form [p & (labels == 4)] is false on every cell whose
    label is not 4. *)
Lemma default_mask_false h w (p : ndarray bool) labels r c v :
  has_shape h w p -> has_shape h w labels ->
  nd_get labels r c = Some v -> v <> 4 ->
  nd_get (nd_and p (nd_eqZ labels 4)) r c = Some false.
Proof.
  intros Hp Hl Hv Hne.
  destruct (nd_get_bounds _ _ _ _ _ _ Hl Hv) as [Hr Hc].
  destruct (nd_get_defined _ _ p r c Hp Hr Hc) as [b Hb].
  unfold nd_and, nd_eqZ. rewrite nd_get_map2, Hb, nd_get_map, Hv. simpl.
  apply Z.eqb_neq in Hne. rewrite Hne. now rewrite andb_false_r.
Qed.

Lemma gravel_path_rule_frame h w f labels r c v :
  has_shape h w (mX f) -> has_shape h w (mZ f) -> has_shape h w labels ->
  nd_get labels r c = Some v -> v <> 4 ->
  nd_get (gravel_path_rule f labels) r c = Some v.
Proof.
  intros HX HZ Hl Hv Hne. unfold gravel_path_rule.
  rewrite set_where_frame; [exact Hv|].
  eapply default_mask_false; eauto.
  unfold nd_or, nd_lt, nd_abs, nd_sub_scalar; shape.
Qed.

Lemma sand_strip_rule_frame h w f labels r c v :
  has_shape h w (mwave f) -> has_shape h w (mr f) ->
  has_shape h w labels ->
  nd_get labels r c = Some v -> v <> 4 ->
  nd_get (sand_strip_rule f labels) r c = Some v.
Proof.
  intros Hw Hr Hl Hv Hne. unfold sand_strip_rule.
  rewrite set_where_frame; [exact Hv|].
  destruct (nd_get_bounds _ _ _ _ _ _ Hl Hv) as [Hrow Hcol].
  assert (H1 : has_shape h w (nd_gt (mwave f) 0.15))
    by (unfold nd_gt; shape).
  assert (H2 : has_shape h w (nd_gt (mr f) 0.6)) by (unfold nd_gt; shape).
  destruct (nd_get_defined _ _ _ r c H1 Hrow Hcol) as [b1 Hb1].
  destruct (nd_get_defined _ _ _ r c H2 Hrow Hcol) as [b2 Hb2].
  unfold nd_and. rewrite !nd_get_map2, Hb1, Hb2.
  unfold nd_eqZ. rewrite nd_get_map, Hv. simpl.
  apply Z.eqb_neq in Hne. rewrite Hne. now rewrite andb_false_r.
Qed.

(** C6.  In [gen_mixed], let [l0] be the grid when the gravel-path rule
    runs, [l1] the grid when the sand-strip rule runs and [l2] the result.
    A cell whose value in the grid a rule is applied to is not the
    Landscape default 4 keeps that value through the rule; so whatever an
    earlier rule assigned survives both. *)
Theorem mixed_rules_overwrite_default_only `{Libm} `{Generator}
    (size seed : Z) (f : mixed_fields) (l0 : ndarray Z) :
  gen_mixed_fields size seed = Ok f ->
  gen_mixed_zones f size = Ok l0 ->
  let l1 := gravel_path_rule f l0 in
  let l2 := sand_strip_rule f l1 in
  gen_mixed size seed = Ok l2 /\
  forall r c,
    (forall v, nd_get l0 r c = Some v -> v <> 4 -> nd_get l1 r c = Some v) /\
    (forall v, nd_get l1 r c = Some v -> v <> 4 -> nd_get l2 r c = Some v) /\
    (forall v, nd_get l0 r c = Some v -> v <> 4 -> nd_get l2 r c = Some v).
Proof.
  intros Hf Hz l1 l2.
  split; [unfold gen_mixed; rewrite Hf; simpl; rewrite Hz; reflexivity|].
  pose proof (gen_mixed_fields_inv _ _ _ Hf) as (HX & HZ & Hw & Hr).
  simpl in HX, HZ, Hw, Hr.
  destruct (gen_mixed_zones_inv size f l0 HX HZ Hw Hr Hz) as [Hs0 Hc0].
  destruct (gravel_path_rule_inv _ _ f l0 HX HZ Hs0 Hc0) as [Hs1 _].
  intros r c.
  assert (G : forall v, nd_get l0 r c = Some v -> v <> 4 ->
                        nd_get l1 r c = Some v)
    by (intros v Hv Hne; eapply gravel_path_rule_frame; eauto).
  assert (S : forall v, nd_get l1 r c = Some v -> v <> 4 ->
                        nd_get l2 r c = Some v)
    by (intros v Hv Hne; eapply sand_strip_rule_frame; eauto).
  repeat split; auto.
Qed.

(** Both rules do fire on default cells: a cell holding 4 under a true
    predicate is overwritten. *)
Lemma gravel_path_rule_hit f labels r c :
  nd_get labels r c = Some 4 ->
  nd_get (nd_or (nd_lt (nd_abs (nd_sub_scalar (mX f) 0.5)) 0.06)
                (nd_lt (nd_abs (nd_sub_scalar (mZ f) 0.5)) 0.06)) r c
    = Some true ->
  nd_get (gravel_path_rule f labels) r c = Some 6.
Proof.
  intros Hv Hp. unfold gravel_path_rule.
  eapply set_where_hit; [|exact Hv].
  unfold nd_and at 1. rewrite nd_get_map2, Hp.
  unfold nd_eqZ. now rewrite nd_get_map, Hv.
Qed.

Lemma mixed_rules_overwrite_default_only_witness :
  let f :=
    result_get (mk_mixed_fields empty_grid empty_grid empty_grid empty_grid)
               (@gen_mixed_fields ref_libm ref_generator 5 8) in
  let l0 := result_get empty_grid (@gen_mixed_zones ref_libm f 5) in
  nd_get l0 3 3 = Some 7 /\
  nd_get (sand_strip_rule f (gravel_path_rule f l0)) 3 3 = Some 7 /\
  nd_get l0 3 2 = Some 4 /\
  nd_get (sand_strip_rule f (gravel_path_rule f l0)) 3 2 = Some 6.
Proof.
  intros f l0.
  destruct (@mixed_rules_overwrite_default_only ref_libm ref_generator
              5 8 f l0 eq_refl eq_refl) as [_ Hframe].
  destruct (Hframe 3%nat 3%nat) as (_ & _ & H03).
  split; [reflexivity|].
  split; [apply H03; [reflexivity|discriminate]|].
  split; reflexivity.
Defined.

(* ------------------------------------------------------------------ *)
(** ** Export of a cost grid *)

Lemma flatten_map {A B} (f : A -> B) (a : ndarray A) :
  flatten (nd_map f a) = map f (flatten a).
Proof. unfold flatten, nd_map; simpl. symmetry. apply concat_map. Qed.

Lemma length_concat_uniform {A} w (rs : list (list A)) :
  Forall (fun row => length row = w) rs ->
  length (concat rs) = (length rs * w)%nat.
Proof.
  induction 1 as [|row rs Hrow _ IH]; simpl; auto.
  rewrite length_app, IH, Hrow. reflexivity.
Qed.

Lemma length_flatten {A} h w (a : ndarray A) :
  has_shape h w a -> length (flatten a) = (h * w)%nat.
Proof.
  intros (Hh & Hw & Hlen & Hrows). unfold flatten.
  rewrite (length_concat_uniform (ncols a)); auto. congruence.
Qed.

(** C order: cell [(r, c)] of a [w]-wide array is element [r * w + c]. *)
Lemma nth_error_concat_uniform {A} w (rs : list (list A)) r c :
  Forall (fun row => length row = w) rs -> (c < w)%nat ->
  nth_error (concat rs) (r * w + c) =
  match nth_error rs r with
  | Some row => nth_error row c
  | None => None
  end.
Proof.
  intros Hrows Hc. revert r.
  induction Hrows as [|row rs Hrow _ IH]; intros r.
  - simpl. destruct (r * w + c)%nat, r; reflexivity.
  - destruct r as [|r]; simpl.
    + apply nth_error_app1. lia.
    + rewrite nth_error_app2 by lia.
      replace (w + r * w + c - length row)%nat with (r * w + c)%nat by lia.
      apply IH.
Qed.

Lemma nth_error_flatten {A} h w (a : ndarray A) r c :
  has_shape h w a -> (c < w)%nat ->
  nth_error (flatten a) (r * w + c) = nd_get a r c.
Proof.
  intros (Hh & Hw & Hlen & Hrows) Hc. subst w.
  unfold flatten, nd_get. now apply nth_error_concat_uniform.
Qed.

Lemma all_cells_flatten {A} (P : A -> Prop) (a : ndarray A) :
  all_cells P a -> Forall P (flatten a).
Proof.
  unfold all_cells, flatten.
  induction 1 as [|row rs Hrow _ IH]; simpl; auto.
  apply Forall_app. auto.
Qed.

Lemma Qtrunc_floor x : (0 <= x)%Q -> Qtrunc x = Qfloor x.
Proof.
  destruct x as [n d]. unfold Qle, Qtrunc, Qfloor; simpl. intros Hn.
  apply Z.quot_div_nonneg; lia.
Qed.

Lemma np_round_monotone `{IEEE754} dtype (x y : Q) :
  (x <= y)%Q -> (np_round dtype x <= np_round dtype y)%Q.
Proof. destruct dtype; [apply f32_monotone|apply f64_monotone]. Qed.

Lemma np_round_integer `{IEEE754} dtype (n : Z) :
  Z.abs n <= 2 ^ 24 -> (np_round dtype (inject_Z n) == inject_Z n)%Q.
Proof.
  intros Hn. destruct dtype; [now apply f32_integer|].
  apply f64_integer.
  assert (2 ^ 24 <= 2 ^ 53) by (apply Z.pow_le_mono_r; lia). lia.
Qed.

(** A product that lies between two small integers still does after
    rounding. *)
Lemma np_round_between `{IEEE754} dtype (x : Q) (lo hi : Z) :
  Z.abs lo <= 2 ^ 24 -> Z.abs hi <= 2 ^ 24 ->
  (inject_Z lo <= x)%Q -> (x <= inject_Z hi)%Q ->
  (inject_Z lo <= np_round dtype x)%Q /\ (np_round dtype x <= inject_Z hi)%Q.
Proof.
  intros Hlo Hhi Hx1 Hx2. split.
  - rewrite <- (np_round_integer dtype lo Hlo). now apply np_round_monotone.
  - rewrite <- (np_round_integer dtype hi Hhi). now apply np_round_monotone.
Qed.

Lemma np_round_half `{IEEE754} dtype (x : Q) :
  (x == 0.5)%Q -> (np_round dtype x == 0.5)%Q.
Proof.
  intros E.
  assert (Eh : (inject_Z 1 / inject_Z (2 ^ 1) == 0.5)%Q) by reflexivity.
  assert (Ex : (x == inject_Z 1 / inject_Z (2 ^ 1))%Q)
    by (rewrite E; now symmetry).
  destruct dtype; simpl.
  - apply Qeq_trans with (f32 (inject_Z 1 / inject_Z (2 ^ 1)));
      [now apply f32_comp|].
    rewrite f32_dyadic by (simpl; lia). exact Eh.
  - apply Qeq_trans with (f64 (inject_Z 1 / inject_Z (2 ^ 1)));
      [now apply f64_comp|].
    rewrite f64_dyadic by (simpl; lia). exact Eh.
Qed.

Lemma Qtrunc_percent `{IEEE754} dtype x :
  (0 <= x <= 1)%Q ->
  0 <= Qtrunc (np_round dtype (np_round dtype x * 100)) <= 100.
Proof.
  intros [H0 H1].
  destruct (np_round_between dtype x 0 1) as [Hx0 Hx1];
    [simpl; lia|simpl; lia|exact H0|exact H1|].
  change (inject_Z 0) with 0%Q in Hx0. change (inject_Z 1) with 1%Q in Hx1.
  set (y := np_round dtype x) in *.
  assert (Hlo : (inject_Z 0 <= y * 100)%Q).
  { apply Qmult_le_0_compat; [exact Hx0|discriminate]. }
  assert (Hhi : (y * 100 <= inject_Z 100)%Q).
  { setoid_replace (inject_Z 100) with (1 * 100)%Q by reflexivity.
    apply Qmult_le_compat_r; [exact Hx1|discriminate]. }
  destruct (np_round_between dtype (y * 100) 0 100) as [Hr0 Hr1];
    [simpl; lia|simpl; lia|exact Hlo|exact Hhi|].
  rewrite Qtrunc_floor by exact Hr0.
  split.
  - rewrite <- (Qfloor_Z 0). now apply Qfloor_resp_le.
  - rewrite <- (Qfloor_Z 100). now apply Qfloor_resp_le.
Qed.

Lemma int8_small v : -128 <= v <= 127 -> int8 v = v.
Proof. intros Hv. unfold int8. rewrite Z.mod_small; lia. Qed.

Lemma Qtrunc_half `{IEEE754} dtype x :
  (x == 0.5)%Q -> Qtrunc (np_round dtype (np_round dtype x * 100)) = 50.
Proof.
  intros E. apply (np_round_half dtype) in E.
  set (y := np_round dtype x) in *.
  assert (E' : (y * 100 == inject_Z 50)%Q) by (rewrite E; reflexivity).
  destruct (np_round_between dtype (y * 100) 50 50) as [Hlo Hhi];
    [simpl; lia|simpl; lia|rewrite E'; apply Qle_refl
    |rewrite E'; apply Qle_refl|].
  assert (Hpos : (0 <= np_round dtype (y * 100))%Q).
  { eapply Qle_trans; [|exact Hlo]. discriminate. }
  rewrite Qtrunc_floor by exact Hpos.
  apply Z.le_antisymm.
  - rewrite <- (Qfloor_Z 50). now apply Qfloor_resp_le.
  - rewrite <- (Qfloor_Z 50) at 1. now apply Qfloor_resp_le.
Qed.

(** C9.  For an [H] x [W] cost grid whose cells lie in [[0, 1]],
    [export_cost_grid_ros] reports width [W] and height [H] and a data
    array of length [W * H] in which cell [(r, c)] sits at index
    [r * W + c] and holds the truncation of [cost * 100], cost and product
    being floating-point values of the grid's element type; every
    exported value lies in [[0, 100]], inside the signed 8-bit range.  A
    grid of all 0.5 exports to all 50. *)
Theorem export_scaling `{fp : IEEE754} (dtype : float_dtype)
    (cost_grid : ndarray Q) (res : Q) (H W : nat) :
  has_shape H W cost_grid ->
  all_cells (fun x => 0 <= x <= 1)%Q cost_grid ->
  let msg := export_cost_grid_ros dtype cost_grid res in
  width msg = W /\ height msg = H /\
  length (data msg) = (W * H)%nat /\
  (forall r c x, nd_get cost_grid r c = Some x ->
     nth_error (data msg) (r * W + c)
       = Some (Qtrunc (np_round dtype (np_round dtype x * 100)))) /\
  Forall (fun v => 0 <= v <= 100 /\ -128 <= v <= 127) (data msg) /\
  (all_cells (fun x => x == 0.5)%Q cost_grid ->
   Forall (fun v => v = 50) (data msg)).
Proof.
  intros Hs Hcells msg. subst msg. unfold export_cost_grid_ros; simpl.
  pose proof Hs as (Hh & Hw & _).
  repeat split; auto.
  - rewrite (length_flatten H W); [lia|]. now apply has_shape_map.
  - intros r c x Hx.
    destruct (nd_get_bounds _ _ _ _ _ _ Hs Hx) as [_ Hc].
    rewrite (nth_error_flatten H W) by (auto using has_shape_map).
    rewrite nd_get_map, Hx. simpl. f_equal.
    apply int8_small.
    pose proof (Qtrunc_percent dtype x
                  (all_cells_get _ _ _ _ _ Hcells Hx)). lia.
  - rewrite flatten_map, Forall_map.
    eapply Forall_impl; [|apply all_cells_flatten, Hcells].
    intros x Hx; simpl in Hx.
    pose proof (Qtrunc_percent dtype x Hx).
    rewrite int8_small; lia.
  - intros Hhalf. rewrite flatten_map, Forall_map.
    eapply Forall_impl; [|apply all_cells_flatten, Hhalf].
    intros x Hx; simpl in Hx.
    rewrite (Qtrunc_half dtype x Hx). reflexivity.
Qed.

Lemma export_scaling_witness :
  let g := mk_ndarray 2 3 [[0.5; 0.5; 0.5]; [0.5; 0.5; 0.5]]%Q in
  let msg := @export_cost_grid_ros ref_ieee754 float32 g 0.05 in
  width msg = 3%nat /\ height msg = 2%nat /\
  Forall (fun v => v = 50) (data msg).
Proof.
  intros g msg.
  assert (Hs : has_shape 2 3 g).
  { repeat split; simpl; auto; repeat constructor. }
  assert (Hc : all_cells (fun x => 0 <= x <= 1)%Q g).
  { repeat constructor; simpl; discriminate. }
  assert (Hh : all_cells (fun x => x == 0.5)%Q g).
  { repeat constructor. }
  destruct (@export_scaling ref_ieee754 float32 g 0.05 2 3 Hs Hc)
    as (Hw & Hht & _ & _ & _ & H50).
  split; [exact Hw|]. split; [exact Hht|]. exact (H50 Hh).
Defined.

(* ------------------------------------------------------------------ *)
(** ** Height map *)

Lemma mapM_map {A B} (f : A -> result B) (g : A -> B) l :
  Forall (fun x => f x = Ok (g x)) l -> mapM f l = Ok (map g l).
Proof.
  induction 1 as [|x xs Hx _ IH]; simpl; auto.
  now rewrite Hx, IH.
Qed.

Lemma np_vectorize_map {A B} (f : A -> result B) (g : A -> B) h w a :
  has_shape h w a -> (0 < h * w)%nat ->
  all_cells (fun x => f x = Ok (g x)) a ->
  np_vectorize f a = Ok (nd_map g a).
Proof.
  intros Hs Hpos Hcells. unfold np_vectorize.
  pose proof (length_flatten _ _ _ Hs) as Hlen.
  destruct (flatten a) as [|x xs]; [simpl in Hlen; lia|].
  rewrite (mapM_map (mapM f) (map g)); [reflexivity|].
  eapply Forall_impl; [|exact Hcells].
  intros row Hrow. now apply mapM_map.
Qed.

Lemma py_index_valid (l : list Q) cid :
  length l = 10%nat -> valid_id cid ->
  py_index l cid = Ok (nth (Z.to_nat cid) l 0%Q).
Proof.
  intros Hl [H0 H9]. unfold py_index. rewrite Hl.
  destruct (cid <? 0) eqn:E; [apply Z.ltb_lt in E; lia|].
  destruct (cid <? 0) eqn:E1; [discriminate|].
  destruct (Z.of_nat 10 <=? cid) eqn:E2; [apply Z.leb_le in E2; lia|].
  simpl.
  destruct (nth_error l (Z.to_nat cid)) as [x|] eqn:E3.
  - f_equal. symmetry. now apply nth_error_nth.
  - apply nth_error_None in E3. lia.
Qed.

Lemma all_cells_impl {A} (P Q : A -> Prop) (a : ndarray A) :
  (forall x, P x -> Q x) -> all_cells P a -> all_cells Q a.
Proof.
  intros HPQ. unfold all_cells. intros Ha.
  eapply Forall_impl; [|exact Ha].
  intros row. apply Forall_impl. exact HPQ.
Qed.

(** On registry ids the height map is the elementwise
    [base + variance * noise]. *)
Lemma height_map_formula h w labels noise :
  has_shape h w labels -> (0 < h * w)%nat ->
  all_cells valid_id labels ->
  height_map labels noise =
  Ok (nd_map2 Qplus (nd_map class_base labels)
        (nd_map2 Qmult (nd_map class_variance labels) noise)).
Proof.
  intros Hs Hpos Hids. unfold height_map.
  rewrite (np_vectorize_map _ class_base h w); auto.
  2:{ eapply all_cells_impl; [|exact Hids].
      intros cid Hcid. now apply py_index_valid. }
  simpl.
  rewrite (np_vectorize_map _ class_variance h w); auto.
  eapply all_cells_impl; [|exact Hids].
  intros cid Hcid. now apply py_index_valid.
Qed.

Lemma rng_random_row_length `{Generator} w rng :
  length (fst (rng_random_row w rng)) = w.
Proof.
  revert rng. induction w as [|w IH]; intros rng; simpl; auto.
  destruct (rng_random rng) as [u rng1].
  specialize (IH rng1).
  destruct (rng_random_row w rng1) as [us rng2]. simpl in *. congruence.
Qed.

Lemma rng_random_rows_shape `{Generator} h w rng :
  length (fst (rng_random_rows h w rng)) = h /\
  Forall (fun row => length row = w) (fst (rng_random_rows h w rng)).
Proof.
  revert rng. induction h as [|h IH]; intros rng; simpl; auto.
  pose proof (rng_random_row_length w rng) as Hrow.
  destruct (rng_random_row w rng) as [r rng1].
  specialize (IH rng1).
  destruct (rng_random_rows h w rng1) as [rs rng2]. simpl in *.
  destruct IH as [IH1 IH2]. split; [congruence|]. now constructor.
Qed.

Lemma rng_random_array_defined `{Generator} n rng :
  0 <= n ->
  exists noise rng',
    rng_random_array n n rng = Ok (noise, rng') /\
    has_shape (Z.to_nat n) (Z.to_nat n) noise.
Proof.
  intros Hn. unfold rng_random_array.
  destruct (n <? 0) eqn:E; [apply Z.ltb_lt in E; lia|]. simpl.
  pose proof (rng_random_rows_shape (Z.to_nat n) (Z.to_nat n) rng)
    as [Hlen Hrows].
  destruct (rng_random_rows (Z.to_nat n) (Z.to_nat n) rng) as [rs rng'].
  exists (mk_ndarray (Z.to_nat n) (Z.to_nat n) rs), rng'.
  split; [reflexivity|]. repeat split; simpl; auto.
Qed.



(** The scenario on a one-row grid of Rock cells with noise 0 and 1. *)
Example rock_heights :
  exists hm,
    height_map (mk_ndarray 1 2 [[0; 0]]) (mk_ndarray 1 2 [[0; 1]]%Q) = Ok hm /\
    exists h0 h1,
      rows hm = [[h0; h1]] /\ (h0 == 0.55)%Q /\ (h1 == 1.05)%Q.
Proof.
  eexists. split; [reflexivity|].
  do 2 eexists. split; [reflexivity|]. split; reflexivity.
Qed.

(* ------------------------------------------------------------------ *)
(** ** The colour map *)

Lemma select_count {A} (p : A -> bool) (a : ndarray A) :
  length (select (nd_map p a) a) = nd_count (nd_map p a).
Proof.
  unfold select, nd_count. rewrite flatten_map, length_map.
  induction (flatten a) as [|x xs IH]; simpl; auto.
  destruct (p x); simpl; auto.
Qed.

(** Whatever the grid, the colour map stops at the red channel of the
    caution zone: [(255).astype] is looked up on a Python integer. *)
Lemma apply_terrain_colormap_raises (cost_grid : ndarray Q) :
  apply_terrain_colormap cost_grid = Raise AttributeError.
Proof.
  unfold apply_terrain_colormap.
  cbn [astype_uint8 bind]. unfold scatter.
  rewrite !length_map, select_count, Nat.eqb_refl.
  cbn [astype_uint8 bind].
  rewrite ?length_map, ?select_count, ?Nat.eqb_refl.
  reflexivity.
Qed.

Lemma create_cost_heatmap_raises `{Imaging} (cost_grid : ndarray Q) :
  exists e, create_cost_heatmap cost_grid = Raise e.
Proof.
  unfold create_cost_heatmap.
  destruct (cv2_applyColorMap_JET _) as [hm|e]; simpl; eauto.
  destruct (cv2_cvtColor_BGR2RGB hm) as [hm'|e]; simpl; eauto.
  rewrite apply_terrain_colormap_raises. simpl. eauto.
Qed.

(** As a consequence [generate_cost_map] returns on no input. *)
Lemma generate_cost_map_raises `{Imaging} seg_mask terrain_classes k :
  exists e, generate_cost_map seg_mask terrain_classes k = Raise e.
Proof.
  unfold generate_cost_map.
  destruct (cv2_GaussianBlur _ k) as [g|e]; simpl; eauto.
  destruct (create_cost_heatmap_raises (nd_map (fun c => Qclip c 0 1) g))
    as [e ->].
  simpl. eauto.
Qed.

(** C1 (defect).  On the grid [[0.0, 0.45, 1.0]] the specified ramp gives
    green 255 and red 0, then red 255 and green 127, then pure red; the
    code raises [AttributeError] instead of returning any raster. *)
Theorem colormap_thresholds_raise :
  apply_terrain_colormap (mk_ndarray 1 3 [[0; 0.45; 1]]%Q)
    = Raise AttributeError /\
  map zoned_color_ramp [0; 0.45; 1]%Q
    = [(0, 255, 0); (255, 127, 0); (255, 0, 0)].
Proof.
  split; [apply apply_terrain_colormap_raises|reflexivity].
Qed.

(* ------------------------------------------------------------------ *)
(** ** Class ids outside the registry *)

Lemma has_shape_set_where {A} h w mask (v : A) a :
  has_shape h w mask -> has_shape h w a -> has_shape h w (set_where mask v a).
Proof. intros. unfold set_where. now apply has_shape_map2. Qed.

Lemma cost_lookup_fold_frame h w seg_mask registry grid r c v x :
  has_shape h w seg_mask -> has_shape h w grid ->
  nd_get seg_mask r c = Some v ->
  (forall cls, In cls registry -> id cls <> v) ->
  nd_get grid r c = Some x ->
  nd_get
    (fold_left
       (fun cost_grid cls =>
          set_where (nd_eqZ seg_mask (id cls)) (cost cls) cost_grid)
       registry grid) r c = Some x.
Proof.
  intros Hm. revert grid.
  induction registry as [|cls registry IH]; intros grid Hg Hv Hid Hx;
    simpl; auto.
  apply IH; auto.
  - apply has_shape_set_where; auto. unfold nd_eqZ. now apply has_shape_map.
  - intros cls' Hin. apply Hid. now right.
  - rewrite set_where_frame; auto.
    unfold nd_eqZ. rewrite nd_get_map, Hv. simpl. f_equal.
    apply Z.eqb_neq. intros E.
    apply (Hid cls (or_introl eq_refl)). now symmetry.
Qed.

Lemma nd_get_zeros {A} h w (z : A) r c :
  (r < h)%nat -> (c < w)%nat -> nd_get (np_zeros h w z) r c = Some z.
Proof.
  intros Hr Hc.
  destruct (nd_get_defined _ _ _ r c (has_shape_zeros h w z) Hr Hc)
    as [x Hx].
  rewrite Hx. f_equal.
  unfold nd_get, np_zeros in Hx; simpl in Hx.
  destruct (nth_error (repeat (repeat z w) h) r) as [row|] eqn:E;
    [|discriminate].
  apply nth_error_In, repeat_spec in E. subst row.
  apply nth_error_In, repeat_spec in Hx. exact Hx.
Qed.

(** The cost written for an id the registry lacks is the initial zero. *)
Lemma cost_lookup_unknown seg_mask registry r c v :
  well_shaped seg_mask ->
  nd_get seg_mask r c = Some v ->
  (forall cls, In cls registry -> id cls <> v) ->
  nd_get (cost_lookup seg_mask registry) r c = Some 0%Q.
Proof.
  intros Hws Hv Hid.
  assert (Hs : has_shape (nrows seg_mask) (ncols seg_mask) seg_mask)
    by (repeat split; apply Hws).
  destruct (nd_get_bounds _ _ _ _ _ _ Hs Hv) as [Hr Hc].
  unfold cost_lookup.
  eapply cost_lookup_fold_frame; eauto using has_shape_zeros.
  now apply nd_get_zeros.
Qed.

Lemma paint_row_frame `{Generator} base std mask row rng :
  length mask = length row ->
  length (fst (paint_row base std mask row rng)) = length row /\
  forall c, nth_error mask c = Some false ->
    nth_error (fst (paint_row base std mask row rng)) c = nth_error row c.
Proof.
  revert row rng.
  induction mask as [|m ms IH]; intros [|p ps] rng Hlen; simpl in *;
    try discriminate; auto.
  injection Hlen as Hlen.
  destruct m.
  - destruct (jitter_pixel base std rng) as [p' rng1].
    specialize (IH ps rng1 Hlen).
    destruct (paint_row base std ms ps rng1) as [ps' rng2]. simpl in *.
    destruct IH as [IH1 IH2]. split; [congruence|].
    intros [|c] Hc; simpl in *; [discriminate|auto].
  - specialize (IH ps rng Hlen).
    destruct (paint_row base std ms ps rng) as [ps' rng2]. simpl in *.
    destruct IH as [IH1 IH2]. split; [congruence|].
    intros [|c] Hc; simpl in *; auto.
Qed.

Lemma paint_rows_frame `{Generator} base std w mask rs rng :
  length mask = length rs ->
  Forall (fun row => length row = w) mask ->
  Forall (fun row => length row = w) rs ->
  let out := fst (paint_rows base std mask rs rng) in
  length out = length rs /\
  Forall (fun row => length row = w) out /\
  forall r c m row,
    nth_error mask r = Some m -> nth_error m c = Some false ->
    nth_error rs r = Some row ->
    exists row', nth_error out r = Some row' /\
                 nth_error row' c = nth_error row c.
Proof.
  revert rs rng.
  induction mask as [|m ms IH]; intros [|row rs] rng Hlen Hm Hr;
    simpl in *; try discriminate.
  - repeat split; auto. intros [|r] c m row Hx; discriminate.
  - injection Hlen as Hlen.
    inversion Hm as [|? ? Hm1 Hm2]; inversion Hr as [|? ? Hr1 Hr2]; subst.
    pose proof (paint_row_frame base std m row rng ltac:(congruence))
      as [Hl1 Hf1].
    destruct (paint_row base std m row rng) as [row' rng1]. simpl in *.
    specialize (IH rs rng1 Hlen Hm2 Hr2).
    destruct (paint_rows base std ms rs rng1) as [rs' rng2]. simpl in *.
    destruct IH as (IH1 & IH2 & IH3).
    split; [congruence|]. split; [constructor; [congruence|auto]|].
    intros [|r] c m0 row0 Hx Hy Hz; simpl in *.
    + injection Hx as <-. injection Hz as <-. eauto.
    + eauto.
Qed.

Lemma paint_class_frame `{Generator} h w labels std canvas rng cid tc r c v :
  has_shape h w labels -> has_shape h w canvas ->
  nd_get labels r c = Some v -> v <> Z.of_nat cid ->
  let out := fst (paint_class labels std (canvas, rng) (cid, tc)) in
  has_shape h w out /\ nd_get out r c = nd_get canvas r c.
Proof.
  intros Hl Hcv Hv Hne. unfold paint_class.
  destruct (negb (nd_any (nd_eqZ labels (Z.of_nat cid))));
    [cbn [fst]; now split|].
  assert (Hmask : has_shape h w (nd_eqZ labels (Z.of_nat cid)))
    by (unfold nd_eqZ; now apply has_shape_map).
  destruct Hmask as (Hmh & Hmw & Hmlen & Hmrows).
  destruct Hcv as (Hch & Hcw & Hclen & Hcrows).
  rewrite Hmw in Hmrows. rewrite Hcw in Hcrows.
  pose proof (paint_rows_frame (rgb tc) std w
                (rows (nd_eqZ labels (Z.of_nat cid))) (rows canvas) rng
                ltac:(congruence) Hmrows Hcrows) as Hp.
  destruct (paint_rows (rgb tc) std (rows (nd_eqZ labels (Z.of_nat cid)))
              (rows canvas) rng) as [rs rng'].
  cbn [fst] in *.
  destruct Hp as (Hp1 & Hp2 & Hp3).
  split.
  - repeat split; cbn [nrows ncols rows]; auto; try congruence.
    now rewrite Hcw.
  - assert (Hmc : nd_get (nd_eqZ labels (Z.of_nat cid)) r c = Some false).
    { unfold nd_eqZ. rewrite nd_get_map, Hv. simpl. f_equal.
      now apply Z.eqb_neq. }
    unfold nd_get in Hmc |- *. cbn [rows].
    destruct (nth_error (rows (nd_eqZ labels (Z.of_nat cid))) r)
      as [m|] eqn:Em; [|discriminate].
    destruct (nth_error (rows canvas) r) as [row|] eqn:Er.
    + destruct (Hp3 r c m row Em Hmc Er) as (row' & -> & Hrow'). exact Hrow'.
    + apply nth_error_None in Er.
      assert (E : nth_error rs r = None) by (apply nth_error_None; lia).
      now rewrite E.
Qed.

Lemma render_fold_frame `{Generator} h w labels std entries canvas rng r c v :
  has_shape h w labels -> has_shape h w canvas ->
  nd_get labels r c = Some v ->
  (forall cid tc, In (cid, tc) entries -> v <> Z.of_nat cid) ->
  nd_get (fst (fold_left (paint_class labels std) entries (canvas, rng))) r c
    = nd_get canvas r c.
Proof.
  intros Hl. revert canvas rng.
  induction entries as [|[cid tc] entries IH]; intros canvas rng Hcv Hv Hne;
    cbn [fold_left fst]; auto.
  pose proof (paint_class_frame h w labels std canvas rng cid tc r c v
                Hl Hcv Hv (Hne cid tc (or_introl eq_refl))) as [Hs Hg].
  destruct (paint_class labels std (canvas, rng) (cid, tc))
    as [canvas' rng']. cbn [fst] in Hs, Hg.
  rewrite IH; auto.
  intros cid' tc' Hin. apply (Hne cid' tc'). now right.
Qed.

(** Rendering leaves a cell whose id is outside [0 .. 9] black. *)
Lemma render_rgb_unknown `{Generator} labels std rng r c v :
  well_shaped labels ->
  nd_get labels r c = Some v -> ~ valid_id v ->
  nd_get (fst (render_rgb labels std rng)) r c = Some (0, 0, 0).
Proof.
  intros Hws Hv Hbad.
  assert (Hs : has_shape (nrows labels) (ncols labels) labels)
    by (repeat split; apply Hws).
  destruct (nd_get_bounds _ _ _ _ _ _ Hs Hv) as [Hr Hc].
  unfold render_rgb.
  rewrite (render_fold_frame (nrows labels) (ncols labels) labels std _ _ _
             r c v); auto using has_shape_zeros.
  - now apply nd_get_zeros.
  - intros cid tc Hin. unfold enumerate in Hin.
    apply in_combine_l in Hin. apply in_seq in Hin. simpl in Hin.
    intros ->. apply Hbad. unfold valid_id. lia.
Qed.

(** C5 (as amended).  Neither lookup has a default class.  A cell whose id
    no class of the registry carries keeps the zero the cost grid is
    initialised with, and a cell whose id is outside [0 .. 9] keeps the
    black the colour array is initialised with; neither step raises. *)
Theorem unknown_ids_keep_initial_value `{Generator} (grid : ndarray Z)
    (registry : list terrain_class) (r c : nat) (v : Z) :
  well_shaped grid ->
  nd_get grid r c = Some v ->
  ((forall cls, In cls registry -> id cls <> v) ->
   nd_get (cost_lookup grid registry) r c = Some 0%Q) /\
  (~ valid_id v ->
   forall std rng,
     nd_get (fst (render_rgb grid std rng)) r c = Some (0, 0, 0)).
Proof.
  intros Hws Hv. split.
  - intros Hid. now apply cost_lookup_unknown with (v := v).
  - intros Hbad std rng. now apply render_rgb_unknown with (v := v).
Qed.

Lemma unknown_ids_keep_initial_value_witness :
  let grid := mk_ndarray 1 2 [[10; 3]] in
  nd_get (cost_lookup grid TERRAIN_CLASSES) 0 0 = Some 0%Q /\
  nd_get (fst (@render_rgb ref_generator grid 8 5)) 0 0 = Some (0, 0, 0).
Proof.
  intros grid.
  assert (Hws : well_shaped grid) by (split; simpl; auto).
  destruct (@unknown_ids_keep_initial_value ref_generator grid
              TERRAIN_CLASSES 0 0 10 Hws eq_refl) as [Hcost Hrender].
  split.
  - apply Hcost. intros cls Hin. simpl in Hin.
    repeat (destruct Hin as [<-|Hin]; [discriminate|]). contradiction.
  - apply Hrender. unfold valid_id. lia.
Defined.

(** The claim as stated fails: with the registry of [dataset.py], the raw
    cost given to the unknown id 10 is the cost of no class, and the colour
    it is rendered with is the colour of no class. *)
Lemma unknown_id_gets_no_class_value :
  (~ exists cls x,
       In cls TERRAIN_CLASSES /\
       nd_get (cost_lookup (mk_ndarray 1 1 [[10]]) TERRAIN_CLASSES) 0 0
         = Some x /\
       (x == cost cls)%Q) /\
  (~ exists cls,
       In cls TERRAIN_CLASSES /\
       nd_get (fst (@render_rgb ref_generator (mk_ndarray 1 1 [[10]]) 8 5))
              0 0 = Some (rgb cls)).
Proof.
  split.
  - intros (cls & x & Hin & Hx & E).
    vm_compute in Hx. injection Hx as <-.
    simpl in Hin.
    repeat (destruct Hin as [<-|Hin]; [vm_compute in E; discriminate|]).
    contradiction.
  - intros (cls & Hin & Hx).
    vm_compute in Hx. simpl in Hin.
    repeat (destruct Hin as [<-|Hin]; [discriminate|]).
    contradiction.
Qed.

(** With the registry of the service the unknown id gets the same raw
    cost 0, the initial value of the grid. *)
Example unknown_id_cost_service_registry :
  rows (cost_lookup (mk_ndarray 1 2 [[10; 7]]) SEGMENTATION_TERRAIN_CLASSES)
    = [[0; 0.95]]%Q.
Proof. reflexivity. Qed.

(** A registry id, by contrast, receives the cost of its class. *)
Example known_id_cost :
  rows (cost_lookup (mk_ndarray 1 3 [[9; 5; 0]]) TERRAIN_CLASSES)
    = [[1.0; 0.1; 0.9]]%Q.
Proof. reflexivity. Qed.

(* ------------------------------------------------------------------ *)
(** ** Empty grids *)

Lemma has_shape_empty {A} (g : ndarray A) :
  has_shape 0 0 g -> g = empty_grid.
Proof.
  destruct g as [h w rs]. intros (Hh & Hw & Hlen & _). simpl in *.
  subst. destruct rs; [reflexivity|discriminate].
Qed.

(** C2 (as amended).  No generator and no step of the renderer validates
    the size.  For grid size 0 (and a non-negative seed whose triple fits
    the 64-bit index arrays, [seed * 3 < 2^63]) the three styles and the
    composite return the empty 0 x 0 grid without raising; on that grid the
    renderer skips every class, draws no noise and passes an empty colour
    array on to the imaging library. *)
Theorem empty_grid_is_returned `{Libm} `{Generator} `{Imaging} (seed : Z) :
  0 <= seed -> seed * 3 < 2 ^ 63 ->
  gen_desert 0 seed = Ok empty_grid /\
  gen_rocky 0 seed = Ok empty_grid /\
  gen_mixed 0 seed = Ok empty_grid /\
  gen_random 0 seed = Ok empty_grid /\
  forall std rng size,
    render_rgb empty_grid std rng = (empty_grid, rng) /\
    render_terrain empty_grid size rng std
      = (img <- pil_fromarray empty_grid ;;
         img <- pil_gaussian_blur 0.8 img ;;
         if negb (size =? 0)
         then img <- pil_resize_bilinear size size img ;; Ok (img, rng)
         else Ok (img, rng)).
Proof.
  intros Hseed Hfit.
  assert (Hd : gen_desert 0 seed = Ok empty_grid).
  { destruct (gen_desert_defined 0 seed) as [g Hg]; try lia.
    rewrite Hg. f_equal. apply has_shape_empty.
    now apply gen_desert_inv in Hg. }
  assert (Hr : gen_rocky 0 seed = Ok empty_grid).
  { destruct (gen_rocky_defined 0 seed) as [g Hg]; try lia.
    rewrite Hg. f_equal. apply has_shape_empty.
    now apply gen_rocky_inv in Hg. }
  assert (Hm : gen_mixed 0 seed = Ok empty_grid).
  { destruct (gen_mixed_defined 0 seed) as [g Hg]; try lia.
    rewrite Hg. f_equal. apply has_shape_empty.
    now apply gen_mixed_inv in Hg. }
  repeat split; auto.
  unfold gen_random.
  destruct (seed mod 3 =? 0); [exact Hd|].
  destruct (seed mod 3 =? 1); [exact Hr|exact Hm].
Qed.

Lemma empty_grid_is_returned_witness :
  0 <= 7 /\ 7 * 3 < 2 ^ 63 /\
  @gen_desert ref_libm ref_generator 0 7 = Ok empty_grid.
Proof.
  assert (Hseed : 0 <= 7) by lia.
  assert (Hfit : 7 * 3 < 2 ^ 63) by reflexivity.
  split; [exact Hseed|]. split; [exact Hfit|].
  apply (@empty_grid_is_returned ref_libm ref_generator ref_imaging 7
           Hseed Hfit).
Defined.

(** The claim as stated fails: grid size 0 is not rejected. *)
Lemma empty_grid_not_rejected :
  ~ exists e, @gen_desert ref_libm ref_generator 0 7 = Raise e.
Proof. intros [e He]. vm_compute in He. discriminate. Qed.

(** A negative size, unlike zero, does raise, in [np.full]. *)
Example negative_size_raises :
  @gen_desert ref_libm ref_generator (-2) 7 = Raise ValueError.
Proof. reflexivity. Qed.

(** So does a seed whose double leaves the 64-bit range, in [J + seed * 2],
    also on the empty grid. *)
Example large_seed_overflows :
  @gen_desert ref_libm ref_generator 0 (2 ^ 62) = Raise OverflowError.
Proof. reflexivity. Qed.

(* ------------------------------------------------------------------ *)
(** ** Augmentation *)

(** [augment_image] is the recorded draws applied to both rasters, and
    the photometric factor applied to the image alone. *)
Lemma augment_image_draws `{IEEE754} `{Imaging} `{Generator} img label rng :
  augment_image img label rng =
  Ok (color_jitter (factor (fst (recorded_draws rng)))
        (apply_geometry_image (fst (recorded_draws rng)) img),
      apply_geometry (fst (recorded_draws rng)) label,
      snd (recorded_draws rng)).
Proof.
  unfold augment_image, recorded_draws, apply_geometry,
    apply_geometry_image.
  destruct (rng_random rng) as [u1 rng1].
  destruct (rng_random rng1) as [u2 rng2].
  destruct (rng_integers 0 4 rng2) as [k rng3].
  destruct (rng_uniform 0.85 1.15 rng3) as [f rng4].
  cbn [fst snd hflip vflip quarter_turns factor].
  destruct (Qlt_bool 0.5 u1), (Qlt_bool 0.5 u2), (k >? 0); reflexivity.
Qed.

(** C3 (as amended).  [augment_image] never compares the two shapes and
    never raises: for every pair, matching or not, it returns a pair, and
    the label it returns is the same whatever image accompanies it. *)
Theorem augment_has_no_shape_check `{IEEE754} `{Imaging} `{Generator}
    (img : image) (label : ndarray Z) (rng : rng_state) :
  exists img' label' rng',
    augment_image img label rng = Ok (img', label', rng') /\
    forall other : image, exists other',
      augment_image other label rng = Ok (other', label', rng').
Proof.
  do 3 eexists. split; [apply augment_image_draws|].
  intros other. eexists. apply augment_image_draws.
Qed.

(** The claim as stated fails: a 1 x 1 image with a 2 x 2 label comes back
    as a 1 x 1 image with a 2 x 2 label, and nothing is raised. *)
Lemma mismatched_pair_is_returned :
  exists img' label' rng',
    @augment_image ref_ieee754 ref_imaging ref_generator
      (mk_ndarray 1 1 [[(1, 2, 3)]]) (mk_ndarray 2 2 [[1; 2]; [3; 4]])
      1234567 = Ok (img', label', rng') /\
    shape img' = (1, 1)%nat /\ shape label' = (2, 2)%nat.
Proof. do 3 eexists. split; [vm_compute; reflexivity|split; reflexivity]. Qed.

(** *** Flips, transposition and rotation commute with an overlay *)

Lemma zip_with_app {A B C} (f : A -> B -> C) xs xs' ys ys' :
  length xs = length ys ->
  zip_with f (xs ++ xs') (ys ++ ys') = zip_with f xs ys ++ zip_with f xs' ys'.
Proof.
  revert ys.
  induction xs as [|x xs IH]; intros [|y ys] E; simpl in *;
    try discriminate; auto.
  f_equal. apply IH. now injection E.
Qed.

Lemma rev_zip_with {A B C} (f : A -> B -> C) xs ys :
  length xs = length ys ->
  rev (zip_with f xs ys) = zip_with f (rev xs) (rev ys).
Proof.
  revert ys.
  induction xs as [|x xs IH]; intros [|y ys] E; simpl in *;
    try discriminate; auto.
  injection E as E.
  rewrite zip_with_app by (now rewrite !length_rev).
  now rewrite IH.
Qed.






Lemma length_transpose_rows {A} w (rs : list (list A)) :
  Forall (fun row => length row = w) rs ->
  length (transpose_rows w rs) = w.
Proof.
  induction 1 as [|row rs Hrow _ IH]; simpl.
  - apply repeat_length.
  - rewrite length_zip_with; congruence.
Qed.

Lemma transpose_rows_heights {A} w (rs : list (list A)) :
  Forall (fun row => length row = w) rs ->
  Forall (fun col => length col = length rs) (transpose_rows w rs).
Proof.
  induction 1 as [|row rs Hrow Hrs IH]; simpl.
  - apply Forall_forall. intros col Hin. apply repeat_spec in Hin.
    now subst.
  - pose proof (length_transpose_rows w rs Hrs) as Hlen.
    revert Hrow Hlen IH. generalize (transpose_rows w rs) as cols.
    clear. revert w.
    induction row as [|x row IHrow]; intros w [|col cols] Hrow Hlen Hcols;
      simpl in *; auto.
    inversion Hcols; subst. constructor; [simpl; congruence|].
    eapply (IHrow (length row)); auto; simpl in *; congruence.
Qed.

Lemma transpose_rows_rev {A} w (rs : list (list A)) :
  Forall (fun row => length row = w) rs ->
  transpose_rows w (map (@rev A) rs) = rev (transpose_rows w rs).
Proof.
  induction 1 as [|row rs Hrow Hrs IH]; simpl.
  - symmetry. apply rev_repeat.
  - rewrite IH, rev_zip_with; [reflexivity|].
    rewrite length_transpose_rows; auto.
Qed.

Lemma has_shape_flip0 {A} h w (m : ndarray A) :
  has_shape h w m -> has_shape h w (np_flip0 m).
Proof.
  intros (Hh & Hw & Hlen & Hrows). repeat split; simpl; auto.
  - now rewrite length_rev.
  - now apply Forall_rev.
Qed.

Lemma has_shape_flip1 {A} h w (m : ndarray A) :
  has_shape h w m -> has_shape h w (np_flip1 m).
Proof.
  intros (Hh & Hw & Hlen & Hrows). repeat split; simpl; auto.
  - now rewrite length_map.
  - rewrite Forall_map. eapply Forall_impl; [|exact Hrows].
    intros row E. now rewrite length_rev.
Qed.

Lemma has_shape_transpose {A} h w (m : ndarray A) :
  has_shape h w m -> has_shape w h (nd_transpose m).
Proof.
  intros (Hh & Hw & Hlen & Hrows). repeat split; simpl; auto.
  - now apply length_transpose_rows.
  - rewrite <- Hlen. now apply transpose_rows_heights.
Qed.






(** *** Pillow and NumPy agree wherever Pillow transposes losslessly *)

Lemma quarter_turn_angle k : (k * 90) mod 360 = 90 * (k mod 4).
Proof.
  pose proof (Z.div_mod k 4 ltac:(lia)) as Hk.
  pose proof (Z.mod_pos_bound k 4 ltac:(lia)) as Hb.
  replace (k * 90) with (90 * (k mod 4) + (k / 4) * 360) by lia.
  rewrite Z_mod_plus_full. apply Z.mod_small. lia.
Qed.

Lemma even_quarter_turns k :
  Z.even k = true -> k mod 4 = 0 \/ k mod 4 = 2.
Proof.
  intros He. apply Z.even_spec in He. destruct He as [j ->].
  pose proof (Z.mod_pos_bound (2 * j) 4 ltac:(lia)) as Hb.
  pose proof (Z.div_mod (2 * j) 4 ltac:(lia)) as Hd.
  lia.
Qed.

(** A square raster, or an even number of quarter turns on any raster. *)
Lemma pil_rotate_lossless `{Imaging} h w (im : image) k :
  has_shape h w im -> h = w \/ Z.even k = true ->
  pil_rotate im (k * 90) = np_rot90 im k.
Proof.
  intros (Hh & Hw & Hlen & Hrows) Hcase.
  unfold pil_rotate, np_rot90. rewrite quarter_turn_angle.
  pose proof (Z.mod_pos_bound k 4 ltac:(lia)) as Hb.
  assert (Hm : k mod 4 = 0 \/ k mod 4 = 2 \/
               (h = w /\ (k mod 4 = 1 \/ k mod 4 = 3))).
  { destruct Hcase as [E|E]; [lia|].
    destruct (even_quarter_turns k E); auto. }
  destruct Hm as [E|[E|[Esq [E|E]]]]; rewrite E; simpl.
  - reflexivity.
  - unfold ROTATE_180, np_flip1, np_flip0; simpl. f_equal.
    symmetry. apply map_rev.
  - rewrite Hh, Hw, Esq, Nat.eqb_refl.
    unfold ROTATE_90, nd_transpose, np_flip1; simpl. f_equal.
    symmetry. now apply transpose_rows_rev.
  - rewrite Hh, Hw, Esq, Nat.eqb_refl. reflexivity.
Qed.

Lemma apply_geometry_image_lossless `{Imaging} h w d (im : image) :
  has_shape h w im -> h = w \/ Z.even (quarter_turns d) = true ->
  apply_geometry_image d im = apply_geometry d im.
Proof.
  intros Hs Hcase. unfold apply_geometry_image, apply_geometry.
  change (FLIP_LEFT_RIGHT im) with (np_fliplr im).
  set (im1 := if hflip d then np_fliplr im else im).
  assert (H1 : has_shape h w im1)
    by (subst im1; destruct (hflip d); auto using has_shape_flip1).
  change (FLIP_TOP_BOTTOM im1) with (np_flipud im1).
  set (im2 := if vflip d then np_flipud im1 else im1).
  assert (H2 : has_shape h w im2)
    by (subst im2; destruct (vflip d); auto using has_shape_flip0).
  destruct (quarter_turns d >? 0); [|reflexivity].
  now apply pil_rotate_lossless with (h := h) (w := w).
Qed.







(* ================================================================== *)
(** * Further properties of the modelled code *)

(* ------------------------------------------------------------------ *)
(** ** Failure behaviour *)

(** X1.  [generate_cost_map] returns on no input.  Whenever the OpenCV
    calls before it succeed, the exception that leaves the function is the
    [AttributeError] of the colour map. *)
Theorem generate_cost_map_never_returns `{Imaging} (seg_mask : ndarray Z)
    (terrain_classes : list terrain_class) (blur_kernel : Z) :
  (forall out,
     generate_cost_map seg_mask terrain_classes blur_kernel <> Ok out) /\
  (forall g hm hm',
     cv2_GaussianBlur (cost_lookup seg_mask terrain_classes) blur_kernel
       = Ok g ->
     cv2_applyColorMap_JET
       (nd_map (fun c => uint8 (Qtrunc (c * 255)))
               (nd_map (fun c => Qclip c 0 1) g)) = Ok hm ->
     cv2_cvtColor_BGR2RGB hm = Ok hm' ->
     generate_cost_map seg_mask terrain_classes blur_kernel
       = Raise AttributeError).
Proof.
  split.
  - intros out Hout.
    destruct (generate_cost_map_raises seg_mask terrain_classes blur_kernel)
      as [e He].
    congruence.
  - intros g hm hm' Hblur Hjet Hcvt.
    unfold generate_cost_map. rewrite Hblur. cbn [bind].
    unfold create_cost_heatmap. rewrite Hjet. cbn [bind].
    rewrite Hcvt. cbn [bind].
    now rewrite apply_terrain_colormap_raises.
Qed.

Lemma generate_cost_map_never_returns_witness :
  @generate_cost_map ref_imaging (mk_ndarray 1 2 [[3; 9]])
    SEGMENTATION_TERRAIN_CLASSES 5 = Raise AttributeError.
Proof.
  destruct (@generate_cost_map_never_returns ref_imaging
              (mk_ndarray 1 2 [[3; 9]]) SEGMENTATION_TERRAIN_CLASSES 5)
    as [_ Hraise].
  eapply Hraise; reflexivity.
Defined.

(** X2.  A negative seed makes every generator, the composite and the
    terrain endpoint raise [ValueError]: the random generator refuses the
    seed before any grid is built. *)
Theorem negative_seed_is_rejected `{Libm} `{Generator} (preset : string)
    (size seed : Z) :
  seed < 0 ->
  gen_desert size seed = Raise ValueError /\
  gen_rocky size seed = Raise ValueError /\
  gen_mixed size seed = Raise ValueError /\
  gen_random size seed = Raise ValueError /\
  get_terrain preset size seed = Raise ValueError.
Proof.
  intros Hseed.
  destruct (negative_seed_raises size seed Hseed) as (Hd & Hr & Hm).
  repeat split; auto.
  - unfold gen_random.
    destruct (seed mod 3 =? 0); [exact Hd|].
    destruct (seed mod 3 =? 1); [exact Hr|exact Hm].
  - unfold get_terrain.
    destruct (String.eqb preset "desert"); [now rewrite Hd|].
    destruct (String.eqb preset "rocky"); [now rewrite Hr|now rewrite Hm].
Qed.

Lemma negative_seed_is_rejected_witness :
  -1 < 0 /\
  @get_terrain ref_libm ref_generator "mixed" 48 (-1) = Raise ValueError.
Proof.
  split; [lia|].
  apply (@negative_seed_is_rejected ref_libm ref_generator "mixed" 48 (-1)).
  lia.
Defined.

(** X3.  A negative grid size, with a non-negative seed whose triple fits
    the 64-bit index arrays ([seed * 3 < 2^63]), makes every generator
    raise [ValueError], from [np.full], after the noise fields have been
    computed on empty coordinate grids. *)
Theorem negative_size_is_rejected `{Libm} `{Generator} (size seed : Z) :
  size < 0 -> 0 <= seed -> seed * 3 < 2 ^ 63 ->
  gen_desert size seed = Raise ValueError /\
  gen_rocky size seed = Raise ValueError /\
  gen_mixed size seed = Raise ValueError /\
  gen_random size seed = Raise ValueError.
Proof.
  intros Hsize Hseed Hfit.
  assert (Hfull : forall v : Z, np_full size size v = Raise ValueError).
  { intros v. unfold np_full.
    destruct (size <? 0) eqn:E; [reflexivity|apply Z.ltb_ge in E; lia]. }
  assert (Hd : gen_desert size seed = Raise ValueError).
  { unfold gen_desert.
    destruct (np_meshgrid (unit_coords size) (unit_coords size)) as [X Zc].
    destruct (np_meshgrid (np_arange size) (np_arange size)) as [I_ J_].
    destruct (sine_noise_defined X Zc
                [(3, 2.5, 0.4); (9, 7, 0.2); (16, 12, 0.08)]%Q seed Hseed)
      as [wave ->].
    destruct (nd_addZ_defined I_ seed) as [gx ->]; [lia|].
    destruct (nd_addZ_defined J_ (seed * 2)) as [gy ->]; [lia|].
    cbn [bind]. now rewrite Hfull. }
  assert (Hr : gen_rocky size seed = Raise ValueError).
  { unfold gen_rocky.
    destruct (np_meshgrid (unit_coords size) (unit_coords size)) as [X Zc].
    destruct (np_meshgrid (np_arange size) (np_arange size)) as [I_ J_].
    destruct (sine_noise_defined X Zc
                [(5, 4, 0.55); (10, 8, 0.25); (20, 15, 0.1)]%Q seed Hseed)
      as [wave ->].
    destruct (nd_addZ_defined (nd_mulZ I_ 2) seed) as [gx ->]; [lia|].
    destruct (nd_addZ_defined (nd_mulZ J_ 3) seed) as [gy ->]; [lia|].
    cbn [bind]. now rewrite Hfull. }
  assert (Hm : gen_mixed size seed = Raise ValueError).
  { unfold gen_mixed.
    destruct (gen_mixed_fields_defined size seed Hseed Hfit) as [f ->].
    cbn [bind]. unfold gen_mixed_zones. now rewrite Hfull. }
  repeat split; auto.
  unfold gen_random.
  destruct (seed mod 3 =? 0); [exact Hd|].
  destruct (seed mod 3 =? 1); [exact Hr|exact Hm].
Qed.

Lemma negative_size_is_rejected_witness :
  -3 < 0 /\ 0 <= 7 /\ 7 * 3 < 2 ^ 63 /\
  @gen_random ref_libm ref_generator (-3) 7 = Raise ValueError.
Proof.
  split; [lia|]. split; [lia|]. split; [reflexivity|].
  apply (@negative_size_is_rejected ref_libm ref_generator (-3) 7);
    [lia|lia|reflexivity].
Defined.

(* ------------------------------------------------------------------ *)
(** ** What the styles can and cannot produce *)

Lemma gen_desert_cells `{Libm} `{Generator} (P : Z -> Prop) size seed g :
  P 3 -> P 0 -> P 1 -> P 2 -> P 4 -> P 9 ->
  gen_desert size seed = Ok g -> all_cells P g.
Proof.
  intros P3 P0 P1 P2 P4 P9. unfold gen_desert.
  destruct (np_meshgrid (unit_coords size) (unit_coords size)) as [X Zc].
  destruct (np_meshgrid (np_arange size) (np_arange size)) as [I_ J_].
  destruct (_sine_noise X Zc _ seed) as [wave|e]; [|discriminate].
  cbn [bind].
  destruct (nd_addZ I_ seed) as [gx|e]; [|discriminate]. cbn [bind].
  destruct (nd_addZ J_ (seed * 2)) as [gy|e]; [|discriminate]. cbn [bind].
  destruct (np_full size size (uint8 3)) as [l0|e] eqn:Ef; [|discriminate].
  apply all_cells_full with (P := P) in Ef; [|exact P3].
  cbn [bind]. intros E; injection E as <-.
  repeat (apply all_cells_set_where; [assumption|]). exact Ef.
Qed.

Lemma gen_rocky_cells `{Libm} `{Generator} (P : Z -> Prop) size seed g :
  P 0 -> P 9 -> P 8 -> P 6 -> P 3 -> P 2 -> P 1 ->
  gen_rocky size seed = Ok g -> all_cells P g.
Proof.
  intros P0 P9 P8 P6 P3 P2 P1. unfold gen_rocky.
  destruct (np_meshgrid (unit_coords size) (unit_coords size)) as [X Zc].
  destruct (np_meshgrid (np_arange size) (np_arange size)) as [I_ J_].
  destruct (_sine_noise X Zc _ seed) as [wave|e]; [|discriminate].
  cbn [bind].
  destruct (nd_addZ (nd_mulZ I_ 2) seed) as [gx|e]; [|discriminate].
  cbn [bind].
  destruct (nd_addZ (nd_mulZ J_ 3) seed) as [gy|e]; [|discriminate].
  cbn [bind].
  destruct (np_full size size (uint8 0)) as [l0|e] eqn:Ef; [|discriminate].
  apply all_cells_full with (P := P) in Ef; [|exact P0].
  cbn [bind]. intros E; injection E as <-.
  repeat (apply all_cells_set_where; [assumption|]). exact Ef.
Qed.

(** X4.  The desert style only ever produces Rock, Bush, Log, Sand,
    Landscape and Obstacle: no Clear, Gravel, Water or Vegetation cell.
    The rocky style only ever produces Rock, Bush, Log, Sand, Gravel,
    Vegetation and Obstacle: no Landscape, Clear or Water cell. *)
Theorem style_palettes `{Libm} `{Generator} (size seed : Z) :
  (forall g r c v,
     gen_desert size seed = Ok g -> nd_get g r c = Some v ->
     In v [0; 1; 2; 3; 4; 9]) /\
  (forall g r c v,
     gen_rocky size seed = Ok g -> nd_get g r c = Some v ->
     In v [0; 1; 2; 3; 6; 8; 9]).
Proof.
  split; intros g r c v Hg Hv.
  - apply (all_cells_get (fun v => In v [0; 1; 2; 3; 4; 9]) g r c v);
      [|exact Hv].
    apply (gen_desert_cells _ size seed); auto; simpl; tauto.
  - apply (all_cells_get (fun v => In v [0; 1; 2; 3; 6; 8; 9]) g r c v);
      [|exact Hv].
    apply (gen_rocky_cells _ size seed); auto; simpl; tauto.
Qed.

Lemma style_palettes_witness :
  exists g v,
    @gen_rocky ref_libm ref_generator 5 7 = Ok g /\
    nd_get g 0 2 = Some v /\ In v [0; 1; 2; 3; 6; 8; 9].
Proof.
  destruct (@gen_rocky_defined ref_libm ref_generator 5 7) as [g Hg];
    [lia|lia|reflexivity|].
  destruct (gen_rocky_inv 5 7 g Hg) as [Hs _].
  destruct (nd_get_defined _ _ g 0 2 Hs) as [v Hv];
    [apply Nat.ltb_lt; reflexivity|apply Nat.ltb_lt; reflexivity|].
  exists g, v. split; [exact Hg|]. split; [exact Hv|].
  destruct (@style_palettes ref_libm ref_generator 5 7) as [_ Hrocky].
  exact (Hrocky g 0%nat 2%nat v Hg Hv).
Defined.

Lemma gen_mixed_zones_obstacle `{Libm} size f l0 r c x :
  let n := Z.to_nat size in
  has_shape n n (mX f) -> has_shape n n (mZ f) ->
  has_shape n n (mwave f) -> has_shape n n (mr f) ->
  gen_mixed_zones f size = Ok l0 ->
  nd_get (mr f) r c = Some x -> fl_gtb x (Fin 0.97) = true ->
  nd_get l0 r c = Some 9.
Proof.
  intros n HX HZ Hwave Hr. unfold gen_mixed_zones.
  destruct (np_full size size (uint8 4)) as [l|e] eqn:Ef; [|discriminate].
  pose proof (has_shape_full _ _ _ _ Ef) as Hl.
  cbn [bind]. intros E Hx Hgt; injection E as <-. cbv zeta.
  destruct (nd_get_bounds _ _ _ _ _ _ Hr Hx) as [Hrow Hcol].
  match goal with
  | |- nd_get (set_where _ _ ?big) _ _ = _ =>
      assert (Hbig : has_shape n n big)
        by (unfold set_where, nd_and, nd_gt, nd_lt, nd_ge, nd_abs,
              nd_sub_scalar; shape)
  end.
  match type of Hbig with
  | has_shape _ _ ?big =>
      destruct (nd_get_defined _ _ big r c Hbig Hrow Hcol) as [y Hy]
  end.
  eapply set_where_hit; [|exact Hy].
  unfold nd_gt. rewrite nd_get_map, Hx. cbn [option_map]. now rewrite Hgt.
Qed.

(** X5.  In the mixed style a cell whose pseudo-random value exceeds 0.97
    always ends as Obstacle: the edge-obstacle rule overrides every zone
    before it, and the two rules after it only touch Landscape cells. *)
Theorem mixed_obstacles_dominate `{Libm} `{Generator} (size seed : Z)
    (f : mixed_fields) (g : ndarray Z) (r c : nat) (x : npfloat) :
  gen_mixed_fields size seed = Ok f ->
  gen_mixed size seed = Ok g ->
  nd_get (mr f) r c = Some x -> fl_gtb x (Fin 0.97) = true ->
  nd_get g r c = Some 9.
Proof.
  intros Hf Hg Hx Hgt.
  pose proof (gen_mixed_fields_inv _ _ _ Hf) as (HX & HZ & Hw & Hr).
  simpl in HX, HZ, Hw, Hr.
  unfold gen_mixed in Hg. rewrite Hf in Hg. cbn [bind] in Hg.
  destruct (gen_mixed_zones f size) as [l0|e] eqn:Ez; [|discriminate].
  cbn [bind] in Hg. injection Hg as <-.
  pose proof (gen_mixed_zones_obstacle size f l0 r c x HX HZ Hw Hr Ez Hx Hgt)
    as H9.
  destruct (gen_mixed_zones_inv size f l0 HX HZ Hw Hr Ez) as [Hs0 Hc0].
  destruct (gravel_path_rule_inv _ _ f l0 HX HZ Hs0 Hc0) as [Hs1 _].
  eapply sand_strip_rule_frame; eauto; [|discriminate].
  eapply gravel_path_rule_frame; eauto. discriminate.
Qed.

Lemma mixed_obstacles_dominate_witness :
  let f :=
    result_get (mk_mixed_fields empty_grid empty_grid empty_grid empty_grid)
               (@gen_mixed_fields saw_libm ref_generator 8 5) in
  let g := result_get empty_grid (@gen_mixed saw_libm ref_generator 8 5) in
  exists x,
    nd_get (mr f) 2 6 = Some x /\ fl_gtb x (Fin 0.97) = true /\
    nd_get g 2 6 = Some 9.
Proof.
  intros f g.
  destruct (nd_get (mr f) 2 6) as [x|] eqn:Hx;
    [|vm_compute in Hx; discriminate].
  assert (Hgt : fl_gtb x (Fin 0.97) = true).
  { vm_compute in Hx. injection Hx as <-. reflexivity. }
  exists x. split; [reflexivity|]. split; [exact Hgt|].
  apply (@mixed_obstacles_dominate saw_libm ref_generator 8 5 f g 2 6 x);
    [reflexivity|reflexivity|exact Hx|exact Hgt].
Defined.

(* ------------------------------------------------------------------ *)
(** ** Cost lookup on registry ids *)

Lemma cost_fold_shape h w seg_mask registry grid :
  has_shape h w seg_mask -> has_shape h w grid ->
  has_shape h w
    (fold_left
       (fun cost_grid cls =>
          set_where (nd_eqZ seg_mask (id cls)) (cost cls) cost_grid)
       registry grid).
Proof.
  intros Hm. revert grid.
  induction registry as [|cls registry IH]; intros grid Hg; simpl; auto.
  apply IH. apply has_shape_set_where; auto.
  unfold nd_eqZ. now apply has_shape_map.
Qed.

(** X6.  The cost lookup gives a cell the cost of the last class of the
    registry that carries the cell's id; with unique ids, the cost of the
    class with that id. *)
Theorem cost_lookup_last_match (seg_mask : ndarray Z)
    (before after : list terrain_class) (cls : terrain_class) (r c : nat) :
  well_shaped seg_mask ->
  nd_get seg_mask r c = Some (id cls) ->
  (forall other, In other after -> id other <> id cls) ->
  nd_get (cost_lookup seg_mask (before ++ cls :: after)) r c
    = Some (cost cls).
Proof.
  intros Hws Hv Hafter.
  assert (Hs : has_shape (nrows seg_mask) (ncols seg_mask) seg_mask)
    by (repeat split; apply Hws).
  destruct (nd_get_bounds _ _ _ _ _ _ Hs Hv) as [Hr Hc].
  unfold cost_lookup. rewrite fold_left_app. cbn [fold_left].
  set (grid := fold_left _ before _).
  assert (Hg : has_shape (nrows seg_mask) (ncols seg_mask) grid)
    by (subst grid; apply cost_fold_shape; auto using has_shape_zeros).
  destruct (nd_get_defined _ _ grid r c Hg Hr Hc) as [x Hx].
  eapply cost_lookup_fold_frame; eauto.
  - apply has_shape_set_where; auto.
    unfold nd_eqZ. now apply has_shape_map.
  - eapply set_where_hit; [|exact Hx].
    unfold nd_eqZ. rewrite nd_get_map, Hv. cbn [option_map].
    now rewrite Z.eqb_refl.
Qed.

Lemma cost_lookup_last_match_witness :
  nd_get (cost_lookup (mk_ndarray 1 2 [[7; 5]]) SEGMENTATION_TERRAIN_CLASSES)
         0 0 = Some 0.95%Q.
Proof.
  assert (Hws : well_shaped (mk_ndarray 1 2 [[7; 5]]))
    by (split; simpl; auto).
  apply (cost_lookup_last_match (mk_ndarray 1 2 [[7; 5]])
           (firstn 7 SEGMENTATION_TERRAIN_CLASSES)
           (skipn 8 SEGMENTATION_TERRAIN_CLASSES)
           (mk_class 7 "Water" (0x41, 0x69, 0xE1) 0.95 false) 0 0 Hws eq_refl).
  intros other Hin. simpl in Hin.
  repeat (destruct Hin as [<-|Hin]; [discriminate|]). contradiction.
Defined.

(* ------------------------------------------------------------------ *)
(** ** Height ranges *)

(** X7.  With noise in [[0, 1)], as [rng.random] draws it, every height
    lies in [[-0.25, 1.2)], and a cell is below zero exactly when it is
    Water. *)
Theorem height_range (labels : ndarray Z) (noise : ndarray Q) (h w : nat) :
  has_shape h w labels -> has_shape h w noise -> (0 < h * w)%nat ->
  all_cells valid_id labels ->
  all_cells (fun u => 0 <= u /\ u < 1)%Q noise ->
  exists hm,
    height_map labels noise = Ok hm /\
    forall r c cid x,
      nd_get labels r c = Some cid -> nd_get hm r c = Some x ->
      (-0.25 <= x /\ x < 1.2)%Q /\ ((x < 0)%Q <-> cid = 7).
Proof.
  intros Hs Hn Hpos Hids Hnoise.
  eexists. split; [now apply (height_map_formula h w)|].
  intros r c cid x Hcid Hx.
  destruct (nd_get_bounds _ _ _ _ _ _ Hs Hcid) as [Hr Hc].
  destruct (nd_get_defined _ _ noise r c Hn Hr Hc) as [u Hu].
  rewrite nd_get_map2, nd_get_map, Hcid in Hx. cbn [option_map] in Hx.
  rewrite nd_get_map2, nd_get_map, Hcid, Hu in Hx. cbn [option_map] in Hx.
  injection Hx as <-.
  pose proof (all_cells_get _ _ _ _ _ Hids Hcid) as [H0 H9].
  pose proof (all_cells_get _ _ _ _ _ Hnoise Hu) as [Hu0 Hu1].
  assert (Hcases : cid = 0 \/ cid = 1 \/ cid = 2 \/ cid = 3 \/ cid = 4 \/
                   cid = 5 \/ cid = 6 \/ cid = 7 \/ cid = 8 \/ cid = 9)
    by lia.
  unfold class_base, class_variance.
  repeat (destruct Hcases as [->|Hcases]);
    try subst cid; simpl;
    (split; [split; lra|split; [intros Hneg; try reflexivity; lra
                               |intros E; try discriminate; lra]]).
Qed.

Lemma height_range_witness :
  exists hm,
    height_map (mk_ndarray 1 2 [[7; 0]]) (mk_ndarray 1 2 [[0.5; 0.5]]%Q)
      = Ok hm /\
    forall x, nd_get hm 0 0 = Some x -> (x < 0)%Q.
Proof.
  set (labels := mk_ndarray 1 2 [[7; 0]]).
  set (noise := mk_ndarray 1 2 [[0.5; 0.5]]%Q).
  assert (Hs : has_shape 1 2 labels)
    by (repeat split; simpl; auto; repeat constructor).
  assert (Hn : has_shape 1 2 noise)
    by (repeat split; simpl; auto; repeat constructor).
  assert (Hids : all_cells valid_id labels)
    by (repeat constructor; unfold valid_id; lia).
  assert (Hnoise : all_cells (fun u => 0 <= u /\ u < 1)%Q noise)
    by (repeat constructor; simpl; reflexivity || discriminate).
  destruct (height_range labels noise 1 2 Hs Hn ltac:(lia) Hids Hnoise)
    as (hm & Hhm & Hcells).
  exists hm. split; [exact Hhm|].
  intros x Hx. now apply (Hcells 0%nat 0%nat 7 x eq_refl Hx).
Defined.

(* ------------------------------------------------------------------ *)
(** ** What augmentation preserves *)

Lemma concat_repeat_nil {A} w : concat (repeat (@nil A) w) = [].
Proof. induction w as [|w IH]; simpl; auto. Qed.

Lemma perm_concat_zip_cons {A} (row : list A) cols :
  length row = length cols ->
  Permutation (concat (zip_with cons row cols)) (row ++ concat cols).
Proof.
  revert cols.
  induction row as [|x row IH]; intros [|col cols] E; simpl in *;
    try discriminate; auto.
  injection E as E. constructor.
  rewrite (IH cols E). apply Permutation_app_swap_app.
Qed.

Lemma perm_concat_transpose {A} w (rs : list (list A)) :
  Forall (fun row => length row = w) rs ->
  Permutation (concat (transpose_rows w rs)) (concat rs).
Proof.
  induction 1 as [|row rs Hrow Hrs IH]; simpl.
  - now rewrite concat_repeat_nil.
  - rewrite perm_concat_zip_cons
      by (rewrite length_transpose_rows; auto).
    now apply Permutation_app_head.
Qed.

Lemma perm_concat_rev {A} (rs : list (list A)) :
  Permutation (concat (rev rs)) (concat rs).
Proof.
  induction rs as [|row rs IH]; simpl; auto.
  rewrite concat_app. simpl. rewrite app_nil_r, IH.
  apply Permutation_app_comm.
Qed.

Lemma perm_concat_map_rev {A} (rs : list (list A)) :
  Permutation (concat (map (@rev A) rs)) (concat rs).
Proof.
  induction rs as [|row rs IH]; simpl; auto.
  apply Permutation_app; [symmetry; apply Permutation_rev|exact IH].
Qed.

Lemma perm_flatten_rot90 {A} h w (m : ndarray A) k :
  has_shape h w m -> Permutation (flatten (np_rot90 m k)) (flatten m).
Proof.
  intros (Hh & Hw & Hlen & Hrows). unfold np_rot90, flatten.
  destruct (k mod 4 =? 0); [reflexivity|].
  destruct (k mod 4 =? 2); [|destruct (k mod 4 =? 1)]; simpl.
  - rewrite perm_concat_map_rev. apply perm_concat_rev.
  - rewrite perm_concat_transpose; [apply perm_concat_map_rev|].
    rewrite Forall_map. eapply Forall_impl; [|exact Hrows].
    intros row E. now rewrite length_rev.
  - rewrite perm_concat_map_rev. now apply perm_concat_transpose.
Qed.

Lemma has_shape_rot90_square {A} n (m : ndarray A) k :
  has_shape n n m -> has_shape n n (np_rot90 m k).
Proof.
  intros Hs. unfold np_rot90.
  destruct (k mod 4 =? 0); [exact Hs|].
  destruct (k mod 4 =? 2); [|destruct (k mod 4 =? 1)];
    auto using has_shape_flip0, has_shape_flip1, has_shape_transpose.
Qed.

Lemma has_shape_apply_geometry_square {A} n d (m : ndarray A) :
  has_shape n n m -> has_shape n n (apply_geometry d m).
Proof.
  intros Hs. unfold apply_geometry, np_fliplr, np_flipud.
  destruct (hflip d), (vflip d), (quarter_turns d >? 0);
    auto using has_shape_flip0, has_shape_flip1, has_shape_rot90_square.
Qed.

(** X8.  Augmentation only moves label cells: the returned label holds
    exactly the cells of the input label, each as often as before, so the
    class histogram of a sample is unchanged and no class id is invented
    or lost. *)
Theorem augment_permutes_labels `{IEEE754} `{Imaging} `{Generator}
    (img : image) (label : ndarray Z) (rng : rng_state) :
  well_shaped label ->
  exists img' label' rng',
    augment_image img label rng = Ok (img', label', rng') /\
    Permutation (flatten label') (flatten label).
Proof.
  intros Hws.
  do 3 eexists. split; [apply augment_image_draws|].
  set (d := fst (recorded_draws rng)).
  assert (Hs : has_shape (nrows label) (ncols label) label)
    by (repeat split; apply Hws).
  unfold apply_geometry, np_fliplr, np_flipud.
  set (l1 := if hflip d then np_flip1 label else label).
  assert (Hl1 : has_shape (nrows label) (ncols label) l1 /\
               Permutation (flatten l1) (flatten label)).
  { subst l1. destruct (hflip d); [|split; auto].
    split; [now apply has_shape_flip1|apply perm_concat_map_rev]. }
  destruct Hl1 as [Hs1 Hp1].
  set (l2 := if vflip d then np_flip0 l1 else l1).
  assert (Hl2 : has_shape (nrows label) (ncols label) l2 /\
               Permutation (flatten l2) (flatten label)).
  { subst l2. destruct (vflip d); [|split; auto].
    split; [now apply has_shape_flip0|].
    rewrite <- Hp1. apply perm_concat_rev. }
  destruct Hl2 as [Hs2 Hp2].
  destruct (quarter_turns d >? 0); [|exact Hp2].
  rewrite <- Hp2. now apply (perm_flatten_rot90 (nrows label) (ncols label)).
Qed.

Lemma augment_permutes_labels_witness :
  exists img' label' rng',
    @augment_image ref_ieee754 ref_imaging ref_generator
      (mk_ndarray 1 1 [[(1, 2, 3)]]) (mk_ndarray 2 3 [[1; 2; 3]; [4; 5; 6]])
      1234567 = Ok (img', label', rng') /\
    Permutation (flatten label') [1; 2; 3; 4; 5; 6].
Proof.
  apply (@augment_permutes_labels ref_ieee754 ref_imaging ref_generator).
  split; simpl; auto.
Defined.

(** X9.  On a square image with a label of the same square shape, both
    rasters come back with that shape, so the pair can be saved as
    same-sized files. *)
Theorem augment_keeps_square_shape `{IEEE754} `{Imaging} `{Generator}
    (img : image) (label : ndarray Z) (rng : rng_state) (n : nat) :
  has_shape n n img -> has_shape n n label ->
  exists img' label' rng',
    augment_image img label rng = Ok (img', label', rng') /\
    has_shape n n img' /\ has_shape n n label'.
Proof.
  intros Hi Hl.
  do 3 eexists. split; [apply augment_image_draws|].
  split.
  - unfold color_jitter. apply has_shape_map.
    rewrite (apply_geometry_image_lossless n n) by auto.
    now apply has_shape_apply_geometry_square.
  - now apply has_shape_apply_geometry_square.
Qed.

Lemma augment_keeps_square_shape_witness :
  exists img' label' rng',
    @augment_image ref_ieee754 ref_imaging ref_generator
      (mk_ndarray 2 2 [[(1, 2, 3); (4, 5, 6)]; [(7, 8, 9); (10, 11, 12)]])
      (mk_ndarray 2 2 [[1; 2]; [3; 4]]) 1234567 = Ok (img', label', rng') /\
    has_shape 2 2 img' /\ has_shape 2 2 label'.
Proof.
  apply (@augment_keeps_square_shape ref_ieee754 ref_imaging ref_generator);
    repeat split; simpl; auto; repeat constructor.
Defined.

(* ------------------------------------------------------------------ *)
(** ** Remapping and colouring a segmentation mask *)

(** The cascade of [_remap_classes] seen on one cell. *)
Lemma remap_classes_cell (mask : ndarray Z) r c v :
  nd_get mask r c = Some v ->
  nd_get (_remap_classes mask) r c =
  Some
    (let k := 0 in
     let k := if existsb (Z.eqb v) [13; 14; 17] then 0 else k in
     let k := if existsb (Z.eqb v) [4; 9; 17] then 1 else k in
     let k := if existsb (Z.eqb v) [5; 18] then 2 else k in
     let k := if existsb (Z.eqb v) [29; 46; 62] then 3 else k in
     let k := if existsb (Z.eqb v) [3; 13; 45] then 4 else k in
     let k := if existsb (Z.eqb v) [2] then 5 else k in
     let k := if existsb (Z.eqb v) [15; 53] then 6 else k in
     let k := if existsb (Z.eqb v) [21; 26] then 7 else k in
     let k := if existsb (Z.eqb v) [4; 17; 67] then 8 else k in
     let k := if existsb (Z.eqb v) [19; 20; 33] then 9 else k in
     k).
Proof.
  intros Hv. unfold _remap_classes, set_where, np_isin. cbv zeta.
  repeat rewrite nd_get_map2.
  repeat rewrite nd_get_map. rewrite Hv.
  cbn [option_map]. reflexivity.
Qed.

(** Case analysis on an ADE20K id: one of the listed constants, or none. *)
Ltac ade_cases v :=
  cbn [existsb];
  repeat match goal with
         | |- context [Z.eqb v ?k] =>
             destruct (Z.eqb_spec v k) as [->|?];
             [simpl; simpl In in *; lia|]
         end;
  simpl; simpl In in *; lia.

(** X10.  [_remap_classes] keeps the shape of the mask and sends every
    cell to a terrain id in [0 .. 9]; an ADE20K id that no rule lists
    becomes Rock (0), the value the output starts from. *)
Theorem remap_classes_closed (mask : ndarray Z) (r c : nat) (v : Z) :
  shape (_remap_classes mask) = shape mask /\
  (nd_get mask r c = Some v ->
   exists k, nd_get (_remap_classes mask) r c = Some k /\
             valid_id k /\ (~ In v ade_listed -> k = 0)).
Proof.
  split; [reflexivity|].
  intros Hv. eexists. split; [apply remap_classes_cell; exact Hv|].
  unfold valid_id, ade_listed. cbv zeta.
  split; [ade_cases v|].
  intros Hout. ade_cases v.
Qed.

Lemma remap_classes_closed_witness :
  nd_get (_remap_classes (mk_ndarray 1 3 [[100; 21; 0]])) 0 0 = Some 0.
Proof.
  destruct (remap_classes_closed (mk_ndarray 1 3 [[100; 21; 0]]) 0 0 100)
    as [_ Hcell].
  destruct (Hcell eq_refl) as (k & Hk & _ & Hdefault).
  rewrite Hk. f_equal. apply Hdefault.
  unfold ade_listed. simpl. intuition discriminate.
Defined.

(** X11.  Where two rules of [_remap_classes] list the same ADE20K id the
    later one wins: ids 4 and 17, listed for Bush, and 67 end as
    Vegetation; id 13, listed for Rock, ends as Landscape.  Hence Bush
    arises from id 9 alone, and Rock from id 14 and the unlisted ids. *)
Theorem remap_classes_overlaps (mask : ndarray Z) (r c : nat) (v k : Z) :
  nd_get mask r c = Some v ->
  nd_get (_remap_classes mask) r c = Some k ->
  (k = 1 <-> v = 9) /\
  (k = 8 <-> v = 4 \/ v = 17 \/ v = 67) /\
  (k = 4 <-> v = 3 \/ v = 13 \/ v = 45) /\
  (k = 0 <-> v = 14 \/ ~ In v ade_listed).
Proof.
  intros Hv Hk. rewrite (remap_classes_cell mask r c v Hv) in Hk.
  injection Hk as <-. unfold ade_listed. cbv zeta.
  split; [|split; [|split]]; ade_cases v.
Qed.

Lemma remap_classes_overlaps_witness :
  nd_get (_remap_classes (mk_ndarray 1 3 [[17; 13; 9]])) 0 0 = Some 8.
Proof.
  destruct (_remap_classes (mk_ndarray 1 3 [[17; 13; 9]])) as [h w rs] eqn:E.
  destruct (nd_get (mk_ndarray h w rs) 0 0) as [k|] eqn:Hk;
    [|rewrite <- E in Hk; vm_compute in Hk; discriminate].
  f_equal. rewrite <- E in Hk.
  destruct (remap_classes_overlaps (mk_ndarray 1 3 [[17; 13; 9]]) 0 0 17 k
              eq_refl Hk) as (_ & H8 & _).
  apply H8. tauto.
Defined.

Lemma remap_classes_valid (mask : ndarray Z) r c v :
  nd_get mask r c = Some v ->
  exists k, nd_get (_remap_classes mask) r c = Some k /\ valid_id k.
Proof.
  intros Hv. eexists. split; [apply remap_classes_cell; exact Hv|].
  unfold valid_id. cbv zeta. ade_cases v.
Qed.

Lemma remap_classes_well_shaped (mask : ndarray Z) :
  well_shaped mask -> well_shaped (_remap_classes mask).
Proof.
  intros Hws.
  assert (Hs : has_shape (nrows mask) (ncols mask) mask)
    by (repeat split; apply Hws).
  assert (Hr : has_shape (nrows mask) (ncols mask) (_remap_classes mask)).
  { unfold _remap_classes. cbv zeta.
    unfold set_where, np_isin; shape. }
  apply Hr.
Qed.

(** The loop of [_colorize_mask] seen on one cell. *)
Lemma colorize_mask_cell (mask : ndarray Z) r c v :
  well_shaped mask -> nd_get mask r c = Some v ->
  nd_get (_colorize_mask mask) r c =
  Some (if v =? 9 then nth 9 color_map (0, 0, 0)
        else if v =? 8 then nth 8 color_map (0, 0, 0)
        else if v =? 7 then nth 7 color_map (0, 0, 0)
        else if v =? 6 then nth 6 color_map (0, 0, 0)
        else if v =? 5 then nth 5 color_map (0, 0, 0)
        else if v =? 4 then nth 4 color_map (0, 0, 0)
        else if v =? 3 then nth 3 color_map (0, 0, 0)
        else if v =? 2 then nth 2 color_map (0, 0, 0)
        else if v =? 1 then nth 1 color_map (0, 0, 0)
        else if v =? 0 then nth 0 color_map (0, 0, 0)
        else (0, 0, 0)).
Proof.
  intros Hws Hv.
  assert (Hs : has_shape (nrows mask) (ncols mask) mask)
    by (repeat split; apply Hws).
  destruct (nd_get_bounds _ _ _ _ _ _ Hs Hv) as [Hr Hc].
  unfold _colorize_mask.
  change (length SEGMENTATION_TERRAIN_CLASSES) with 10%nat.
  cbn [seq fold_left]. unfold set_where, nd_eqZ.
  repeat rewrite nd_get_map2.
  repeat rewrite nd_get_map. rewrite Hv.
  rewrite (nd_get_zeros _ _ _ r c Hr Hc).
  cbn [option_map Z.of_nat Pos.of_succ_nat Pos.succ].
  reflexivity.
Qed.

(** X12.  [_colorize_mask] paints a cell with the colour of the registry
    class whose id the cell holds, and leaves a cell with any other value
    black. *)
Theorem colorize_mask_lookup (mask : ndarray Z) (r c : nat) (v : Z) :
  well_shaped mask -> nd_get mask r c = Some v ->
  (forall cls, In cls SEGMENTATION_TERRAIN_CLASSES -> id cls = v ->
     nd_get (_colorize_mask mask) r c = Some (rgb cls)) /\
  (~ valid_id v -> nd_get (_colorize_mask mask) r c = Some (0, 0, 0)).
Proof.
  intros Hws Hv. rewrite (colorize_mask_cell mask r c v Hws Hv).
  split.
  - intros cls Hin <-. simpl in Hin.
    repeat (destruct Hin as [<-|Hin]; [reflexivity|]). contradiction.
  - intros Hbad. unfold valid_id in Hbad.
    repeat match goal with
           | |- context [Z.eqb v ?k] =>
               destruct (Z.eqb_spec v k); [lia|]
           end.
    reflexivity.
Qed.

Lemma colorize_mask_lookup_witness :
  nd_get (_colorize_mask (mk_ndarray 1 2 [[7; 42]])) 0 0
    = Some (0x41, 0x69, 0xE1) /\
  nd_get (_colorize_mask (mk_ndarray 1 2 [[7; 42]])) 0 1 = Some (0, 0, 0).
Proof.
  assert (Hws : well_shaped (mk_ndarray 1 2 [[7; 42]]))
    by (split; simpl; auto).
  split.
  - destruct (colorize_mask_lookup (mk_ndarray 1 2 [[7; 42]]) 0 0 7 Hws
                eq_refl) as [Hknown _].
    apply (Hknown (mk_class 7 "Water" (0x41, 0x69, 0xE1) 0.95 false));
      [simpl; tauto|reflexivity].
  - destruct (colorize_mask_lookup (mk_ndarray 1 2 [[7; 42]]) 0 1 42 Hws
                eq_refl) as [_ Hunknown].
    apply Hunknown. unfold valid_id. lia.
Defined.

(** X13.  Colouring a remapped mask leaves no cell unpainted: whatever
    ADE20K ids the model predicts, every pixel of the segmentation image
    is the colour of a registry class, namely of the class the cell was
    remapped to, and never the black the image starts from. *)
Theorem colorized_remap_is_total (mask : ndarray Z) (r c : nat) (v : Z) :
  well_shaped mask -> nd_get mask r c = Some v ->
  exists cls,
    In cls SEGMENTATION_TERRAIN_CLASSES /\
    nd_get (_remap_classes mask) r c = Some (id cls) /\
    nd_get (_colorize_mask (_remap_classes mask)) r c = Some (rgb cls) /\
    rgb cls <> (0, 0, 0).
Proof.
  intros Hws Hv.
  destruct (remap_classes_valid mask r c v Hv) as (k & Hk & H0 & H9).
  pose proof (remap_classes_well_shaped mask Hws) as Hws'.
  rewrite (colorize_mask_cell _ r c k Hws' Hk).
  assert (Hcases : k = 0 \/ k = 1 \/ k = 2 \/ k = 3 \/ k = 4 \/
                   k = 5 \/ k = 6 \/ k = 7 \/ k = 8 \/ k = 9) by lia.
  repeat (destruct Hcases as [->|Hcases]); try subst k;
    match type of Hk with
    | _ = Some ?k0 =>
        exists (nth (Z.to_nat k0) SEGMENTATION_TERRAIN_CLASSES
                    (mk_class 0 "" (0, 0, 0) 0 false))
    end;
    (split; [simpl; tauto
            |split; [exact Hk|split; [reflexivity|discriminate]]]).
Qed.

Lemma colorized_remap_is_total_witness :
  exists cls,
    In cls SEGMENTATION_TERRAIN_CLASSES /\
    nd_get (_colorize_mask (_remap_classes (mk_ndarray 1 2 [[149; 21]]))) 0 0
      = Some (rgb cls).
Proof.
  assert (Hws : well_shaped (mk_ndarray 1 2 [[149; 21]]))
    by (split; simpl; auto).
  destruct (colorized_remap_is_total (mk_ndarray 1 2 [[149; 21]]) 0 0 149
              Hws eq_refl) as (cls & Hin & _ & Hcol & _).
  exists cls. split; [exact Hin|exact Hcol].
Defined.

(* ------------------------------------------------------------------ *)
(** ** The class distribution *)

Lemma insert_desc_perm x l : Permutation (insert_desc x l) (x :: l).
Proof.
  induction l as [|y l IH]; simpl; auto.
  destruct (Qle_bool (share_conf x) (share_conf y)); auto.
  rewrite IH. apply perm_swap.
Qed.

Lemma insert_desc_sorted x l :
  StronglySorted by_decreasing_share l ->
  StronglySorted by_decreasing_share (insert_desc x l).
Proof.
  induction 1 as [|y l Hl IH Hy]; simpl.
  - repeat constructor.
  - destruct (Qle_bool (share_conf x) (share_conf y)) eqn:E.
    + constructor; [exact IH|].
      rewrite (insert_desc_perm x l). constructor; [|exact Hy].
      now apply Qle_bool_iff.
    + assert (Hlt : (share_conf y <= share_conf x)%Q).
      { destruct (Qlt_le_dec (share_conf y) (share_conf x)) as [Hlt|Hle].
        - now apply Qlt_le_weak.
        - apply Qle_bool_iff in Hle. congruence. }
      constructor; [now constructor|].
      constructor; [exact Hlt|].
      eapply Forall_impl; [|exact Hy].
      intros z Hz. unfold by_decreasing_share in *.
      now apply Qle_trans with (share_conf y).
Qed.

Lemma sort_desc_fold l sorted :
  StronglySorted by_decreasing_share sorted ->
  StronglySorted by_decreasing_share
    (fold_left (fun sorted x => insert_desc x sorted) l sorted) /\
  Permutation (fold_left (fun sorted x => insert_desc x sorted) l sorted)
              (sorted ++ l).
Proof.
  revert sorted.
  induction l as [|x l IH]; intros sorted Hs; simpl.
  - split; [exact Hs|]. now rewrite app_nil_r.
  - destruct (IH (insert_desc x sorted) (insert_desc_sorted x sorted Hs))
      as [IH1 IH2].
    split; [exact IH1|].
    rewrite IH2, (insert_desc_perm x sorted).
    simpl. apply Permutation_middle.
Qed.

Lemma sort_desc_spec l :
  StronglySorted by_decreasing_share (sort_desc l) /\
  Permutation (sort_desc l) l.
Proof. apply (sort_desc_fold l []). constructor. Qed.

Lemma add_class_share_fold `{PyRound} mask classes acc e :
  In e (fold_left (add_class_share mask) classes acc) <->
  In e acc \/
  exists cls conf,
    In cls classes /\ class_coverage mask cls = Fin conf /\
    (0.01 < conf)%Q /\ e = share_entry cls conf.
Proof.
  revert acc.
  induction classes as [|cls classes IH]; intros acc; simpl.
  - split; [auto|]. intros [Hin|(cls & conf & [] & _)]. exact Hin.
  - rewrite IH. unfold add_class_share at 1.
    destruct (class_coverage mask cls) as [|conf] eqn:Ecov.
    + split.
      * intros [Hin|(cls' & conf' & Hin & Hrest)]; [auto|].
        right. exists cls', conf'. split; [now right|exact Hrest].
      * intros [Hin|(cls' & conf' & [<-|Hin] & Hc & Hrest)]; [auto| |].
        -- congruence.
        -- right. exists cls', conf'. auto.
    + destruct (Qlt_bool 0.01 conf) eqn:Egt.
      * assert (Hgt : (0.01 < conf)%Q).
        { unfold Qlt_bool in Egt. apply negb_true_iff in Egt.
          destruct (Qlt_le_dec 0.01 conf) as [Hlt|Hle]; [exact Hlt|].
          apply Qle_bool_iff in Hle. congruence. }
        split.
        -- intros [Hin|(cls' & conf' & Hin & Hrest)].
           ++ apply in_app_or in Hin. destruct Hin as [Hin|[<-|[]]]; [auto|].
              right. exists cls, conf. auto.
           ++ right. exists cls', conf'. split; [now right|exact Hrest].
        -- intros [Hin|(cls' & conf' & [<-|Hin] & Hc & Hlt & ->)].
           ++ left. apply in_or_app. now left.
           ++ left. apply in_or_app. right. left.
              rewrite Ecov in Hc. now injection Hc as <-.
           ++ right. exists cls', conf'. auto.
      * assert (Hle : (conf <= 0.01)%Q).
        { unfold Qlt_bool in Egt. apply negb_false_iff in Egt.
          now apply Qle_bool_iff. }
        split.
        -- intros [Hin|(cls' & conf' & Hin & Hrest)]; [auto|].
           right. exists cls', conf'. split; [now right|exact Hrest].
        -- intros [Hin|(cls' & conf' & [<-|Hin] & Hc & Hlt & ->)]; [auto| |].
           ++ rewrite Ecov in Hc. injection Hc as <-.
              exfalso. apply (Qlt_irrefl 0.01).
              now apply Qlt_le_trans with conf.
           ++ right. exists cls', conf'. auto.
Qed.

Lemma add_class_share_length `{PyRound} mask classes acc :
  (length (fold_left (add_class_share mask) classes acc)
   <= length acc + length classes)%nat.
Proof.
  revert acc.
  induction classes as [|cls classes IH]; intros acc; simpl; [lia|].
  etransitivity; [apply IH|].
  unfold add_class_share.
  destruct (class_coverage mask cls) as [|conf]; [lia|].
  destruct (Qlt_bool 0.01 conf); [rewrite length_app; simpl|]; lia.
Qed.

(** X14.  The class distribution lists exactly the registry classes that
    cover strictly more than 1% of the mask, each with its name, its
    colour and its rounded share, at most ten entries, ordered so that no
    entry is followed by one with a larger share. *)
Theorem class_distribution_entries `{PyRound} (mask : ndarray Z) :
  let d := _compute_class_distribution mask in
  StronglySorted by_decreasing_share d /\
  (length d <= 10)%nat /\
  forall e,
    In e d <->
    exists cls conf,
      In cls SEGMENTATION_TERRAIN_CLASSES /\
      class_coverage mask cls = Fin conf /\
      (0.01 < conf)%Q /\ e = share_entry cls conf.
Proof.
  intros d. subst d. unfold _compute_class_distribution.
  destruct (sort_desc_spec
              (fold_left (add_class_share mask) SEGMENTATION_TERRAIN_CLASSES
                 [])) as [Hsorted Hperm].
  split; [exact Hsorted|]. split.
  - rewrite (Permutation_length Hperm).
    apply (add_class_share_length mask SEGMENTATION_TERRAIN_CLASSES []).
  - intros e. split.
    + intros Hin. apply (Permutation_in _ Hperm) in Hin.
      apply add_class_share_fold in Hin.
      destruct Hin as [[]|Hin]. exact Hin.
    + intros Hin. apply (Permutation_in _ (Permutation_sym Hperm)).
      apply add_class_share_fold. now right.
Qed.

(** X15.  On a mask without pixels the shares are [0 / 0]; no comparison
    with 1% succeeds and the distribution is empty, without an error. *)
Theorem class_distribution_of_empty_mask `{PyRound} (mask : ndarray Z) :
  (nrows mask * ncols mask = 0)%nat ->
  _compute_class_distribution mask = [].
Proof.
  intros Hsize.
  assert (Hcov : forall cls, class_coverage mask cls = NaN).
  { intros cls. unfold class_coverage. now rewrite Hsize. }
  unfold _compute_class_distribution.
  assert (Hfold : forall classes,
             fold_left (add_class_share mask) classes [] = []).
  { induction classes as [|cls classes IH]; cbn [fold_left]; auto.
    replace (add_class_share mask [] cls) with (@nil class_share);
      [exact IH|].
    unfold add_class_share. now rewrite Hcov. }
  now rewrite Hfold.
Qed.

Lemma class_distribution_of_empty_mask_witness :
  @_compute_class_distribution ref_round (mk_ndarray 0 5 []) = [].
Proof.
  apply (@class_distribution_of_empty_mask ref_round (mk_ndarray 0 5 [])).
  reflexivity.
Defined.

(** A mask of 200 pixels: Sand on 150, Water on 48, Rock on 2 (exactly
    1%, which is not listed). *)
Example class_distribution_sample :
  map (fun e => (share_name e, share_conf e))
      (@_compute_class_distribution ref_round
         (mk_ndarray 2 100
            [repeat 3 100; repeat 3 50 ++ repeat 7 48 ++ repeat 0 2]))
  = [("Sand"%string, 750 # 1000); ("Water"%string, 240 # 1000)].
Proof. vm_compute. reflexivity. Qed.

(* ------------------------------------------------------------------ *)
(** ** Mean intersection over union *)

Lemma np_broadcast2_same_length {A B C} (f : A -> B -> C) xs ys :
  length xs = length ys -> np_broadcast2 f xs ys = Ok (zip_with f xs ys).
Proof.
  intros E. unfold np_broadcast2.
  now rewrite (proj2 (Nat.eqb_eq _ _) E).
Qed.

Lemma count_true_bounds mask : 0 <= count_true mask.
Proof. unfold count_true. lia. Qed.

Lemma count_and_le_or xs ys :
  count_true (zip_with andb xs ys) <= count_true (zip_with orb xs ys).
Proof.
  unfold count_true. apply inj_le. revert ys.
  induction xs as [|x xs IH]; intros [|y ys]; simpl; auto.
  specialize (IH ys). destruct x, y; simpl; lia.
Qed.

Lemma Qsum_unit_interval l :
  Forall (fun x => 0 <= x /\ x <= 1)%Q l ->
  (0 <= Qsum l /\ Qsum l <= inject_Z (Z.of_nat (length l)))%Q.
Proof.
  induction 1 as [|x l [Hx0 Hx1] _ [IH0 IH1]]; simpl.
  - split; apply Qle_refl.
  - rewrite Zpos_P_of_succ_nat. unfold Z.succ. rewrite inject_Z_plus.
    change (inject_Z 1) with 1%Q. split; lra.
Qed.

Lemma np_mean_unit_interval l :
  l <> [] ->
  Forall (fun x => 0 <= x /\ x <= 1)%Q l ->
  (0 <= np_mean l /\ np_mean l <= 1)%Q.
Proof.
  intros Hne Hl.
  destruct (Qsum_unit_interval l Hl) as [H0 H1].
  assert (Hpos : (0 < inject_Z (Z.of_nat (length l)))%Q).
  { destruct l as [|x l]; [contradiction|].
    change 0%Q with (inject_Z 0). rewrite <- Zlt_Qlt. simpl. lia. }
  unfold np_mean. split.
  - apply Qle_shift_div_l; [exact Hpos|]. now rewrite Qmult_0_l.
  - apply Qle_shift_div_r; [exact Hpos|]. now rewrite Qmult_1_l.
Qed.

Lemma iou_unit_interval inter union :
  0 <= inter <= union -> union <> 0 ->
  (0 <= inject_Z inter / inject_Z union /\
   inject_Z inter / inject_Z union <= 1)%Q.
Proof.
  intros [H0 Hle] Hne.
  assert (Hpos : (0 < inject_Z union)%Q).
  { change 0%Q with (inject_Z 0). rewrite <- Zlt_Qlt. lia. }
  split.
  - apply Qle_shift_div_l; [exact Hpos|]. rewrite Qmult_0_l.
    change 0%Q with (inject_Z 0). now rewrite <- Zle_Qle.
  - apply Qle_shift_div_r; [exact Hpos|]. rewrite Qmult_1_l.
    now rewrite <- Zle_Qle.
Qed.

Lemma miou_fold_unit_interval preds labels classes ious :
  length preds = length labels ->
  Forall (fun x => 0 <= x /\ x <= 1)%Q ious ->
  exists ious',
    foldM (miou_class preds labels) classes ious = Ok ious' /\
    Forall (fun x => 0 <= x /\ x <= 1)%Q ious'.
Proof.
  intros Hlen. revert ious.
  induction classes as [|cls classes IH]; intros ious Hious; simpl.
  - eauto.
  - unfold miou_class at 1.
    rewrite !np_broadcast2_same_length by (rewrite !length_map; exact Hlen).
    cbn [bind].
    set (pc := map (fun p => p =? cls) preds).
    set (lc := map (fun l => l =? cls) labels).
    destruct (count_true (zip_with orb pc lc) =? 0) eqn:E; cbn [bind].
    + now apply IH.
    + apply IH. apply Forall_app. split; [exact Hious|].
      constructor; [|constructor].
      apply iou_unit_interval.
      * split; [apply count_true_bounds|apply count_and_le_or].
      * now apply Z.eqb_neq.
Qed.

(** X16.  On predictions and labels of one length, [compute_miou] returns
    a score between 0 and 1 for every number of classes. *)
Theorem miou_unit_interval (preds labels : list Z) (num_classes : Z) :
  length preds = length labels ->
  exists q,
    compute_miou preds labels num_classes = Ok q /\ (0 <= q /\ q <= 1)%Q.
Proof.
  intros Hlen. unfold compute_miou.
  destruct (miou_fold_unit_interval preds labels (np_arange num_classes) []
              Hlen (Forall_nil _)) as (ious & -> & Hious).
  cbn [bind]. destruct ious as [|x ious].
  - exists 0%Q. split; [reflexivity|]. split; [apply Qle_refl|discriminate].
  - eexists. split; [reflexivity|].
    apply np_mean_unit_interval; [discriminate|exact Hious].
Qed.

Lemma miou_unit_interval_witness :
  exists q,
    compute_miou [0; 1; 1; 2] [0; 1; 2; 2] 3 = Ok q /\ (0 <= q /\ q <= 1)%Q.
Proof. apply miou_unit_interval. reflexivity. Defined.

Lemma zip_with_comm {A B} (f : A -> A -> B) xs ys :
  (forall a b, f a b = f b a) -> zip_with f xs ys = zip_with f ys xs.
Proof.
  intros Hf. revert ys.
  induction xs as [|x xs IH]; intros [|y ys]; simpl; auto.
  now rewrite Hf, IH.
Qed.

Lemma np_broadcast2_comm {A B} (f : A -> A -> B) xs ys :
  (forall a b, f a b = f b a) ->
  np_broadcast2 f xs ys = np_broadcast2 f ys xs.
Proof.
  intros Hf. unfold np_broadcast2.
  rewrite (Nat.eqb_sym (length ys) (length xs)).
  destruct (length xs =? length ys)%nat eqn:E.
  - now rewrite (zip_with_comm f xs ys Hf).
  - apply Nat.eqb_neq in E.
    destruct xs as [|x [|x' xs]], ys as [|y [|y' ys]];
      cbn [length] in E; cbv beta iota;
      try reflexivity; try lia;
      f_equal; apply map_ext; intros; apply Hf.
Qed.

(** X17.  [compute_miou] is symmetric: exchanging predictions and labels
    changes neither the score nor whether a shape error is raised. *)
Theorem miou_symmetric (preds labels : list Z) (num_classes : Z) :
  compute_miou preds labels num_classes
    = compute_miou labels preds num_classes.
Proof.
  unfold compute_miou. f_equal.
  generalize (@nil Q) as ious.
  induction (np_arange num_classes) as [|cls classes IH]; intros ious;
    simpl; auto.
  assert (E : miou_class preds labels ious cls
              = miou_class labels preds ious cls).
  { unfold miou_class.
    rewrite (np_broadcast2_comm andb _ _ andb_comm).
    rewrite (np_broadcast2_comm orb _ _ orb_comm).
    reflexivity. }
  rewrite E. destruct (miou_class labels preds ious cls); simpl; auto.
Qed.

Lemma zip_with_diag {A B} (f : A -> A -> B) (g : A -> B) xs :
  (forall a, f a a = g a) -> zip_with f xs xs = map g xs.
Proof.
  intros Hf. induction xs as [|x xs IH]; simpl; auto. now rewrite Hf, IH.
Qed.

Lemma count_true_class l cls :
  count_true (map (fun x => x =? cls) l) <> 0 <-> In cls l.
Proof.
  unfold count_true.
  induction l as [|x l IH]; simpl; [split; [lia|tauto]|].
  destruct (Z.eqb_spec x cls) as [->|Hne]; simpl.
  - split; [auto|lia].
  - rewrite IH. split; [auto|]. intros [E|Hin]; [contradiction|exact Hin].
Qed.

Lemma Qsum_ones l :
  Forall (fun x => x == 1)%Q l ->
  (Qsum l == inject_Z (Z.of_nat (length l)))%Q.
Proof.
  induction 1 as [|x l Hx _ IH]; simpl; [reflexivity|].
  rewrite Zpos_P_of_succ_nat. unfold Z.succ. rewrite inject_Z_plus.
  change (inject_Z 1) with 1%Q. rewrite Hx, IH. ring.
Qed.

Lemma miou_fold_perfect labels classes ious :
  Forall (fun x => x == 1)%Q ious ->
  exists ious',
    foldM (miou_class labels labels) classes ious = Ok ious' /\
    Forall (fun x => x == 1)%Q ious' /\
    (ious' = [] <->
     ious = [] /\ forall cls, In cls classes -> ~ In cls labels).
Proof.
  revert ious.
  induction classes as [|cls classes IH]; intros ious Hious; simpl.
  - exists ious. split; [reflexivity|]. split; [exact Hious|].
    split; [intros ->; split; [reflexivity|tauto]|tauto].
  - unfold miou_class at 1.
    rewrite !np_broadcast2_same_length by reflexivity. cbn [bind].
    rewrite (zip_with_diag andb (fun b => b)) by (intros []; reflexivity).
    rewrite (zip_with_diag orb (fun b => b)) by (intros []; reflexivity).
    rewrite !map_id.
    pose proof (count_true_class labels cls) as Hcount.
    destruct (count_true (map (fun l => l =? cls) labels) =? 0) eqn:E;
      cbn [bind].
    + apply Z.eqb_eq in E.
      destruct (IH ious Hious) as (ious' & Hrun & Hall & Hnil).
      exists ious'. split; [exact Hrun|]. split; [exact Hall|].
      rewrite Hnil. split.
      * intros [-> Hrest]. split; [reflexivity|].
        intros cls' [<-|Hin]; [|now apply Hrest].
        intros Hin. apply Hcount in Hin. contradiction.
      * intros [-> Hrest]. split; [reflexivity|].
        intros cls' Hin. apply Hrest. now right.
    + apply Z.eqb_neq in E.
      set (n := count_true (map (fun l => l =? cls) labels)) in *.
      assert (Hone : (inject_Z n / inject_Z n == 1)%Q).
      { apply Qmult_inv_r. change 0%Q with (inject_Z 0).
        rewrite inject_Z_injective. exact E. }
      destruct (IH (ious ++ [(inject_Z n / inject_Z n)%Q]))
        as (ious' & Hrun & Hall & Hnil).
      { apply Forall_app. split; [exact Hious|]. now repeat constructor. }
      exists ious'. split; [exact Hrun|]. split; [exact Hall|].
      split.
      * intros Hempty. apply Hnil in Hempty. destruct Hempty as [Hempty _].
        destruct ious; discriminate.
      * intros [_ Hrest]. exfalso.
        apply (Hrest cls); [now left|]. now apply Hcount.
Qed.

(** X18.  A perfect prediction scores exactly 1 as soon as one pixel
    carries a class below [num_classes]; when no pixel does (for example
    when every label is the value 255), it scores 0, not 1. *)
Theorem miou_of_perfect_prediction (labels : list Z) (num_classes : Z) :
  ((exists x, In x labels /\ 0 <= x < num_classes) ->
   exists q, compute_miou labels labels num_classes = Ok q /\ (q == 1)%Q) /\
  ((forall x, In x labels -> ~ 0 <= x < num_classes) ->
   compute_miou labels labels num_classes = Ok 0%Q).
Proof.
  unfold compute_miou.
  destruct (miou_fold_perfect labels (np_arange num_classes) []
              (Forall_nil _)) as (ious & -> & Hall & Hnil).
  cbn [bind].
  assert (Hrange : forall x, In x (np_arange num_classes)
                             <-> 0 <= x < num_classes).
  { intros x. unfold np_arange. rewrite in_map_iff. split.
    - intros (k & <- & Hk). apply in_seq in Hk. lia.
    - intros Hx. exists (Z.to_nat x). split; [lia|].
      apply in_seq. lia. }
  split.
  - intros (x & Hin & Hx).
    destruct ious as [|y ious].
    + exfalso. destruct Hnil as [Hnil _].
      destruct (Hnil eq_refl) as [_ Hnone].
      apply (Hnone x); [now apply Hrange|exact Hin].
    + eexists. split; [reflexivity|].
      unfold np_mean. rewrite (Qsum_ones _ Hall).
      apply Qmult_inv_r. change 0%Q with (inject_Z 0).
      rewrite inject_Z_injective. simpl. lia.
  - intros Hnone.
    destruct Hnil as [_ Hnil].
    rewrite Hnil; [reflexivity|].
    split; [reflexivity|].
    intros cls Hcls Hin. apply (Hnone cls Hin). now apply Hrange.
Qed.

Lemma miou_of_perfect_prediction_witness :
  (exists q, compute_miou [0; 3; 3; 9] [0; 3; 3; 9] 10 = Ok q /\ (q == 1)%Q)
  /\ compute_miou [255; 255] [255; 255] 10 = Ok 0%Q.
Proof.
  split.
  - apply (miou_of_perfect_prediction [0; 3; 3; 9] 10).
    exists 3. split; [simpl; tauto|lia].
  - apply (miou_of_perfect_prediction [255; 255] 10).
    intros x [<-|[<-|[]]]; lia.
Defined.

(* ------------------------------------------------------------------ *)
(** ** Dataset generation *)

Lemma Qtrunc_le x k : (x <= inject_Z k)%Q -> 0 <= k -> Qtrunc x <= k.
Proof.
  intros Hx Hk.
  destruct (Qlt_le_dec x 0) as [Hneg|Hpos].
  - destruct x as [n d]. unfold Qlt in Hneg. simpl in Hneg.
    assert (Hq : Qtrunc (n # d) <= 0); [|lia].
    unfold Qtrunc. simpl. apply Z.quot_le_upper_bound; lia.
  - rewrite Qtrunc_floor by exact Hpos.
    rewrite <- (Qfloor_Z k). now apply Qfloor_resp_le.
Qed.

Lemma Qtrunc_opp x : Qtrunc (- x) = - Qtrunc x.
Proof.
  destruct x as [n d]. unfold Qtrunc. simpl.
  apply Z.quot_opp_l. discriminate.
Qed.

Lemma Qtrunc_comp x y : (x == y)%Q -> Qtrunc x = Qtrunc y.
Proof.
  intros E.
  destruct (Qlt_le_dec x 0) as [Hneg|Hpos].
  - assert (Hx : (0 <= - x)%Q) by lra.
    assert (Hy : (0 <= - y)%Q) by lra.
    assert (E' : Qtrunc (- x) = Qtrunc (- y)).
    { rewrite !Qtrunc_floor by assumption.
      apply Qfloor_comp. now rewrite E. }
    rewrite !Qtrunc_opp in E'. lia.
  - assert (Hy : (0 <= y)%Q) by lra.
    rewrite !Qtrunc_floor by assumption. now apply Qfloor_comp.
Qed.

Lemma f64_finite_inv `{IEEE754} (x y : Q) : f64_finite x = Ok y -> y = f64 x.
Proof.
  unfold f64_finite.
  destruct (Qle_bool f64_overflow (Qabs x)); [discriminate|].
  now intros E; inversion E.
Qed.

Lemma split_counts_inv `{IEEE754} n v n_train n_val :
  split_counts n v = Ok (n_train, n_val) ->
  n_train + n_val = n /\
  n_val = Z.max 1 (Qtrunc (f64 (f64 (inject_Z n) * f64 v))).
Proof.
  unfold split_counts.
  destruct (f64_finite (inject_Z n)) as [a|e] eqn:Ea; [|discriminate].
  apply f64_finite_inv in Ea. cbn [bind].
  destruct (f64_finite (a * f64 v)) as [p|e] eqn:Ep; [|discriminate].
  apply f64_finite_inv in Ep. cbn [bind].
  intros E; inversion E; subst. split; [lia|reflexivity].
Qed.

Lemma split_counts_fraction `{IEEE754} n v n_train n_val :
  1 <= n <= 2 ^ 53 -> (0 <= v)%Q -> (v <= 1)%Q ->
  split_counts n v = Ok (n_train, n_val) ->
  n_train + n_val = n /\ 0 <= n_train /\
  n_val = Z.max 1 (Qtrunc (f64 (inject_Z n * f64 v))).
Proof.
  intros Hn Hv0 Hv1 E.
  apply split_counts_inv in E as [Hsum Hval].
  destruct (f64_unit_interval v Hv0 Hv1) as [Hw0 Hw1].
  set (w := f64 v) in *.
  assert (En : (f64 (inject_Z n) == inject_Z n)%Q)
    by (apply f64_integer; lia).
  assert (Ep : (f64 (f64 (inject_Z n) * w) == f64 (inject_Z n * w))%Q).
  { apply f64_comp. now rewrite En. }
  rewrite (Qtrunc_comp _ _ Ep) in Hval.
  assert (Ht : Qtrunc (f64 (inject_Z n * w)) <= n).
  { apply Qtrunc_le; [|lia].
    apply Qle_trans with (f64 (inject_Z n));
      [|apply Qle_lteq; right; exact En].
    apply f64_monotone.
    assert (0 <= inject_Z n)%Q
      by (change 0%Q with (inject_Z 0); rewrite <- Zle_Qle; lia).
    nra. }
  split; [exact Hsum|]. split; [lia|exact Hval].
Qed.

Lemma split_counts_small `{IEEE754} n v n_train n_val :
  n <= 1 -> (0 <= v)%Q -> (v <= 1)%Q ->
  split_counts n v = Ok (n_train, n_val) ->
  n_train <= 0 /\ n_val = 1.
Proof.
  intros Hn Hv0 Hv1 E.
  apply split_counts_inv in E as [Hsum Hval].
  destruct (f64_unit_interval v Hv0 Hv1) as [Hw0 Hw1].
  set (w := f64 v) in *.
  assert (E1 : (f64 (inject_Z 1) == inject_Z 1)%Q)
    by (apply f64_integer; simpl; lia).
  assert (Ha : (f64 (inject_Z n) <= 1)%Q).
  { apply Qle_trans with (f64 (inject_Z 1));
      [|apply Qle_lteq; right; exact E1].
    apply f64_monotone. rewrite <- Zle_Qle. exact Hn. }
  assert (Ht : Qtrunc (f64 (f64 (inject_Z n) * w)) <= 1).
  { apply Qtrunc_le; [|lia].
    apply Qle_trans with (f64 (inject_Z 1));
      [|apply Qle_lteq; right; exact E1].
    apply f64_monotone. change (inject_Z 1) with 1%Q.
    destruct (Qlt_le_dec (f64 (inject_Z n)) 0); nra. }
  lia.
Qed.

Lemma gen_random_inv `{Libm} `{Generator} size seed g :
  gen_random size seed = Ok g ->
  has_shape (Z.to_nat size) (Z.to_nat size) g /\ all_cells valid_id g.
Proof.
  unfold gen_random.
  destruct (seed mod 3 =? 0); [apply gen_desert_inv|].
  destruct (seed mod 3 =? 1); [apply gen_rocky_inv|apply gen_mixed_inv].
Qed.

Lemma all_cells_of_flatten {A} (P : A -> Prop) (a : ndarray A) :
  Forall P (flatten a) -> all_cells P a.
Proof.
  unfold all_cells, flatten.
  induction (rows a) as [|row rs IH]; simpl; intros Hall; auto.
  apply Forall_app in Hall as [Hrow Hrest]. auto.
Qed.

Lemma perm_flatten_apply_geometry {A} h w d (m : ndarray A) :
  has_shape h w m ->
  Permutation (flatten (apply_geometry d m)) (flatten m).
Proof.
  intros Hs. unfold apply_geometry, np_fliplr, np_flipud.
  set (l1 := if hflip d then np_flip1 m else m).
  assert (H1 : has_shape h w l1 /\ Permutation (flatten l1) (flatten m)).
  { subst l1. destruct (hflip d); [|split; auto].
    split; [now apply has_shape_flip1|apply perm_concat_map_rev]. }
  destruct H1 as [Hs1 Hp1].
  set (l2 := if vflip d then np_flip0 l1 else l1).
  assert (H2 : has_shape h w l2 /\ Permutation (flatten l2) (flatten m)).
  { subst l2. destruct (vflip d); [|split; auto].
    split; [now apply has_shape_flip0|].
    rewrite <- Hp1. apply perm_concat_rev. }
  destruct H2 as [Hs2 Hp2].
  destruct (quarter_turns d >? 0); [|exact Hp2].
  rewrite <- Hp2. now apply (perm_flatten_rot90 h w).
Qed.

Lemma all_cells_apply_geometry {A} (P : A -> Prop) h w d (m : ndarray A) :
  has_shape h w m -> all_cells P m -> all_cells P (apply_geometry d m).
Proof.
  intros Hs Hall. apply all_cells_of_flatten.
  eapply Permutation_Forall;
    [symmetry; apply (perm_flatten_apply_geometry h w); exact Hs|].
  now apply all_cells_flatten.
Qed.

Lemma mapM_inv {A B} (f : A -> result B) l l' :
  mapM f l = Ok l' -> Forall2 (fun x y => f x = Ok y) l l'.
Proof.
  revert l'. induction l as [|x xs IH]; simpl; intros l' E.
  - inversion E. constructor.
  - destruct (f x) as [y|e] eqn:Ex; [|discriminate]. simpl in E.
    destruct (mapM f xs) as [ys|e] eqn:Exs; [|discriminate]. simpl in E.
    inversion E; subst. constructor; auto.
Qed.

Lemma nd_get_In {A} (a : ndarray A) r c v :
  nd_get a r c = Some v -> In v (flatten a).
Proof.
  unfold nd_get, flatten.
  destruct (nth_error (rows a) r) as [row|] eqn:Er; [|discriminate].
  intros Ec. apply in_concat. exists row.
  split; eauto using nth_error_In.
Qed.

(** The reference nearest-neighbour resize returns the requested shape,
    and from a source that has cells it only copies cells. *)
Lemma nearest_resize_contract out_w out_h src_h src_w a b :
  has_shape src_h src_w a -> (0 < src_h)%nat -> (0 < src_w)%nat ->
  nearest_resize out_w out_h a = Ok b ->
  has_shape (Z.to_nat out_h) (Z.to_nat out_w) b /\
  forall x, In x (flatten b) -> In x (flatten a).
Proof.
  intros Hs Hh Hw. unfold nearest_resize.
  destruct ((out_w <=? 0) || (out_h <=? 0)) eqn:Esize; [discriminate|].
  apply orb_false_elim in Esize as [Ew Eh].
  apply Z.leb_gt in Ew, Eh.
  cbv zeta. intros E; inversion E; subst b; clear E.
  pose proof Hs as (Hrows & Hcols & _).
  split.
  - split; [reflexivity|]. split; [reflexivity|]. split; cbn [rows nrows ncols].
    + now rewrite length_map, length_seq.
    + apply Forall_map. apply Forall_forall. intros r _.
      now rewrite length_map, length_seq.
  - unfold flatten. cbn [rows]. intros x Hx.
    apply in_concat in Hx as (row & Hrow & Hx).
    apply in_map_iff in Hrow as (r & <- & Hr).
    apply in_map_iff in Hx as (c & <- & Hc).
    apply in_seq in Hr, Hc.
    destruct (nd_get_defined src_h src_w a
                ((2 * r + 1) * nrows a / (2 * Z.to_nat out_h))
                ((2 * c + 1) * ncols a / (2 * Z.to_nat out_w)) Hs)
      as [v Hv].
    + rewrite Hrows. apply Nat.Div0.div_lt_upper_bound. nia.
    + rewrite Hcols. apply Nat.Div0.div_lt_upper_bound. nia.
    + cbn [Nat.mul] in Hv. rewrite Hv. eapply nd_get_In; eauto.
Qed.

Section DatasetGeneration.
Context `{IEEE754} `{Libm} `{Generator} `{Imaging} `{LabelImaging}.
Variables (grid img_size : Z) (augment : bool).

Lemma generate_sample_name split idx rng s rng' :
  generate_sample grid img_size augment split idx rng = Ok (s, rng') ->
  ws_split s = split /\ ws_index s = idx.
Proof.
  unfold generate_sample.
  destruct (rng_integers 0 (2 ^ 31) rng) as [sd rng1].
  destruct (gen_random grid sd) as [labels|e]; [|discriminate].
  cbn [bind].
  destruct (render_terrain labels img_size rng1 8) as [[img rng2]|e];
    [|discriminate].
  cbn [bind].
  destruct (if negb (img_size =? grid)
            then pil_resize_nearest img_size img_size labels
            else Ok labels) as [labels'|e]; [|discriminate].
  cbn [bind].
  destruct (if augment && String.eqb split "train"
            then augment_image img labels' rng2
            else Ok (img, labels', rng2)) as [[[img' l'] rng3]|e];
    [|discriminate].
  cbn [bind]. intros E; inversion E; subst. now split.
Qed.

Lemma generate_sample_labels split idx rng s rng' :
  nearest_copies_cells -> 0 < grid -> 0 < img_size ->
  generate_sample grid img_size augment split idx rng = Ok (s, rng') ->
  has_shape (Z.to_nat img_size) (Z.to_nat img_size) (ws_labels s) /\
  all_cells valid_id (ws_labels s).
Proof.
  intros Hnear Hgrid Himg. unfold generate_sample.
  destruct (rng_integers 0 (2 ^ 31) rng) as [sd rng1].
  destruct (gen_random grid sd) as [labels|e] eqn:Eg; [|discriminate].
  apply gen_random_inv in Eg as [Hs Hv].
  cbn [bind].
  destruct (render_terrain labels img_size rng1 8) as [[img rng2]|e];
    [|discriminate].
  cbn [bind].
  destruct (if negb (img_size =? grid)
            then pil_resize_nearest img_size img_size labels
            else Ok labels) as [labels'|e] eqn:Er; [|discriminate].
  assert (Hl : has_shape (Z.to_nat img_size) (Z.to_nat img_size) labels' /\
               all_cells valid_id labels').
  { destruct (Z.eqb_spec img_size grid) as [->|Hne]; simpl in Er.
    - inversion Er; subst. now split.
    - apply (Hnear img_size img_size (Z.to_nat grid) (Z.to_nat grid))
        in Er as [Hs' Hin]; try assumption; try lia.
      split; [exact Hs'|].
      apply all_cells_of_flatten. apply Forall_forall. intros x Hx.
      apply all_cells_flatten in Hv. rewrite Forall_forall in Hv. auto. }
  destruct Hl as [Hs' Hv'].
  cbn [bind].
  destruct (augment && String.eqb split "train").
  - rewrite augment_image_draws. cbn [bind].
    intros E; inversion E; subst; clear E. simpl. split.
    + now apply has_shape_apply_geometry_square.
    + eapply all_cells_apply_geometry; eauto.
  - cbn [bind]. intros E; inversion E; subst; clear E. now split.
Qed.

Lemma generate_split_layout split count : forall idx rng samples idx' rng',
  generate_split grid img_size augment split count idx rng
    = Ok (samples, idx', rng') ->
  idx' = (idx + count)%nat /\
  map ws_split samples = repeat split count /\
  map ws_index samples = seq idx count.
Proof.
  induction count as [|count IH]; simpl; intros idx rng samples idx' rng' E.
  - inversion E; subst. repeat split; auto.
  - destruct (generate_sample grid img_size augment split idx rng)
      as [[s rng1]|e] eqn:Es; [|discriminate].
    apply generate_sample_name in Es as [Hsp Hix].
    cbn [bind] in E.
    destruct (generate_split grid img_size augment split count (S idx) rng1)
      as [[[ss idx1] rng2]|e] eqn:Ess; [|discriminate].
    apply IH in Ess as (Hidx & Hsplit & Hindex).
    cbn [bind] in E. inversion E; subst; clear E.
    simpl. rewrite Hsplit, Hindex.
    repeat split; auto; lia.
Qed.

Lemma generate_split_Forall (P : written_sample -> Prop) split :
  (forall idx rng s rng',
      generate_sample grid img_size augment split idx rng = Ok (s, rng') ->
      P s) ->
  forall count idx rng samples idx' rng',
    generate_split grid img_size augment split count idx rng
      = Ok (samples, idx', rng') ->
    Forall P samples.
Proof.
  intros HP. induction count as [|count IH]; simpl;
    intros idx rng samples idx' rng' E.
  - inversion E; subst. constructor.
  - destruct (generate_sample grid img_size augment split idx rng)
      as [[s rng1]|e] eqn:Es; [|discriminate].
    apply HP in Es.
    cbn [bind] in E.
    destruct (generate_split grid img_size augment split count (S idx) rng1)
      as [[[ss idx1] rng2]|e] eqn:Ess; [|discriminate].
    apply IH in Ess.
    cbn [bind] in E. inversion E; subst; clear E.
    constructor; auto.
Qed.

Lemma generate_dataset_inv n v seed samples :
  generate_dataset n grid img_size v seed augment = Ok samples ->
  exists n_train n_val rng train idx1 rng1 val idx2 rng2,
    split_counts n v = Ok (n_train, n_val) /\
    generate_split grid img_size augment "train" (Z.to_nat n_train) 0 rng
      = Ok (train, idx1, rng1) /\
    generate_split grid img_size augment "val" (Z.to_nat n_val) idx1 rng1
      = Ok (val, idx2, rng2) /\
    samples = train ++ val.
Proof.
  unfold generate_dataset.
  destruct (default_rng seed) as [rng|e]; [|discriminate].
  cbn [bind].
  destruct (split_counts n v) as [[n_train n_val]|e]; [|discriminate].
  cbn [bind].
  destruct (generate_split grid img_size augment "train"
              (Z.to_nat n_train) 0 rng) as [[[train idx1] rng1]|e] eqn:Et;
    [|discriminate].
  cbn [bind].
  destruct (generate_split grid img_size augment "val"
              (Z.to_nat n_val) idx1 rng1) as [[[val idx2] rng2]|e] eqn:Ev;
    [|discriminate].
  cbn [bind]. intros E; inversion E; subst.
  now exists n_train, n_val, rng, train, idx1, rng1, val, idx2, rng2.
Qed.

Lemma generate_dataset_layout n v seed samples :
  generate_dataset n grid img_size v seed augment = Ok samples ->
  exists n_train n_val,
    split_counts n v = Ok (n_train, n_val) /\
    map ws_split samples =
      repeat "train"%string (Z.to_nat n_train) ++
      repeat "val"%string (Z.to_nat n_val) /\
    map ws_index samples = seq 0 (Z.to_nat n_train + Z.to_nat n_val).
Proof.
  intros E.
  apply generate_dataset_inv in E
    as (n_train & n_val & rng & train & idx1 & rng1 & val & idx2 & rng2 &
        Ec & Et & Ev & ->).
  apply generate_split_layout in Et as (Hi1 & Hst & Hit).
  apply generate_split_layout in Ev as (Hi2 & Hsv & Hiv).
  exists n_train, n_val. split; [exact Ec|].
  rewrite !map_app, Hst, Hsv, Hit, Hiv, Hi1, seq_app.
  split; reflexivity.
Qed.

End DatasetGeneration.

(** X19.  For a request of [n] samples, with [1 <= n <= 2^53] and a
    validation share between 0 and 1, a run of [generate_dataset] that
    completes writes exactly [n] samples, numbered 0 to [n - 1] in the
    order written: first the training samples, then
    [max(1, int(n * val_split))] validation samples, [val_split] and the
    product being binary64 values. *)
Theorem dataset_split_layout
    `{IEEE754} `{Libm} `{Generator} `{Imaging} `{LabelImaging}
    (n grid img_size : Z) (val_split : Q) (seed : Z) (augment : bool)
    (samples : list written_sample) :
  1 <= n <= 2 ^ 53 -> (0 <= val_split)%Q -> (val_split <= 1)%Q ->
  generate_dataset n grid img_size val_split seed augment = Ok samples ->
  exists n_train n_val : nat,
    (n_train + n_val)%nat = Z.to_nat n /\
    Z.of_nat n_val
      = Z.max 1 (Qtrunc (f64 (inject_Z n * f64 val_split))) /\
    map ws_split samples =
      repeat "train"%string n_train ++ repeat "val"%string n_val /\
    map ws_index samples = seq 0 (Z.to_nat n).
Proof.
  intros Hn Hv0 Hv1 E.
  apply generate_dataset_layout in E
    as (n_train & n_val & Ec & Hsplit & Hindex).
  destruct (split_counts_fraction n val_split n_train n_val Hn Hv0 Hv1 Ec)
    as (Hsum & Htrain & Hval).
  exists (Z.to_nat n_train), (Z.to_nat n_val).
  assert (Hlen : (Z.to_nat n_train + Z.to_nat n_val)%nat = Z.to_nat n)
    by lia.
  split; [exact Hlen|]. split.
  - rewrite Z2Nat.id by lia. exact Hval.
  - split; [exact Hsplit|]. now rewrite <- Hlen.
Qed.

Lemma dataset_split_layout_witness :
  exists samples,
    @generate_dataset ref_ieee754 ref_libm ref_generator ref_imaging
      ref_label_imaging 3 3 6 0.15 42 true = Ok samples /\
    map ws_split samples = ["train"; "train"; "val"]%string /\
    map ws_index samples = [0; 1; 2]%nat.
Proof.
  destruct (@generate_dataset ref_ieee754 ref_libm ref_generator ref_imaging
              ref_label_imaging 3 3 6 0.15 42 true) as [samples|e] eqn:E;
    [|vm_compute in E; discriminate].
  exists samples. split; [reflexivity|].
  destruct (@dataset_split_layout ref_ieee754 ref_libm ref_generator
              ref_imaging ref_label_imaging 3 3 6 0.15 42 true samples)
    as (n_train & n_val & Hsum & Hval & Hsplit & Hindex);
    [split; [lia|discriminate]|discriminate|discriminate|exact E|].
  change (Z.max 1 (Qtrunc (@f64 ref_ieee754
                              (inject_Z 3 * @f64 ref_ieee754 0.15))))
    with 1 in Hval.
  assert (n_val = 1%nat) by lia.
  assert (n_train = 2%nat) by (simpl in Hsum; lia).
  subst. split; [exact Hsplit|exact Hindex].
Defined.

(** X20.  A request for at most one sample never yields training data:
    with a validation share between 0 and 1, a run that completes writes
    exactly one sample, into the validation split, numbered 0 -- also when
    zero samples, or a negative number of them, were asked for. *)
Theorem dataset_of_at_most_one_sample
    `{IEEE754} `{Libm} `{Generator} `{Imaging} `{LabelImaging}
    (n grid img_size : Z) (val_split : Q) (seed : Z) (augment : bool)
    (samples : list written_sample) :
  n <= 1 -> (0 <= val_split)%Q -> (val_split <= 1)%Q ->
  generate_dataset n grid img_size val_split seed augment = Ok samples ->
  exists s, samples = [s] /\ ws_split s = "val"%string /\ ws_index s = 0%nat.
Proof.
  intros Hn Hv0 Hv1 E.
  apply generate_dataset_layout in E
    as (n_train & n_val & Ec & Hsplit & Hindex).
  destruct (split_counts_small n val_split n_train n_val Hn Hv0 Hv1 Ec)
    as [Htrain Hval].
  rewrite Hval in Hsplit, Hindex.
  replace (Z.to_nat n_train) with 0%nat in Hsplit, Hindex by lia.
  simpl in Hsplit, Hindex.
  destruct samples as [|s [|s' rest]]; try discriminate.
  exists s. simpl in Hsplit, Hindex.
  inversion Hsplit. inversion Hindex. auto.
Qed.

Lemma dataset_of_at_most_one_sample_witness :
  exists s,
    @generate_dataset ref_ieee754 ref_libm ref_generator ref_imaging
      ref_label_imaging 0 3 6 0.15 42 true = Ok [s] /\
    ws_split s = "val"%string /\ ws_index s = 0%nat.
Proof.
  destruct (@generate_dataset ref_ieee754 ref_libm ref_generator ref_imaging
              ref_label_imaging 0 3 6 0.15 42 true) as [samples|e] eqn:E;
    [|vm_compute in E; discriminate].
  destruct (@dataset_of_at_most_one_sample ref_ieee754 ref_libm
              ref_generator ref_imaging ref_label_imaging 0 3 6 0.15 42 true
              samples)
    as (s & -> & Hsplit & Hindex);
    [lia|discriminate|discriminate|exact E|].
  exists s. auto.
Defined.

(** X21.  For a positive grid size and a positive image size, every
    annotation written by [generate_dataset] is an [img_size] x [img_size]
    raster of registry ids in [0 .. 9], whether or not the
    nearest-neighbour upscaling and the augmentation were applied,
    provided the nearest-neighbour resize of a source that has cells
    returns the requested shape and copies cells of its source only. *)
Theorem dataset_annotations_valid
    `{IEEE754} `{Libm} `{Generator} `{Imaging} `{LabelImaging}
    (n grid img_size : Z) (val_split : Q) (seed : Z) (augment : bool)
    (samples : list written_sample) :
  nearest_copies_cells -> 0 < grid -> 0 < img_size ->
  generate_dataset n grid img_size val_split seed augment = Ok samples ->
  forall s, In s samples ->
    has_shape (Z.to_nat img_size) (Z.to_nat img_size) (ws_labels s) /\
    all_cells valid_id (ws_labels s).
Proof.
  intros Hnear Hgrid Himg E.
  apply generate_dataset_inv in E
    as (n_train & n_val & rng & train & idx1 & rng1 & val & idx2 & rng2 &
        _ & Et & Ev & ->).
  apply Forall_forall. apply Forall_app. split.
  - eapply generate_split_Forall; [|exact Et].
    intros idx r s r' Es.
    eapply generate_sample_labels;
      [exact Hnear|exact Hgrid|exact Himg|exact Es].
  - eapply generate_split_Forall; [|exact Ev].
    intros idx r s r' Es.
    eapply generate_sample_labels;
      [exact Hnear|exact Hgrid|exact Himg|exact Es].
Qed.

Lemma dataset_annotations_valid_witness :
  exists samples,
    @generate_dataset ref_ieee754 ref_libm ref_generator ref_imaging
      ref_label_imaging 3 3 6 0.15 42 true = Ok samples /\
    forall s, In s samples ->
      has_shape 6 6 (ws_labels s) /\ all_cells valid_id (ws_labels s).
Proof.
  destruct (@generate_dataset ref_ieee754 ref_libm ref_generator ref_imaging
              ref_label_imaging 3 3 6 0.15 42 true) as [samples|e] eqn:E;
    [|vm_compute in E; discriminate].
  exists samples. split; [reflexivity|].
  apply (@dataset_annotations_valid ref_ieee754 ref_libm ref_generator
           ref_imaging ref_label_imaging 3 3 6 0.15 42 true samples);
    [|lia|lia|exact E].
  intros w h src_h src_w a b _ _ Hs Hh Hw.
  now apply nearest_resize_contract with (src_h := src_h) (src_w := src_w).
Defined.

(* ------------------------------------------------------------------ *)
(** ** Terrain cells *)

Lemma mapM_defined {A B} (f : A -> result B) (P : A -> B -> Prop) l :
  Forall (fun x => exists y, f x = Ok y /\ P x y) l ->
  exists ys, mapM f l = Ok ys /\ Forall2 P l ys.
Proof.
  induction 1 as [|x xs (y & Hy & HP) _ (ys & Hys & HPs)]; simpl.
  - exists []. split; [reflexivity|constructor].
  - exists (y :: ys). rewrite Hy, Hys. split; [reflexivity|].
    now constructor.
Qed.

Lemma get_terrain_inv `{Libm} `{Generator} preset grid seed labels hm :
  get_terrain preset grid seed = Ok (labels, hm) ->
  has_shape (Z.to_nat grid) (Z.to_nat grid) labels /\
  all_cells valid_id labels.
Proof.
  unfold get_terrain.
  set (gen_fn := if String.eqb preset "desert" then gen_desert
                 else if String.eqb preset "rocky" then gen_rocky
                 else gen_mixed).
  destruct (gen_fn grid seed) as [l|e] eqn:Eg; [|discriminate].
  assert (Hl : has_shape (Z.to_nat grid) (Z.to_nat grid) l /\
               all_cells valid_id l).
  { subst gen_fn. destruct (String.eqb preset "desert");
      [now apply gen_desert_inv in Eg|].
    destruct (String.eqb preset "rocky");
      [now apply gen_rocky_inv in Eg|now apply gen_mixed_inv in Eg]. }
  cbn [bind].
  destruct (default_rng seed) as [rng|e]; [|discriminate]. cbn [bind].
  destruct (rng_random_array grid grid rng) as [noise|e]; [|discriminate].
  cbn [bind].
  destruct (height_map l (fst noise)) as [h|e]; [|discriminate].
  cbn [bind]. intros E; inversion E; subst. exact Hl.
Qed.

Lemma get_terrain_defined `{Libm} `{Generator} preset grid seed :
  0 < grid -> 0 <= seed -> seed * 3 < 2 ^ 63 ->
  exists labels hm,
    get_terrain preset grid seed = Ok (labels, hm) /\
    has_shape (Z.to_nat grid) (Z.to_nat grid) hm.
Proof.
  intros Hgrid Hseed Hfit. unfold get_terrain.
  set (gen_fn := if String.eqb preset "desert" then gen_desert
                 else if String.eqb preset "rocky" then gen_rocky
                 else gen_mixed).
  assert (Hok : exists labels, gen_fn grid seed = Ok labels /\
            has_shape (Z.to_nat grid) (Z.to_nat grid) labels /\
            all_cells valid_id labels).
  { subst gen_fn. destruct (String.eqb preset "desert").
    - destruct (gen_desert_defined grid seed) as [g Hg]; try lia.
      exists g. split; [exact Hg|]. now apply gen_desert_inv in Hg.
    - destruct (String.eqb preset "rocky").
      + destruct (gen_rocky_defined grid seed) as [g Hg]; try lia.
        exists g. split; [exact Hg|]. now apply gen_rocky_inv in Hg.
      + destruct (gen_mixed_defined grid seed) as [g Hg]; try lia.
        exists g. split; [exact Hg|]. now apply gen_mixed_inv in Hg. }
  destruct Hok as (labels & Hlabels & Hs & Hids).
  destruct (rng_random_array_defined grid (rng_seed seed))
    as (noise & rng' & Hnoise & Hns); [lia|].
  exists labels. eexists. rewrite Hlabels. cbn [bind].
  unfold default_rng.
  destruct (seed <? 0) eqn:E; [apply Z.ltb_lt in E; lia|]. cbn [bind].
  rewrite Hnoise. cbn [bind fst].
  rewrite (height_map_formula (Z.to_nat grid) (Z.to_nat grid)); auto;
    [|nia].
  cbn [bind]. split; [reflexivity|].
  apply has_shape_map2; [now apply has_shape_map|].
  apply has_shape_map2; [now apply has_shape_map|exact Hns].
Qed.

Lemma cls_map_get_valid cid :
  valid_id cid ->
  exists cls,
    cls_map_get SEGMENTATION_TERRAIN_CLASSES cid = Some cls /\
    In cls SEGMENTATION_TERRAIN_CLASSES /\ id cls = cid.
Proof.
  unfold valid_id. intros Hv.
  assert (Hc : cid = 0 \/ cid = 1 \/ cid = 2 \/ cid = 3 \/ cid = 4 \/
               cid = 5 \/ cid = 6 \/ cid = 7 \/ cid = 8 \/ cid = 9) by lia.
  repeat destruct Hc as [->|Hc]; [..|subst cid];
    (eexists; split; [reflexivity|split; [simpl; tauto|reflexivity]]).
Qed.

Lemma terrain_cell_at_inv `{PyRound} labels heights j i cell :
  all_cells valid_id labels ->
  terrain_cell_at labels heights j i = Ok cell ->
  nd_get labels j i = Some (cell_classId cell) /\
  exists cls, In cls SEGMENTATION_TERRAIN_CLASSES /\ served_class cell cls.
Proof.
  intros Hv. unfold terrain_cell_at.
  destruct (nd_get labels j i) as [cid|] eqn:Ec; [|discriminate].
  destruct (cls_map_get_valid cid) as (cls & -> & Hin & Hid);
    [eapply all_cells_get; eauto|].
  destruct (nd_get heights j i) as [h|]; [|discriminate].
  intros E; inversion E; subst; clear E. cbn [cell_classId].
  split; [reflexivity|].
  exists cls. split; [exact Hin|]. now repeat split.
Qed.

Lemma terrain_cell_at_defined `{PyRound} g labels heights j i :
  has_shape g g labels -> has_shape g g heights ->
  (j < g)%nat -> (i < g)%nat ->
  exists cell, terrain_cell_at labels heights j i = Ok cell.
Proof.
  intros Hl Hh Hj Hi. unfold terrain_cell_at.
  destruct (nd_get_defined _ _ labels j i Hl Hj Hi) as [cid ->].
  destruct (nd_get_defined _ _ heights j i Hh Hj Hi) as [h ->].
  eexists. reflexivity.
Qed.

Lemma get_terrain_cells_inv `{Libm} `{Generator} `{PyRound}
    preset grid seed cells :
  get_terrain_cells preset grid seed = Ok cells ->
  Forall (Forall (fun cell =>
            exists cls, In cls SEGMENTATION_TERRAIN_CLASSES /\
                        served_class cell cls)) cells.
Proof.
  unfold get_terrain_cells.
  destruct (get_terrain preset grid seed) as [[labels hm]|e] eqn:Et;
    [|discriminate].
  apply get_terrain_inv in Et as [_ Hv]. cbn [bind].
  intros E. apply mapM_inv in E.
  induction E as [|j row js rows' Hrow _ IH]; constructor; auto.
  apply mapM_inv in Hrow. clear -Hrow Hv.
  induction Hrow as [|i cell is_ row' Hcell _ IH]; constructor; auto.
  now apply terrain_cell_at_inv in Hcell as [_ Hc].
Qed.

(** X22.  For a positive grid size and a non-negative seed whose triple
    fits the 64-bit index arrays ([seed * 3 < 2^63]) the [/terrain]
    handler returns a [grid] x [grid] array of cell records, and every
    record carries the name, cost, traversability flag and colour of the
    service-registry class whose id is the record's [classId]: the
    fallback to class 3 (Sand) for an unknown id is never taken on a
    generated grid. *)
Theorem terrain_cells_use_service_registry
    `{Libm} `{Generator} `{PyRound} (preset : string) (grid seed : Z) :
  0 < grid -> 0 <= seed -> seed * 3 < 2 ^ 63 ->
  exists cells,
    get_terrain_cells preset grid seed = Ok cells /\
    length cells = Z.to_nat grid /\
    Forall (fun row =>
      length row = Z.to_nat grid /\
      Forall (fun cell =>
        exists cls, In cls SEGMENTATION_TERRAIN_CLASSES /\
                    served_class cell cls) row) cells.
Proof.
  intros Hgrid Hseed Hfit.
  destruct (get_terrain_defined preset grid seed)
    as (labels & hm & Et & Hhm); [lia|lia|lia|].
  pose proof (get_terrain_inv _ _ _ _ _ Et) as [Hl Hv].
  destruct (mapM_defined
              (fun j => mapM (terrain_cell_at labels hm j)
                             (seq 0 (Z.to_nat grid)))
              (fun _ row => length row = Z.to_nat grid)
              (seq 0 (Z.to_nat grid))) as (cells & Ecells & Hrows).
  { apply Forall_forall. intros j Hj. apply in_seq in Hj.
    destruct (mapM_defined (terrain_cell_at labels hm j)
                (fun _ _ => True) (seq 0 (Z.to_nat grid)))
      as (row & Erow & Hlen).
    - apply Forall_forall. intros i Hi. apply in_seq in Hi.
      destruct (terrain_cell_at_defined (Z.to_nat grid) labels hm j i)
        as [cell Hcell]; auto; try lia.
      now exists cell.
    - exists row. split; [exact Erow|].
      apply Forall2_length in Hlen. now rewrite length_seq in Hlen. }
  assert (E : get_terrain_cells preset grid seed = Ok cells).
  { unfold get_terrain_cells. rewrite Et. exact Ecells. }
  exists cells. split; [exact E|]. split.
  - apply Forall2_length in Hrows. now rewrite length_seq in Hrows.
  - apply get_terrain_cells_inv in E.
    clear -Hrows E. revert E.
    induction Hrows as [|j row js rows' Hlen _ IH]; intros E;
      [constructor|].
    inversion E; subst. constructor; auto.
Qed.

Lemma terrain_cells_use_service_registry_witness :
  exists cells,
    @get_terrain_cells ref_libm ref_generator ref_round "rocky" 4 9
      = Ok cells /\
    length cells = 4%nat /\
    Forall (fun row =>
      length row = 4%nat /\
      Forall (fun cell =>
        exists cls, In cls SEGMENTATION_TERRAIN_CLASSES /\
                    served_class cell cls) row) cells.
Proof.
  apply (@terrain_cells_use_service_registry ref_libm ref_generator
           ref_round "rocky" 4 9); [lia|lia|reflexivity].
Defined.

(** X23.  The cell records agree with the generators' own class table
    ([dataset.py]) on name, cost and traversability for every class but
    one: a cell of class 5, which the generators paint as traversable
    "Clear" ground of cost 0.1, is served as non-traversable "Sky" of
    cost 0. *)
Theorem terrain_cells_disagree_on_class_5
    `{Libm} `{Generator} `{PyRound} (preset : string) (grid seed : Z)
    (cells : list (list terrain_cell)) :
  get_terrain_cells preset grid seed = Ok cells ->
  forall row cell cls,
    In row cells -> In cell row ->
    In cls TERRAIN_CLASSES -> id cls = cell_classId cell ->
    if cell_classId cell =? 5
    then cell_className cell = "Sky"%string /\ name cls = "Clear"%string /\
         (cell_cost cell == 0)%Q /\ (cost cls == 0.1)%Q /\
         cell_traversable cell = false /\ traversable cls = true
    else cell_className cell = name cls /\
         cell_cost cell = cost cls /\
         cell_traversable cell = traversable cls.
Proof.
  intros E row cell cls Hrow Hcell Hcls Hid.
  apply get_terrain_cells_inv in E.
  rewrite Forall_forall in E. specialize (E row Hrow).
  rewrite Forall_forall in E.
  destruct (E cell Hcell) as (cls' & Hcls' & Hid' & Hn & Hc & Ht & _).
  rewrite Hn, Hc, Ht, <- Hid. rewrite <- Hid in Hid'.
  clear -Hcls Hcls' Hid'.
  simpl in Hcls.
  repeat destruct Hcls as [<-|Hcls]; try contradiction;
    simpl in Hcls';
    repeat destruct Hcls' as [<-|Hcls']; try contradiction;
    try discriminate Hid';
    cbn [id name cost traversable Z.eqb Pos.eqb];
    repeat split; reflexivity.
Qed.

Lemma terrain_cells_disagree_on_class_5_witness :
  exists cells row cell,
    @get_terrain_cells saw_libm ref_generator ref_round "mixed" 3 1
      = Ok cells /\
    nth_error cells 1 = Some row /\ nth_error row 1 = Some cell /\
    cell_classId cell = 5 /\
    cell_className cell = "Sky"%string /\ cell_traversable cell = false.
Proof.
  destruct (@get_terrain_cells saw_libm ref_generator ref_round "mixed" 3 1)
    as [cells|e] eqn:E; [|vm_compute in E; discriminate].
  pose proof E as E'. vm_compute in E'. injection E' as Hcells.
  destruct (nth_error cells 1) as [row|] eqn:Erow;
    [|subst cells; discriminate].
  destruct (nth_error row 1) as [cell|] eqn:Ecell;
    [|subst cells; inversion Erow; subst row; discriminate].
  assert (Hid : cell_classId cell = 5).
  { subst cells. inversion Erow; subst row. inversion Ecell. reflexivity. }
  exists cells, row, cell.
  split; [reflexivity|]. split; [exact Erow|]. split; [exact Ecell|].
  split; [exact Hid|].
  pose proof (@terrain_cells_disagree_on_class_5 saw_libm ref_generator
                ref_round "mixed" 3 1 cells E row cell
                (mk_class 5 "Clear" (200, 210, 220) 0.1 true)
                (nth_error_In _ _ Erow) (nth_error_In _ _ Ecell)
                (or_intror (or_intror (or_intror (or_intror (or_intror
                   (or_introl eq_refl))))))
                (eq_sym Hid)) as Hd.
  rewrite Hid in Hd. simpl in Hd. tauto.
Defined.

(* ------------------------------------------------------------------ *)
(** ** Renderer: painted cells *)









